(** * omnivault-keyring: the keyring Provider, its index and its envelope codec

    A shallow embedding of package [keyring] (the Provider over an OS
    credential store) together with the parts of its collaborators that the
    Provider's behaviour depends on: the native store behind
    [zalando/go-keyring], the [vault.Secret] value and [encoding/json].

    Conventions.
    - A Go [string] is a byte sequence: Rocq's [string] (a list of 8-bit
      [ascii]); the codec works on [list ascii] and byte values in [N].
    - The mutex of the Provider makes every method atomic, so a method is a
      function from the state before to the state after.
    - Everything outside the Provider is in one [World]: the native store, a
      script of the failures the native layer is going to have, the log of the
      native calls made, and the state owned by the [OnIndexError] callback. *)

From Stdlib Require Import String Ascii List NArith Lia Bool.
From stdpp Require Import base option list gmap strings sorting.

Set Warnings "-register-all".

Local Open Scope list_scope.

(** ** Errors *)

(** The [error] values that travel through the package: the sentinel of
    go-keyring, any other failure of the native layer, the errors of
    [encoding/json], the sentinels of package [vault], and [vault.VaultError],
    which wraps a cause with the operation, the path and the provider name. *)
Inductive error : Type :=
  | ErrNotFound
  | ErrNative (msg : string)
  | SyntaxError
  | UnmarshalTypeError
  | UnsupportedTypeError
  | ErrClosed
  | ErrSecretNotFound
  | VaultError (op path provider : string) (cause : error).

(** [errors.Is(err, target)] for a sentinel [target]: follows the [Unwrap]
    chain of [VaultError]. *)
Fixpoint errors_Is (sentinel : error → bool) (err : error) : bool :=
  sentinel err ||
  match err with
  | VaultError _ _ _ cause => errors_Is sentinel cause
  | _ => false
  end.

Definition is_ErrNotFound (e : error) : bool :=
  match e with ErrNotFound => true | _ => false end.
Definition is_ErrClosed (e : error) : bool :=
  match e with ErrClosed => true | _ => false end.
Definition is_ErrSecretNotFound (e : error) : bool :=
  match e with ErrSecretNotFound => true | _ => false end.

Definition vault_NewVaultError (op path provider : string) (err : error) : error :=
  VaultError op path provider err.

(** A value or an error, for the Go functions that return [(T, error)]. *)
Inductive result (A : Type) : Type :=
  | Ok (a : A)
  | Err (e : error).
Arguments Ok {A} a.
Arguments Err {A} e.

(** ** package vault: the secret *)

Module vault.

(** Modelled from the spec: the declaration of [vault.Secret] and
    [vault.Metadata] is in package [vault], outside this repository's
    sources.  The spec's data model gives a secret a primary value, a field
    map and a metadata block of provider name, storage path and tag map. *)
Record Metadata : Type := mkMetadata {
  Provider : string;
  Path : string;
  Tags : gmap string string
}.

Record Secret : Type := mkSecret {
  Value : string;
  Fields : gmap string string;
  Meta : Metadata
}.

(** Modelled from the spec: [Secret.String], the text stored in plain mode
    ("encode returns primaryValue verbatim"). *)
Definition String (s : Secret) : string := Value s.

Definition withValue (v : string) (s : Secret) : Secret :=
  mkSecret v (Fields s) (Meta s).

(** [vault.Capabilities], with the five fields that the Provider sets. *)
Record Capabilities : Type := mkCapabilities {
  Read : bool;
  Write : bool;
  Delete : bool;
  List : bool;
  MultiField : bool
}.

End vault.

(** ** The world outside the Provider *)

(** One call into the native layer. *)
Inductive NativeCall : Type :=
  | CallGet (service key : string)
  | CallSet (service key value : string)
  | CallDelete (service key : string).

Section Keyring.

(** The state the [OnIndexError] callback closes over. *)
Context {Obs : Type}.

Record World : Type := mkWorld {
  store : gmap (string * string) string;
  faults : list (option error);
  trace : list NativeCall;
  observer : Obs
}.

Definition logCall (c : NativeCall) (w : World) : World :=
  mkWorld (store w) (faults w) (trace w ++ [c]) (observer w).

(** The next entry of the failure script: [Some e] makes the native call
    fail with [e]; [None], or an exhausted script, lets it run. *)
Definition nextFault (w : World) : option error * World :=
  match faults w with
  | [] => (None, w)
  | f :: fs => (f, mkWorld (store w) fs (trace w) (observer w))
  end.

(** Whether none of the next [n] native calls is scripted to fail. *)
Definition undisturbed (n : nat) (w : World) : bool :=
  forallb (λ f, match f with None => true | Some _ => false end) (take n (faults w)).

Definition setStore (s : gmap (string * string) string) (w : World) : World :=
  mkWorld s (faults w) (trace w) (observer w).

Definition setObserver (o : Obs) (w : World) : World :=
  mkWorld (store w) (faults w) (trace w) o.

(** *** package zkeyring: the native store

    Modelled from the spec: the native store adapter is
    [github.com/zalando/go-keyring], outside this repository.  Its contract
    (spec, external interfaces): [get(service, key) -> text | NotFound |
    OtherError], [set(service, key, text) -> ok | error],
    [delete(service, key) -> ok | NotFound | error], one flat namespace keyed
    by [(service, key)].  A call that fails leaves the store as it was. *)

Definition zkeyring_Get (service key : string) (w : World) : result string * World :=
  match nextFault (logCall (CallGet service key) w) with
  | (Some e, w1) => (Err e, w1)
  | (None, w1) =>
      match store w1 !! (service, key) with
      | Some v => (Ok v, w1)
      | None => (Err ErrNotFound, w1)
      end
  end.

Definition zkeyring_Set (service key value : string) (w : World) : option error * World :=
  match nextFault (logCall (CallSet service key value) w) with
  | (Some e, w1) => (Some e, w1)
  | (None, w1) => (None, setStore (<[(service, key) := value]> (store w1)) w1)
  end.

Definition zkeyring_Delete (service key : string) (w : World) : option error * World :=
  match nextFault (logCall (CallDelete service key) w) with
  | (Some e, w1) => (Some e, w1)
  | (None, w1) =>
      match store w1 !! (service, key) with
      | Some _ => (None, setStore (delete (service, key) (store w1)) w1)
      | None => (Some ErrNotFound, w1)
      end
  end.

(** *** package json, as the Provider uses it

    [json.Marshal(secret)], [json.Unmarshal(data, secret)] (which decodes
    into an existing secret and may have changed it when it fails),
    [json.Marshal(index)] and [json.Unmarshal(data, &index)] for an index
    that starts out nil. *)
Class JSON : Type := {
  json_Marshal_Secret : vault.Secret → result string;
  json_Unmarshal_Secret : string → vault.Secret → vault.Secret * option error;
  json_Marshal_index : list string → result string;
  json_Unmarshal_index : string → result (list string)
}.

Context {codec : JSON}.

(** *** package keyring *)

Definition DefaultServiceName : string := "omnivault".
Definition indexKey : string := "__omnivault_index__".

Record Config : Type := mkConfig {
  ServiceName : string;
  JSONFormat : bool;
  OnIndexError : option (string → error → Obs → Obs)
}.

Record Provider : Type := mkProvider {
  config : Config;
  closed : bool
}.

Definition New (config : Config) : Provider :=
  mkProvider
    (if String.eqb (ServiceName config) "" then
       mkConfig DefaultServiceName (JSONFormat config) (OnIndexError config)
     else config)
    false.

Definition NewWithServiceName (serviceName : string) : Provider :=
  New (mkConfig serviceName false None).

Definition Provider_Name (p : Provider) : string := "keyring".

Definition Provider_ServiceName (p : Provider) : string := ServiceName (config p).

Definition Provider_reportIndexError (p : Provider) (op : string) (err : error)
    (w : World) : World :=
  match OnIndexError (config p) with
  | Some callback => setObserver (callback op err (observer w)) w
  | None => w
  end.

Definition Provider_loadIndex (p : Provider) (w : World) : list string * World :=
  match zkeyring_Get (ServiceName (config p)) indexKey w with
  | (Err err, w1) =>
      if negb (errors_Is is_ErrNotFound err) then
        ([], Provider_reportIndexError p "load" err w1)
      else ([], w1)
  | (Ok value, w1) =>
      match json_Unmarshal_index value with
      | Err err => ([], Provider_reportIndexError p "unmarshal" err w1)
      | Ok index => (index, w1)
      end
  end.

Definition Provider_saveIndex (p : Provider) (index : list string) (w : World) : World :=
  match json_Marshal_index index with
  | Err err => Provider_reportIndexError p "marshal" err w
  | Ok data =>
      match zkeyring_Set (ServiceName (config p)) indexKey data w with
      | (Some err, w1) => Provider_reportIndexError p "save" err w1
      | (None, w1) => w1
      end
  end.

(** [for _, k := range index { if k == key { return } }]: whether the loop
    returns early. *)
Fixpoint indexHas (index : list string) (key : string) : bool :=
  match index with
  | [] => false
  | k :: rest => if String.eqb k key then true else indexHas rest key
  end.

Definition Provider_addToIndex (p : Provider) (key : string) (w : World) : World :=
  let (index, w1) := Provider_loadIndex p w in
  if indexHas index key then w1
  else Provider_saveIndex p (index ++ [key]) w1.

(** [for _, k := range index { if k != key { newIndex = append(newIndex, k) } }] *)
Definition indexWithout (index : list string) (key : string) : list string :=
  foldl (λ newIndex k, if negb (String.eqb k key) then newIndex ++ [k] else newIndex)
        [] index.

Definition Provider_removeFromIndex (p : Provider) (key : string) (w : World) : World :=
  let (index, w1) := Provider_loadIndex p w in
  Provider_saveIndex p (indexWithout index key) w1.

Definition Provider_Get (p : Provider) (path : string) (w : World)
    : result vault.Secret * World :=
  if closed p then
    (Err (vault_NewVaultError "Get" path (Provider_Name p) ErrClosed), w)
  else
    match zkeyring_Get (ServiceName (config p)) path w with
    | (Err err, w1) =>
        if errors_Is is_ErrNotFound err then
          (Err (vault_NewVaultError "Get" path (Provider_Name p) ErrSecretNotFound), w1)
        else
          (Err (vault_NewVaultError "Get" path (Provider_Name p) err), w1)
    | (Ok value, w1) =>
        let secret :=
          vault.mkSecret "" ∅ (vault.mkMetadata (Provider_Name p) path ∅) in
        if JSONFormat (config p) then
          match json_Unmarshal_Secret value secret with
          | (secret', Some _) => (Ok (vault.withValue value secret'), w1)
          | (secret', None) => (Ok secret', w1)
          end
        else (Ok (vault.withValue value secret), w1)
    end.

Definition Provider_Set (p : Provider) (path : string) (secret : vault.Secret)
    (w : World) : option error * World :=
  if closed p then
    (Some (vault_NewVaultError "Set" path (Provider_Name p) ErrClosed), w)
  else
    match (if JSONFormat (config p) then json_Marshal_Secret secret
           else Ok (vault.String secret)) with
    | Err err => (Some (vault_NewVaultError "Set" path (Provider_Name p) err), w)
    | Ok value =>
        match zkeyring_Set (ServiceName (config p)) path value w with
        | (Some err, w1) =>
            (Some (vault_NewVaultError "Set" path (Provider_Name p) err), w1)
        | (None, w1) =>
            (None, if negb (String.eqb path indexKey)
                   then Provider_addToIndex p path w1 else w1)
        end
    end.

Definition Provider_Delete (p : Provider) (path : string) (w : World)
    : option error * World :=
  if closed p then
    (Some (vault_NewVaultError "Delete" path (Provider_Name p) ErrClosed), w)
  else
    match zkeyring_Delete (ServiceName (config p)) path w with
    | (Some err, w1) =>
        if errors_Is is_ErrNotFound err then (None, w1)
        else (Some (vault_NewVaultError "Delete" path (Provider_Name p) err), w1)
    | (None, w1) =>
        (None, if negb (String.eqb path indexKey)
               then Provider_removeFromIndex p path w1 else w1)
    end.

Definition Provider_Exists (p : Provider) (path : string) (w : World)
    : (bool * option error) * World :=
  if closed p then
    ((false, Some (vault_NewVaultError "Exists" path (Provider_Name p) ErrClosed)), w)
  else
    match zkeyring_Get (ServiceName (config p)) path w with
    | (Err err, w1) =>
        if errors_Is is_ErrNotFound err then ((false, None), w1)
        else ((false, Some (vault_NewVaultError "Exists" path (Provider_Name p) err)), w1)
    | (Ok _, w1) => ((true, None), w1)
    end.

(** [strings.HasPrefix]: [len(s) >= len(prefix) && s[:len(prefix)] == prefix]. *)
Definition strings_HasPrefix (s prefix : string) : bool :=
  (String.length prefix <=? String.length s)%nat
  && String.eqb (substring 0 (String.length prefix) s) prefix.

Definition Provider_List (p : Provider) (prefix : string) (w : World)
    : result (list string) * World :=
  if closed p then
    (Err (vault_NewVaultError "List" prefix (Provider_Name p) ErrClosed), w)
  else
    let (index, w1) := Provider_loadIndex p w in
    (Ok (foldl (λ results key,
                  if strings_HasPrefix key prefix then results ++ [key] else results)
               [] index), w1).

Definition Provider_Close (p : Provider) : option error * Provider :=
  (None, mkProvider (config p) true).

Definition Provider_Capabilities (p : Provider) : vault.Capabilities :=
  vault.mkCapabilities true true true true (JSONFormat (config p)).

(** [Backend] switches on [runtime.GOOS], here the argument [goos]. *)
Definition Provider_Backend (goos : string) (p : Provider) : string :=
  if String.eqb goos "darwin" then "macOS Keychain"
  else if String.eqb goos "windows" then "Windows Credential Manager"
  else if String.eqb goos "linux" then "Secret Service (GNOME Keyring/KWallet)"
  else "Unknown".

End Keyring.

(** ** Sequences of operations *)

Section Driver.

Context {Obs : Type} {codec : JSON}.

(** One call of a method of the [vault.Vault] interface. *)
Inductive Op : Type :=
  | OpGet (path : string)
  | OpSet (path : string) (secret : vault.Secret)
  | OpDelete (path : string)
  | OpExists (path : string)
  | OpList (prefix : string)
  | OpClose.

(** What the call returned. *)
Inductive Outcome : Type :=
  | OutGet (r : result vault.Secret)
  | OutSet (e : option error)
  | OutDelete (e : option error)
  | OutExists (b : bool) (e : option error)
  | OutList (r : result (list string))
  | OutClose (e : option error).

Definition step (op : Op) (st : Provider * World (Obs:=Obs))
    : Outcome * (Provider * World (Obs:=Obs)) :=
  let (p, w) := st in
  match op with
  | OpGet path => let (r, w1) := Provider_Get p path w in (OutGet r, (p, w1))
  | OpSet path secret => let (e, w1) := Provider_Set p path secret w in (OutSet e, (p, w1))
  | OpDelete path => let (e, w1) := Provider_Delete p path w in (OutDelete e, (p, w1))
  | OpExists path =>
      let (r, w1) := Provider_Exists p path w in (OutExists r.1 r.2, (p, w1))
  | OpList prefix => let (r, w1) := Provider_List p prefix w in (OutList r, (p, w1))
  | OpClose => let (e, p1) := Provider_Close p in (OutClose e, (p1, w))
  end.

Fixpoint run (ops : list Op) (st : Provider * World (Obs:=Obs))
    : list Outcome * (Provider * World (Obs:=Obs)) :=
  match ops with
  | [] => ([], st)
  | op :: rest =>
      let (out, st1) := step op st in
      let (outs, st2) := run rest st1 in
      (out :: outs, st2)
  end.

(** The error of an outcome, if it has one. *)
Definition outcomeError (out : Outcome) : option error :=
  match out with
  | OutGet (Err e) | OutList (Err e) => Some e
  | OutGet (Ok _) | OutList (Ok _) => None
  | OutSet e | OutDelete e | OutExists _ e | OutClose e => e
  end.

(** The outcome of an operation on a closed Provider: [Close] succeeds, the
    others fail with [vault.ErrClosed] wrapped with their name and path. *)
Definition closedOutcome (op : Op) : Outcome :=
  match op with
  | OpGet path => OutGet (Err (VaultError "Get" path "keyring" ErrClosed))
  | OpSet path _ => OutSet (Some (VaultError "Set" path "keyring" ErrClosed))
  | OpDelete path => OutDelete (Some (VaultError "Delete" path "keyring" ErrClosed))
  | OpExists path => OutExists false (Some (VaultError "Exists" path "keyring" ErrClosed))
  | OpList prefix => OutList (Err (VaultError "List" prefix "keyring" ErrClosed))
  | OpClose => OutClose None
  end.

(** *** Index failures, as the spec words them

    Index maintenance reports a failure of the native read of the index
    entry other than not-found as ["load"], a stored index that does not
    decode as ["unmarshal"], an index that does not encode as ["marshal"]
    and a failure of the native write as ["save"]. *)

Definition loadFailures (r : result string) : list (string * error) :=
  match r with
  | Err e => if errors_Is is_ErrNotFound e then [] else [("load", e)]
  | Ok text =>
      match json_Unmarshal_index text with
      | Err e => [("unmarshal", e)]
      | Ok _ => []
      end
  end.

Definition loadedIndex (r : result string) : list string :=
  match r with
  | Err _ => []
  | Ok text =>
      match json_Unmarshal_index text with
      | Err _ => []
      | Ok index => index
      end
  end.

Definition saveFailures (index : list string) (write : string → option error)
    : list (string * error) :=
  match json_Marshal_index index with
  | Err e => [("marshal", e)]
  | Ok data =>
      match write data with
      | Some e => [("save", e)]
      | None => []
      end
  end.

(** The failures of [add(key)] and [remove(key)] run in world [w]. *)
Definition addFailures (p : Provider (Obs:=Obs)) (key : string) (w : World (Obs:=Obs))
    : list (string * error) :=
  let (r, w1) := zkeyring_Get (ServiceName (config p)) indexKey w in
  loadFailures r ++
  (if bool_decide (key ∈ loadedIndex r) then []
   else saveFailures (loadedIndex r ++ [key])
          (λ data, (zkeyring_Set (ServiceName (config p)) indexKey data w1).1)).

Definition removeFailures (p : Provider (Obs:=Obs)) (key : string) (w : World (Obs:=Obs))
    : list (string * error) :=
  let (r, w1) := zkeyring_Get (ServiceName (config p)) indexKey w in
  loadFailures r ++
  saveFailures (filter (λ k, k ≠ key) (loadedIndex r))
    (λ data, (zkeyring_Set (ServiceName (config p)) indexKey data w1).1).

(** The envelope codec of the spec: [encode(secret, structured)]. *)
Definition encode (secret : vault.Secret) (structured : bool) : result string :=
  if structured then json_Marshal_Secret secret else Ok (vault.String secret).

(** Handing a list of failures to the configured callback, one call per
    failure, in order; without a callback nothing happens. *)
Definition deliver (p : Provider (Obs:=Obs)) (failures : list (string * error))
    (o : Obs) : Obs :=
  match OnIndexError (config p) with
  | Some callback => foldl (λ o f, callback f.1 f.2 o) o failures
  | None => o
  end.

Definition indexTags : list string := ["load"; "unmarshal"; "marshal"; "save"].

End Driver.

(** ** Bytes *)

(** The numeric value of a byte, and the conversion [byte(n)], which keeps the
    low eight bits. *)
Definition b2n (c : ascii) : N := N_of_ascii c.
Definition n2b (n : N) : ascii := ascii_of_N n.

(** A few bytes that cannot be written between double quotes. *)
Definition quoteChar : ascii := "034"%char.
Definition backslash : ascii := "\"%char.

(** ** package utf8 *)

Module utf8.

Definition RuneError : N := 0xFFFD.
Definition RuneSelf : N := 0x80.
Definition MaxRune : N := 0x10FFFF.
Definition UTFMax : nat := 4.

Definition surrogateMin : N := 0xD800.
Definition surrogateMax : N := 0xDFFF.

Definition tx : N := 0x80.
Definition t2 : N := 0xC0.
Definition t3 : N := 0xE0.
Definition t4 : N := 0xF0.

Definition maskx : N := 0x3F.
Definition mask2 : N := 0x1F.
Definition mask3 : N := 0x0F.
Definition mask4 : N := 0x07.

Definition rune1Max : N := 0x7F.
Definition rune2Max : N := 0x7FF.
Definition rune3Max : N := 0xFFFF.

Definition locb : N := 0x80.
Definition hicb : N := 0xBF.

(** The entries of the table [first]: the low three bits are the length of
    the sequence, the high four bits index [acceptRanges]. *)
Definition xx : N := 0xF1.
Definition as_ : N := 0xF0.
Definition s1 : N := 0x02.
Definition s2 : N := 0x13.
Definition s3 : N := 0x03.
Definition s4 : N := 0x23.
Definition s5 : N := 0x34.
Definition s6 : N := 0x04.
Definition s7 : N := 0x44.

(** The table [first], by ranges of the first byte. *)
Definition first (s0 : N) : N :=
  if (s0 <? 0x80)%N then as_
  else if (s0 <? 0xC2)%N then xx
  else if (s0 <? 0xE0)%N then s1
  else if (s0 =? 0xE0)%N then s2
  else if (s0 <? 0xED)%N then s3
  else if (s0 =? 0xED)%N then s4
  else if (s0 <? 0xF0)%N then s3
  else if (s0 =? 0xF0)%N then s5
  else if (s0 <? 0xF4)%N then s6
  else if (s0 =? 0xF4)%N then s7
  else xx.

(** [acceptRanges]: the bounds of the second byte. *)
Definition acceptRanges (i : N) : N * N :=
  match i with
  | 0 => (locb, hicb)
  | 1 => (0xA0, hicb)
  | 2 => (locb, 0x9F)
  | 3 => (0x90, hicb)
  | 4 => (locb, 0x8F)
  | _ => (0, 0)
  end%N.

(** [utf8.DecodeRune] / [utf8.DecodeRuneInString]: the first rune of [s] and
    its width in bytes; [(RuneError, 1)] for a byte that starts no valid
    encoding. *)
Definition DecodeRune (s : list ascii) : N * nat :=
  match s with
  | [] => (RuneError, 0)
  | c0 :: s' =>
      let s0 := b2n c0 in
      let x := first s0 in
      if (as_ <=? x)%N then
        (* the mask trick: [xx] is odd and gives RuneError, [as] gives s0 *)
        (if N.odd x then RuneError else s0, 1)
      else
        let sz := N.to_nat (N.land x 7) in
        let accept := acceptRanges (N.shiftr x 4) in
        if (length s <? sz)%nat then (RuneError, 1)
        else
          match s' with
          | [] => (RuneError, 1)
          | c1 :: s'' =>
              let s1 := b2n c1 in
              if (s1 <? accept.1)%N || (accept.2 <? s1)%N then (RuneError, 1)
              else if (sz <=? 2)%nat then
                (N.lor (N.shiftl (N.land s0 mask2) 6) (N.land s1 maskx), 2)
              else
                match s'' with
                | [] => (RuneError, 1)
                | c2 :: s''' =>
                    let s2 := b2n c2 in
                    if (s2 <? locb)%N || (hicb <? s2)%N then (RuneError, 1)
                    else if (sz <=? 3)%nat then
                      (N.lor (N.lor (N.shiftl (N.land s0 mask3) 12)
                                    (N.shiftl (N.land s1 maskx) 6))
                             (N.land s2 maskx), 3)
                    else
                      match s''' with
                      | [] => (RuneError, 1)
                      | c3 :: _ =>
                          let s3 := b2n c3 in
                          if (s3 <? locb)%N || (hicb <? s3)%N then (RuneError, 1)
                          else
                            (N.lor (N.lor (N.lor (N.shiftl (N.land s0 mask4) 18)
                                                 (N.shiftl (N.land s1 maskx) 12))
                                          (N.shiftl (N.land s2 maskx) 6))
                                   (N.land s3 maskx), 4)
                      end
                end
          end
  end.

Definition encode3 (r : N) : list ascii :=
  [n2b (N.lor t3 (N.shiftr r 12));
   n2b (N.lor tx (N.land (N.shiftr r 6) maskx));
   n2b (N.lor tx (N.land r maskx))].

(** [utf8.EncodeRune] / [utf8.AppendRune]: the bytes of rune [r]; a
    surrogate or a value above [MaxRune] is encoded as [RuneError]. *)
Definition EncodeRune (r : N) : list ascii :=
  if (r <=? rune1Max)%N then [n2b r]
  else if (r <=? rune2Max)%N then
    [n2b (N.lor t2 (N.shiftr r 6)); n2b (N.lor tx (N.land r maskx))]
  else if (MaxRune <? r)%N || ((surrogateMin <=? r)%N && (r <=? surrogateMax)%N) then
    encode3 RuneError
  else if (r <=? rune3Max)%N then encode3 r
  else
    [n2b (N.lor t4 (N.shiftr r 18));
     n2b (N.lor tx (N.land (N.shiftr r 12) maskx));
     n2b (N.lor tx (N.land (N.shiftr r 6) maskx));
     n2b (N.lor tx (N.land r maskx))].

(** [utf8.Valid] / [utf8.ValidString]: no byte of [s] decodes to
    [(RuneError, 1)].  The fuel is the number of runes still allowed; the
    length of [s] is enough. *)
Fixpoint validFrom (fuel : nat) (s : list ascii) : bool :=
  match fuel, s with
  | _, [] => true
  | 0%nat, _ :: _ => false
  | S fuel', _ :: _ =>
      let (r, size) := DecodeRune s in
      if (r =? RuneError)%N && (size =? 1)%nat then false
      else validFrom fuel' (drop size s)
  end.

Definition Valid (s : list ascii) : bool := validFrom (length s) s.

Definition ValidString (s : string) : bool := Valid (list_ascii_of_string s).

End utf8.

(** ** package utf16 *)

Module utf16.

Definition surr1 : N := 0xD800.
Definition surr2 : N := 0xDC00.
Definition surr3 : N := 0xE000.
Definition surrSelf : N := 0x10000.
Definition replacementChar : N := 0xFFFD.

Definition IsSurrogate (r : N) : bool := (surr1 <=? r)%N && (r <? surr3)%N.

(** [utf16.DecodeRune(r1, r2)]; [r2] is [None] where the caller passes -1. *)
Definition DecodeRune (r1 : N) (r2 : option N) : N :=
  match r2 with
  | Some r2 =>
      if (surr1 <=? r1)%N && (r1 <? surr2)%N && (surr2 <=? r2)%N && (r2 <? surr3)%N then
        (N.lor (N.shiftl (r1 - surr1) 10) (r2 - surr2) + surrSelf)%N
      else replacementChar
  | None => replacementChar
  end.

End utf16.

(** ** package encoding/json

    Modelled from the spec: the structured text form of the envelope codec is
    what Go's [encoding/json] produces and accepts for [vault.Secret] and for
    [[]string]; the package is outside this repository.  The model follows
    [encode.go] (appendString, the struct, map and slice encoders), [scanner.go]
    (the grammar checked by [checkValid]) and [decode.go] (unquote, the
    object, array and literal decoders). *)

Module json.

Definition isByte (c : ascii) (n : N) : bool := (b2n c =? n)%N.
Definition inRange (c : ascii) (lo hi : ascii) : bool :=
  (b2n lo <=? b2n c)%N && (b2n c <=? b2n hi)%N.

(** *** Encoding strings *)

Definition hex (n : N) : ascii :=
  nth (N.to_nat n) (list_ascii_of_string "0123456789abcdef") "0"%char.

(** [htmlSafeSet]: the ASCII bytes [appendString] copies when it escapes
    HTML, which [Marshal] does: all from the space on, but the double quote,
    the backslash and the characters <, > and &. *)
Definition htmlSafeSet (b : ascii) : bool :=
  (0x20 <=? b2n b)%N && (b2n b <? 0x80)%N
  && negb (Ascii.eqb b quoteChar || Ascii.eqb b backslash
           || Ascii.eqb b "<" || Ascii.eqb b ">" || Ascii.eqb b "&").

(** The escape of an ASCII byte outside [htmlSafeSet]. *)
Definition escapeByte (b : ascii) : list ascii :=
  if Ascii.eqb b backslash || Ascii.eqb b quoteChar then [backslash; b]
  else if isByte b 8 then [backslash; "b"%char]
  else if isByte b 12 then [backslash; "f"%char]
  else if isByte b 10 then [backslash; "n"%char]
  else if isByte b 13 then [backslash; "r"%char]
  else if isByte b 9 then [backslash; "t"%char]
  else [backslash; "u"%char; "0"%char; "0"%char;
        hex (N.shiftr (b2n b) 4); hex (N.land (b2n b) 0xF)].

(** The body of the loop of [appendString]: what is appended for the bytes
    of [src], between the two quotes.  One round consumes one byte or one
    rune, so the length of [src] is enough fuel. *)
Fixpoint appendStringFrom (fuel : nat) (src : list ascii) : list ascii :=
  match fuel, src with
  | _, [] => []
  | 0%nat, _ :: _ => []
  | S fuel', b :: rest =>
      if (b2n b <? utf8.RuneSelf)%N then
        (if htmlSafeSet b then [b] else escapeByte b) ++ appendStringFrom fuel' rest
      else
        let (c, size) := utf8.DecodeRune (take utf8.UTFMax src) in
        if (c =? utf8.RuneError)%N && (size =? 1)%nat then
          [backslash; "u"; "f"; "f"; "f"; "d"]%char ++ appendStringFrom fuel' rest
        else if (c =? 0x2028)%N || (c =? 0x2029)%N then
          [backslash; "u"; "2"; "0"; "2"; hex (N.land c 0xF)]%char
            ++ appendStringFrom fuel' (drop size src)
        else take size src ++ appendStringFrom fuel' (drop size src)
  end.

Definition quoteBody (src : list ascii) : list ascii :=
  appendStringFrom (length src) src.

Definition appendString (src : list ascii) : list ascii :=
  [quoteChar] ++ quoteBody src ++ [quoteChar].

(** *** Decoding strings *)

Definition hexDigit (c : ascii) : option N :=
  if inRange c "0" "9" then Some (b2n c - b2n "0")%N
  else if inRange c "a" "f" then Some (b2n c - b2n "a" + 10)%N
  else if inRange c "A" "F" then Some (b2n c - b2n "A" + 10)%N
  else None.

(** [getu4]: the rune of a [\uXXXX] at the start of [s]; [None] for -1. *)
Definition getu4 (s : list ascii) : option N :=
  match s with
  | c0 :: c1 :: h1 :: h2 :: h3 :: h4 :: _ =>
      if Ascii.eqb c0 backslash && Ascii.eqb c1 "u" then
        d1 ← hexDigit h1; d2 ← hexDigit h2; d3 ← hexDigit h3; d4 ← hexDigit h4;
        Some (((d1 * 16 + d2) * 16 + d3) * 16 + d4)%N
      else None
  | _ => None
  end.

(** The loop of [unquoteBytes] over the inside of a string literal.  (Its
    first loop, which returns the literal itself when nothing in it needs
    work, is a shortcut with the same result.) *)
Fixpoint unquoteFrom (fuel : nat) (s : list ascii) : option (list ascii) :=
  match fuel, s with
  | _, [] => Some []
  | 0%nat, _ :: _ => None
  | S fuel', c :: rest =>
      if Ascii.eqb c backslash then
        match rest with
        | [] => None
        | e :: rest' =>
            if Ascii.eqb e quoteChar || Ascii.eqb e backslash
               || Ascii.eqb e "/" || Ascii.eqb e "'" then
              cons e <$> unquoteFrom fuel' rest'
            else if Ascii.eqb e "b" then cons (n2b 8) <$> unquoteFrom fuel' rest'
            else if Ascii.eqb e "f" then cons (n2b 12) <$> unquoteFrom fuel' rest'
            else if Ascii.eqb e "n" then cons (n2b 10) <$> unquoteFrom fuel' rest'
            else if Ascii.eqb e "r" then cons (n2b 13) <$> unquoteFrom fuel' rest'
            else if Ascii.eqb e "t" then cons (n2b 9) <$> unquoteFrom fuel' rest'
            else if Ascii.eqb e "u" then
              match getu4 s with
              | None => None
              | Some rr =>
                  let s6 := drop 6 s in
                  if utf16.IsSurrogate rr then
                    let dec := utf16.DecodeRune rr (getu4 s6) in
                    if negb (dec =? utf16.replacementChar)%N then
                      app (utf8.EncodeRune dec) <$> unquoteFrom fuel' (drop 6 s6)
                    else
                      app (utf8.EncodeRune utf16.replacementChar) <$> unquoteFrom fuel' s6
                  else app (utf8.EncodeRune rr) <$> unquoteFrom fuel' s6
              end
            else None
        end
      else if Ascii.eqb c quoteChar || (b2n c <? 0x20)%N then None
      else if (b2n c <? utf8.RuneSelf)%N then cons c <$> unquoteFrom fuel' rest
      else
        let (rr, size) := utf8.DecodeRune s in
        app (utf8.EncodeRune rr) <$> unquoteFrom fuel' (drop size s)
  end.

Definition unquote (literal : list ascii) : option (list ascii) :=
  unquoteFrom (length literal) literal.

(** *** The grammar *)

(** A JSON value as the scanner delimits it; a string and an object key are
    kept as the bytes between their quotes, a number as its literal. *)
Inductive value : Type :=
  | Null
  | Bool (b : bool)
  | Number (literal : list ascii)
  | Str (literal : list ascii)
  | Array (elements : list value)
  | Object (members : list (list ascii * value)).

Inductive parsed (A : Type) : Type :=
  | Parsed (a : A) (rest : list ascii)
  | Invalid
  | OutOfFuel.
Arguments Parsed {A} a rest.
Arguments Invalid {A}.
Arguments OutOfFuel {A}.

Definition maxNestingDepth : N := 10000.

Definition isSpace (c : ascii) : bool :=
  Ascii.eqb c " " || isByte c 9 || isByte c 13 || isByte c 10.

Fixpoint skipSpace (s : list ascii) : list ascii :=
  match s with
  | c :: rest => if isSpace c then skipSpace rest else s
  | [] => []
  end.

(** The inside of a string literal up to its closing quote
    ([stateInString], [stateInStringEsc], [stateInStringEscU...]). *)
Fixpoint scanString (s : list ascii) : option (list ascii * list ascii) :=
  match s with
  | [] => None
  | c :: rest =>
      if Ascii.eqb c quoteChar then Some ([], rest)
      else if Ascii.eqb c backslash then
        match rest with
        | [] => None
        | e :: rest' =>
            if Ascii.eqb e "b" || Ascii.eqb e "f" || Ascii.eqb e "n" || Ascii.eqb e "r"
               || Ascii.eqb e "t" || Ascii.eqb e backslash || Ascii.eqb e "/"
               || Ascii.eqb e quoteChar then
              prod_map (app [c; e]) id <$> scanString rest'
            else if Ascii.eqb e "u" then
              match rest' with
              | h1 :: h2 :: h3 :: h4 :: rest'' =>
                  if forallb (λ h, bool_decide (is_Some (hexDigit h))) [h1; h2; h3; h4]
                  then prod_map (app [c; e; h1; h2; h3; h4]) id <$> scanString rest''
                  else None
              | _ => None
              end
            else None
        end
      else if (b2n c <? 0x20)%N then None
      else prod_map (cons c) id <$> scanString rest
  end.

Definition isDigit (c : ascii) : bool := inRange c "0" "9".

Fixpoint spanDigits (s : list ascii) : list ascii * list ascii :=
  match s with
  | c :: rest =>
      if isDigit c then prod_map (cons c) id (spanDigits rest) else ([], s)
  | [] => ([], [])
  end.

(** A number literal ([stateNeg], [state0], [state1], [stateDot],
    [stateDot0], [stateE], [stateESign], [stateE0]). *)
Definition scanNumber (s : list ascii) : option (list ascii * list ascii) :=
  let (sign, s1) :=
    match s with
    | c :: rest => if Ascii.eqb c "-" then ([c], rest) else ([], s)
    | [] => ([], s)
    end in
  match s1 with
  | [] => None
  | d :: s2 =>
      if negb (isDigit d) then None
      else
        let (int, s3) :=
          if Ascii.eqb d "0" then ([d], s2) else prod_map (cons d) id (spanDigits s2) in
        fracPart ←
          match s3 with
          | c :: s4 =>
              if Ascii.eqb c "." then
                match spanDigits s4 with
                | ([], _) => None
                | (ds, s5) => Some (c :: ds, s5)
                end
              else Some ([], s3)
          | [] => Some ([], s3)
          end;
        let (frac, s6) := fracPart : list ascii * list ascii in
        expPart ←
          match s6 with
          | c :: s7 =>
              if Ascii.eqb c "e" || Ascii.eqb c "E" then
                let (esign, s8) :=
                  match s7 with
                  | g :: s8 =>
                      if Ascii.eqb g "+" || Ascii.eqb g "-" then ([g], s8) else ([], s7)
                  | [] => ([], s7)
                  end in
                match spanDigits s8 with
                | ([], _) => None
                | (ds, s9) => Some (c :: esign ++ ds, s9)
                end
              else Some ([], s6)
          | [] => Some ([], s6)
          end;
        let (exp, s10) := expPart : list ascii * list ascii in
        Some (sign ++ int ++ frac ++ exp, s10)
  end.

(** The literals [true], [false] and [null]. *)
Definition scanWord (word : string) (s : list ascii) : option (list ascii) :=
  let w := list_ascii_of_string word in
  if bool_decide (take (length w) s = w) then Some (drop (length w) s) else None.

(** One value at the start of [s], which does not start with a space;
    [depth] counts the arrays and objects that are open.  Every call
    consumes input, so [S (length s)] is enough fuel. *)
Fixpoint parseValue (fuel : nat) (depth : N) (s : list ascii) {struct fuel}
    : parsed value :=
  match fuel with
  | 0%nat => OutOfFuel
  | S fuel' =>
      match s with
      | [] => Invalid
      | c :: rest =>
          if Ascii.eqb c "{" then
            if (maxNestingDepth <=? depth)%N then Invalid
            else
              match skipSpace rest with
              | [] => Invalid
              | c' :: rest' =>
                  if Ascii.eqb c' "}" then Parsed (Object []) rest'
                  else
                    match parseMembers fuel' (depth + 1) (c' :: rest') with
                    | Parsed members r => Parsed (Object members) r
                    | Invalid => Invalid
                    | OutOfFuel => OutOfFuel
                    end
              end
          else if Ascii.eqb c "[" then
            if (maxNestingDepth <=? depth)%N then Invalid
            else
              match skipSpace rest with
              | [] => Invalid
              | c' :: rest' =>
                  if Ascii.eqb c' "]" then Parsed (Array []) rest'
                  else
                    match parseElements fuel' (depth + 1) (c' :: rest') with
                    | Parsed elements r => Parsed (Array elements) r
                    | Invalid => Invalid
                    | OutOfFuel => OutOfFuel
                    end
              end
          else if Ascii.eqb c quoteChar then
            match scanString rest with
            | Some (literal, r) => Parsed (Str literal) r
            | None => Invalid
            end
          else if Ascii.eqb c "t" then
            match scanWord "true" s with
            | Some r => Parsed (Bool true) r
            | None => Invalid
            end
          else if Ascii.eqb c "f" then
            match scanWord "false" s with
            | Some r => Parsed (Bool false) r
            | None => Invalid
            end
          else if Ascii.eqb c "n" then
            match scanWord "null" s with
            | Some r => Parsed Null r
            | None => Invalid
            end
          else
            match scanNumber s with
            | Some (literal, r) => Parsed (Number literal) r
            | None => Invalid
            end
      end
  end

(** The elements of an array from the start of an element to the closing
    bracket. *)
with parseElements (fuel : nat) (depth : N) (s : list ascii) {struct fuel}
    : parsed (list value) :=
  match fuel with
  | 0%nat => OutOfFuel
  | S fuel' =>
      match parseValue fuel' depth s with
      | Parsed v r =>
          match skipSpace r with
          | [] => Invalid
          | c :: r' =>
              if Ascii.eqb c "," then
                match parseElements fuel' depth (skipSpace r') with
                | Parsed vs r'' => Parsed (v :: vs) r''
                | Invalid => Invalid
                | OutOfFuel => OutOfFuel
                end
              else if Ascii.eqb c "]" then Parsed [v] r'
              else Invalid
          end
      | Invalid => Invalid
      | OutOfFuel => OutOfFuel
      end
  end

(** The members of an object from the opening quote of a key to the closing
    brace. *)
with parseMembers (fuel : nat) (depth : N) (s : list ascii) {struct fuel}
    : parsed (list (list ascii * value)) :=
  match fuel with
  | 0%nat => OutOfFuel
  | S fuel' =>
      match s with
      | [] => Invalid
      | q :: r =>
          if negb (Ascii.eqb q quoteChar) then Invalid
          else
            match scanString r with
            | None => Invalid
            | Some (key, r1) =>
                match skipSpace r1 with
                | [] => Invalid
                | c :: r2 =>
                    if negb (Ascii.eqb c ":") then Invalid
                    else
                      match parseValue fuel' depth (skipSpace r2) with
                      | Parsed v r3 =>
                          match skipSpace r3 with
                          | [] => Invalid
                          | c' :: r4 =>
                              if Ascii.eqb c' "," then
                                match parseMembers fuel' depth (skipSpace r4) with
                                | Parsed ms r5 => Parsed ((key, v) :: ms) r5
                                | Invalid => Invalid
                                | OutOfFuel => OutOfFuel
                                end
                              else if Ascii.eqb c' "}" then Parsed [(key, v)] r4
                              else Invalid
                          end
                      | Invalid => Invalid
                      | OutOfFuel => OutOfFuel
                      end
                end
            end
      end
  end.

(** A whole text: one value between optional spaces.  [None] is the
    [SyntaxError] of [checkValid]. *)
Definition parse (data : list ascii) : option value :=
  match parseValue (S (length data)) 0 (skipSpace data) with
  | Parsed v rest =>
      match skipSpace rest with
      | [] => Some v
      | _ :: _ => None
      end
  | Invalid | OutOfFuel => None
  end.

Definition checkValid (data : list ascii) : bool :=
  bool_decide (is_Some (parse data)).

(** *** Marshal *)

(** The parts of an array or of an object, with commas between them. *)
Fixpoint joinComma (parts : list (list ascii)) : list ascii :=
  match parts with
  | [] => []
  | [part] => part
  | part :: parts' => part ++ ","%char :: joinComma parts'
  end.

(** The compact text of a value, as the encoder writes it. *)
Fixpoint print (v : value) : list ascii :=
  match v with
  | Null => list_ascii_of_string "null"
  | Bool true => list_ascii_of_string "true"
  | Bool false => list_ascii_of_string "false"
  | Number literal => literal
  | Str literal => quoteChar :: literal ++ [quoteChar]
  | Array elements => "["%char :: joinComma (map print elements) ++ ["]"%char]
  | Object members =>
      "{"%char
        :: joinComma (map (λ member, quoteChar :: member.1
                                       ++ quoteChar :: ":"%char :: print member.2)
                          members)
        ++ ["}"%char]
  end.

(** A Go string as a JSON string. *)
Definition ofString (s : string) : value := Str (quoteBody (list_ascii_of_string s)).

(** The entries of a map in the order of their keys ([strings.Compare]). *)
Definition keyLe (a b : string * string) : Prop := String.le a.1 b.1.

#[local] Instance keyLe_dec : RelDecision keyLe.
Proof. intros a b. unfold keyLe. apply _. Defined.

Definition sortedEntries (m : gmap string string) : list (string * string) :=
  merge_sort keyLe (map_to_list m).

Definition ofMap (m : gmap string string) : value :=
  Object (map (λ kv, (quoteBody (list_ascii_of_string kv.1), ofString kv.2))
              (sortedEntries m)).

(** A struct field tagged [omitempty]: left out when its value is empty. *)
Definition omitempty (name : string) (empty : bool) (v : value)
    : list (list ascii * value) :=
  if empty then [] else [(list_ascii_of_string name, v)].

Definition isEmptyString (s : string) : bool := String.eqb s "".
Definition isEmptyMap (m : gmap string string) : bool := bool_decide (m = ∅).

(** Modelled from the spec: the struct tags of [vault.Metadata] and
    [vault.Secret] are declared in package [vault].  The fields are taken to
    be encoded under their lower-case names ([provider], [path], [tags];
    [value], [fields], [metadata]) with [omitempty], as the README's
    "metadata is preserved" in structured mode requires them to be encoded at
    all. *)
Definition ofMetadata (md : vault.Metadata) : value :=
  Object (omitempty "provider" (isEmptyString (vault.Provider md))
                    (ofString (vault.Provider md))
          ++ omitempty "path" (isEmptyString (vault.Path md)) (ofString (vault.Path md))
          ++ omitempty "tags" (isEmptyMap (vault.Tags md)) (ofMap (vault.Tags md))).

(** The metadata is a struct, which [omitempty] never leaves out. *)
Definition ofSecret (s : vault.Secret) : value :=
  Object (omitempty "value" (isEmptyString (vault.Value s)) (ofString (vault.Value s))
          ++ omitempty "fields" (isEmptyMap (vault.Fields s)) (ofMap (vault.Fields s))
          ++ [(list_ascii_of_string "metadata", ofMetadata (vault.Meta s))]).

Definition Marshal_Secret (s : vault.Secret) : result string :=
  Ok (string_of_list_ascii (print (ofSecret s))).

(** The index handed to [Marshal] is never the nil slice ([addToIndex]
    appends to it, [removeFromIndex] makes a new one), so the empty index is
    the empty array. *)
Definition Marshal_index (index : list string) : result string :=
  Ok (string_of_list_ascii (print (Array (map ofString index)))).

(** *** Unmarshal *)

(** [saveError]: the first error is the one reported. *)
Definition saveError (saved new : option error) : option error :=
  match saved with
  | Some e => Some e
  | None => new
  end.

(** The text of a scanned literal.  The scanner has accepted the literal, so
    [unquote] does not fail on it (where it would, the decoder panics). *)
Definition unquoted (literal : list ascii) : string :=
  string_of_list_ascii (default [] (unquote literal)).

(** Into a [string]: a JSON string replaces it, [null] leaves it, anything
    else is an [UnmarshalTypeError] and leaves it. *)
Definition decodeString (v : value) (old : string) : string * option error :=
  match v with
  | Str literal => (unquoted literal, None)
  | Null => (old, None)
  | _ => (old, Some UnmarshalTypeError)
  end.

(** Into a [map[string]string]: the members of an object are stored one by
    one into the existing map (a member that is no string is stored as the
    empty string); [null] makes the map nil. *)
Definition decodeMap (v : value) (old : gmap string string)
    : gmap string string * option error :=
  match v with
  | Object members =>
      foldl (λ acc member,
               let (elem, e) := decodeString member.2 "" in
               (<[unquoted member.1 := elem]> acc.1, saveError acc.2 e))
            (old, None) members
  | Null => (∅, None)
  | _ => (old, Some UnmarshalTypeError)
  end.

Definition foldRune (r : N) : N :=
  if (r =? 0x17F)%N then b2n "S" else if (r =? 0x212A)%N then b2n "K" else r.

(** [foldName], as far as it decides the match with a field name in ASCII:
    ASCII letters go to upper case, and so do the two other runes whose
    case orbit has an ASCII letter, U+017F and U+212A; the other runes,
    which [foldName] sends to non-ASCII runes, are left as they are. *)
Fixpoint foldNameFrom (fuel : nat) (s : list ascii) : list ascii :=
  match fuel, s with
  | _, [] => []
  | 0%nat, _ :: _ => []
  | S fuel', c :: rest =>
      if (b2n c <? utf8.RuneSelf)%N then
        (if inRange c "a" "z" then n2b (b2n c - (b2n "a" - b2n "A")) else c)
          :: foldNameFrom fuel' rest
      else
        let (r, n) := utf8.DecodeRune s in
        utf8.EncodeRune (foldRune r) ++ foldNameFrom fuel' (drop n s)
  end.

Definition foldName (s : string) : list ascii :=
  foldNameFrom (String.length s) (list_ascii_of_string s).

(** The field a key selects: the one of that very name, else the first
    whose folded name is the folded key. *)
Definition findField (names : list string) (key : string) : option nat :=
  match list_find (λ name, name = key) names with
  | Some (i, _) => Some i
  | None => fst <$> list_find (λ name, foldName name = foldName key) names
  end.

Definition decodeMetadata (v : value) (old : vault.Metadata)
    : vault.Metadata * option error :=
  match v with
  | Object members =>
      foldl (λ acc member,
               let md := acc.1 in
               match findField ["provider"; "path"; "tags"] (unquoted member.1) with
               | Some 0%nat =>
                   let (s, e) := decodeString member.2 (vault.Provider md) in
                   (vault.mkMetadata s (vault.Path md) (vault.Tags md), saveError acc.2 e)
               | Some 1%nat =>
                   let (s, e) := decodeString member.2 (vault.Path md) in
                   (vault.mkMetadata (vault.Provider md) s (vault.Tags md),
                    saveError acc.2 e)
               | Some 2%nat =>
                   let (m, e) := decodeMap member.2 (vault.Tags md) in
                   (vault.mkMetadata (vault.Provider md) (vault.Path md) m,
                    saveError acc.2 e)
               | _ => acc
               end)
            (old, None) members
  | Null => (old, None)
  | _ => (old, Some UnmarshalTypeError)
  end.

Definition decodeSecret (v : value) (old : vault.Secret)
    : vault.Secret * option error :=
  match v with
  | Object members =>
      foldl (λ acc member,
               let s := acc.1 in
               match findField ["value"; "fields"; "metadata"] (unquoted member.1) with
               | Some 0%nat =>
                   let (x, e) := decodeString member.2 (vault.Value s) in
                   (vault.mkSecret x (vault.Fields s) (vault.Meta s), saveError acc.2 e)
               | Some 1%nat =>
                   let (m, e) := decodeMap member.2 (vault.Fields s) in
                   (vault.mkSecret (vault.Value s) m (vault.Meta s), saveError acc.2 e)
               | Some 2%nat =>
                   let (md, e) := decodeMetadata member.2 (vault.Meta s) in
                   (vault.mkSecret (vault.Value s) (vault.Fields s) md, saveError acc.2 e)
               | _ => acc
               end)
            (old, None) members
  | Null => (old, None)
  | _ => (old, Some UnmarshalTypeError)
  end.

(** [json.Unmarshal(data, secret)]: a text that is not valid JSON is a
    [SyntaxError] and leaves the secret alone; a valid one is decoded into
    the secret, which keeps what was stored into it also when an
    [UnmarshalTypeError] is reported at the end. *)
Definition Unmarshal_Secret (data : string) (secret : vault.Secret)
    : vault.Secret * option error :=
  match parse (list_ascii_of_string data) with
  | None => (secret, Some SyntaxError)
  | Some v => decodeSecret v secret
  end.

(** [json.Unmarshal(data, &index)] for a nil [index]. *)
Definition Unmarshal_index (data : string) : result (list string) :=
  match parse (list_ascii_of_string data) with
  | None => Err SyntaxError
  | Some Null => Ok []
  | Some (Array elements) =>
      let decoded := map (λ v, decodeString v "") elements in
      match foldl saveError None (map snd decoded) with
      | Some e => Err e
      | None => Ok (map fst decoded)
      end
  | Some _ => Err UnmarshalTypeError
  end.

End json.

(** [encoding/json] as the codec of the Provider. *)
#[export] Instance encoding_json : JSON :=
  {| json_Marshal_Secret := json.Marshal_Secret;
     json_Unmarshal_Secret := json.Unmarshal_Secret;
     json_Marshal_index := json.Marshal_index;
     json_Unmarshal_index := json.Unmarshal_index |}.

(** The callback of a Provider that records what it is told. *)
Definition recordIndexError (op : string) (err : error)
    (log : list (string * error)) : list (string * error) :=
  log ++ [(op, err)].

(** Two Providers over the service "app", one in plain and one in structured
    mode, both recording the index errors. *)
Definition plainProvider : Provider (Obs:=list (string * error)) :=
  New (mkConfig "app" false (Some recordIndexError)).

Definition structuredProvider : Provider (Obs:=list (string * error)) :=
  New (mkConfig "app" true (Some recordIndexError)).

(** The JSON text of an index that lists the reserved key. *)
Definition reservedIndexText : string :=
  string_of_list_ascii (json.print (json.Array [json.ofString indexKey])).

(** An empty native store with nothing scripted and nothing recorded. *)
Definition emptyWorld : World (Obs:=list (string * error)) :=
  mkWorld ∅ [] [] [].

(** An empty native store whose third call is going to fail. *)
Definition thirdCallFails : World (Obs:=list (string * error)) :=
  mkWorld ∅ [None; None; Some (ErrNative "locked")] [] [].

Definition plainSecret (value : string) : vault.Secret :=
  vault.mkSecret value ∅ (vault.mkMetadata "" "" ∅).

(** The world after three secrets were set in plain mode. *)
Definition threeSecrets : World (Obs:=list (string * error)) :=
  (run [OpSet "database/prod" (plainSecret "a");
        OpSet "database/staging" (plainSecret "b");
        OpSet "api/github" (plainSecret "c")]
       (plainProvider, emptyWorld)).2.2.

(** A native store whose index lists a path that has no entry. *)
Definition staleIndex : World (Obs:=list (string * error)) :=
  mkWorld {[ ("app", indexKey) :=
             string_of_list_ascii (json.print (json.Array [json.ofString "stale"])) ]}
          [] [] [].

(** An empty native store whose first call is going to fail. *)
Definition firstCallFails : World (Obs:=list (string * error)) :=
  mkWorld ∅ [Some (ErrNative "locked")] [] [].

(** A native store whose reserved entry is no JSON. *)
Definition corruptIndex : World (Obs:=list (string * error)) :=
  mkWorld {[ ("app", indexKey) := "not json" ]} [] [] [].

(** The plain Provider after [Close]. *)
Definition closedProvider : Provider (Obs:=list (string * error)) :=
  mkProvider (config plainProvider) true.

(** A secret with one field. *)
Definition loginSecret : vault.Secret :=
  vault.mkSecret "pw" {[ "user" := "admin" ]} (vault.mkMetadata "" "" {[ "env" := "prod" ]}).

(** * The vocabulary of the proofs *)

#[local] Ltac Zify.zify_post_hook ::= Z.to_euclidean_division_equations.

Ltac pow2 :=
  change (2 ^ 3)%N with 8%N in *; change (2 ^ 4)%N with 16%N in *;
  change (2 ^ 5)%N with 32%N in *; change (2 ^ 6)%N with 64%N in *;
  change (2 ^ 12)%N with 4096%N in *; change (2 ^ 18)%N with 262144%N in *.

(** Masks become remainders and shifts become products and quotients. *)
Ltac unbit :=
  change 0x07%N with (N.ones 3) in *; change 0x0F%N with (N.ones 4) in *;
  change 0x1F%N with (N.ones 5) in *; change 0x3F%N with (N.ones 6) in *;
  rewrite ?N.land_ones, ?N.shiftl_mul_pow2, ?N.shiftr_div_pow2 in *; pow2.

Definition rune2 (n0 n1 : N) : N :=
  N.lor (N.shiftl (N.land n0 utf8.mask2) 6) (N.land n1 utf8.maskx).

Definition rune3 (n0 n1 n2 : N) : N :=
  N.lor (N.lor (N.shiftl (N.land n0 utf8.mask3) 12) (N.shiftl (N.land n1 utf8.maskx) 6))
        (N.land n2 utf8.maskx).

Definition rune4 (n0 n1 n2 n3 : N) : N :=
  N.lor (N.lor (N.lor (N.shiftl (N.land n0 utf8.mask4) 18)
                      (N.shiftl (N.land n1 utf8.maskx) 12))
               (N.shiftl (N.land n2 utf8.maskx) 6))
        (N.land n3 utf8.maskx).

Definition cont (n : N) : Prop := (0x80 <= n <= 0xBF)%N.

(** The bounds on the second byte that exclude overlong forms, surrogates
    and runes above [MaxRune]. *)
Definition second3 (n0 n1 : N) : Prop :=
  cont n1 ∧ (n0 = 0xE0 → 0xA0 <= n1)%N ∧ (n0 = 0xED → n1 <= 0x9F)%N.

Definition second4 (n0 n1 : N) : Prop :=
  cont n1 ∧ (n0 = 0xF0 → 0x90 <= n1)%N ∧ (n0 = 0xF4 → n1 <= 0x8F)%N.

(** Case analysis on the next comparison of the goal. *)
Ltac ntest :=
  match goal with
  | |- context [(?a <=? ?b)%N] => destruct (N.leb_spec a b)
  | |- context [(?a <? ?b)%N] => destruct (N.ltb_spec a b)
  | |- context [(?a =? ?b)%N] => destruct (N.eqb_spec a b)
  end; cbn [andb orb negb].

Ltac utf8_consts :=
  unfold second3, second4 in *;
  unfold utf8.rune1Max, utf8.rune2Max, utf8.rune3Max, utf8.MaxRune, utf8.surrogateMin,
    utf8.surrogateMax, utf8.RuneError, utf8.RuneSelf, utf8.locb, utf8.hicb, cont in *.

(** [Encoded r bs]: the two to four bytes [bs] are the encoding of [r]. *)
Inductive Encoded : N → list ascii → Prop :=
  | Encoded2 c0 c1 :
      (0xC2 <= b2n c0 <= 0xDF)%N → cont (b2n c1) →
      Encoded (rune2 (b2n c0) (b2n c1)) [c0; c1]
  | Encoded3 c0 c1 c2 :
      (0xE0 <= b2n c0 <= 0xEF)%N → second3 (b2n c0) (b2n c1) → cont (b2n c2) →
      Encoded (rune3 (b2n c0) (b2n c1) (b2n c2)) [c0; c1; c2]
  | Encoded4 c0 c1 c2 c3 :
      (0xF0 <= b2n c0 <= 0xF4)%N → second4 (b2n c0) (b2n c1) → cont (b2n c2) →
      cont (b2n c3) →
      Encoded (rune4 (b2n c0) (b2n c1) (b2n c2) (b2n c3)) [c0; c1; c2; c3].

(** [DecodeRune] with the entry of [first] made explicit. *)
Definition decodeWith (x : N) (c0 : ascii) (s' : list ascii) : N * nat :=
  let s0 := b2n c0 in
  if (utf8.as_ <=? x)%N then (if N.odd x then utf8.RuneError else s0, 1%nat)
  else
    let sz := N.to_nat (N.land x 7) in
    let accept := utf8.acceptRanges (N.shiftr x 4) in
    if (length (c0 :: s') <? sz)%nat then (utf8.RuneError, 1%nat)
    else
      match s' with
      | [] => (utf8.RuneError, 1%nat)
      | c1 :: s'' =>
          if (b2n c1 <? accept.1)%N || (accept.2 <? b2n c1)%N then (utf8.RuneError, 1%nat)
          else if (sz <=? 2)%nat then (rune2 s0 (b2n c1), 2%nat)
          else
            match s'' with
            | [] => (utf8.RuneError, 1%nat)
            | c2 :: s''' =>
                if (b2n c2 <? utf8.locb)%N || (utf8.hicb <? b2n c2)%N
                then (utf8.RuneError, 1%nat)
                else if (sz <=? 3)%nat then (rune3 s0 (b2n c1) (b2n c2), 3%nat)
                else
                  match s''' with
                  | [] => (utf8.RuneError, 1%nat)
                  | c3 :: _ =>
                      if (b2n c3 <? utf8.locb)%N || (utf8.hicb <? b2n c3)%N
                      then (utf8.RuneError, 1%nat)
                      else (rune4 s0 (b2n c1) (b2n c2) (b2n c3), 4%nat)
                  end
            end
      end.

(** The parts of [decodeWith] that depend on the entry of [first] only. *)
Ltac eval_closed :=
  repeat match goal with
  | |- context [utf8.acceptRanges ?x] =>
      let v := eval vm_compute in (utf8.acceptRanges x) in
      change (utf8.acceptRanges x) with v
  | |- context [N.to_nat (N.land ?x 7)] =>
      let v := eval vm_compute in (N.to_nat (N.land x 7)) in
      change (N.to_nat (N.land x 7)) with v
  | |- context [(utf8.as_ <=? ?x)%N] =>
      let v := eval vm_compute in (utf8.as_ <=? x)%N in
      change (utf8.as_ <=? x)%N with v
  end.

(** One step through [decodeWith]: conclude with an invalid byte or with an
    encoding of two, three or four bytes, else look at the next test or the
    next byte. *)
Ltac decoded_as bs :=
  do 2 right; eexists _, bs, _; split_and!; [reflexivity| |reflexivity];
  constructor; utf8_consts; lia.

Ltac decode_step :=
  cbn -[N.ltb N.leb N.eqb rune2 rune3 rune4 b2n];
  first
    [ by (right; left; split; [lia|reflexivity])
    | decoded_as uconstr:([_; _])
    | decoded_as uconstr:([_; _; _])
    | decoded_as uconstr:([_; _; _; _])
    | ntest
    | match goal with
      | |- context [length ?s] => is_var s; destruct s
      | |- context [match ?s with [] => _ | _ :: _ => _ end] => is_var s; destruct s
      end ].

(** [Quoted src lit out]: for the Go string [src], [appendString] writes
    [lit] between the quotes, and [unquote] reads [lit] back as [out]. *)
Inductive Quoted : list ascii → list ascii → list ascii → Prop :=
  | Quoted_nil : Quoted [] [] []
  | Quoted_safe b src lit out :
      (b2n b < 0x80)%N → json.htmlSafeSet b = true → Quoted src lit out →
      Quoted (b :: src) (b :: lit) (b :: out)
  | Quoted_escape b src lit out :
      (b2n b < 0x80)%N → json.htmlSafeSet b = false → Quoted src lit out →
      Quoted (b :: src) (json.escapeByte b ++ lit) (b :: out)
  | Quoted_invalid b src lit out :
      (0x80 <= b2n b)%N → utf8.DecodeRune (b :: src) = (utf8.RuneError, 1%nat) →
      Quoted src lit out →
      Quoted (b :: src) ([backslash; "u"; "f"; "f"; "f"; "d"]%char ++ lit)
             (utf8.EncodeRune utf8.RuneError ++ out)
  | Quoted_separator r bs src lit out :
      Encoded r bs → r = 0x2028%N ∨ r = 0x2029%N → Quoted src lit out →
      Quoted (bs ++ src)
             ([backslash; "u"; "2"; "0"; "2"; json.hex (N.land r 0xF)]%char ++ lit)
             (bs ++ out)
  | Quoted_rune r bs src lit out :
      Encoded r bs → r ≠ 0x2028%N → r ≠ 0x2029%N → Quoted src lit out →
      Quoted (bs ++ src) (bs ++ lit) (bs ++ out).

(** An ordinary byte of a literal: no quote, no backslash, no control byte. *)
Definition plainByte (c : ascii) : Prop :=
  Ascii.eqb c quoteChar = false ∧ Ascii.eqb c backslash = false ∧
  (b2n c <? 0x20)%N = false.

(** What a Go string has become after a round through JSON: the string with
    every byte that is not part of a valid encoding replaced by U+FFFD. *)
Definition coerced (s : string) : string :=
  json.unquoted (json.quoteBody (list_ascii_of_string s)).

Definition isASCII (s : string) : Prop :=
  Forall (λ c, (b2n c < 0x80)%N) (list_ascii_of_string s).

(** A literal that the scanner reads whole, up to the quote after it. *)
Definition wellScanned (lit : list ascii) : Prop :=
  ∀ rest, json.scanString (lit ++ quoteChar :: rest) = Some (lit, rest).

(** The values the encoder produces: no number, and strings and keys that
    are read back whole. *)
Inductive Printable : json.value → Prop :=
  | Printable_null : Printable json.Null
  | Printable_bool b : Printable (json.Bool b)
  | Printable_str lit : wellScanned lit → Printable (json.Str lit)
  | Printable_array vs : Forall Printable vs → Printable (json.Array vs)
  | Printable_object ms :
      Forall (λ m, wellScanned m.1 ∧ Printable m.2) ms → Printable (json.Object ms).

Fixpoint vsize (v : json.value) : nat :=
  match v with
  | json.Array vs => S (list_sum (map (λ v, S (vsize v)) vs))
  | json.Object ms => S (list_sum (map (λ m, S (vsize m.2)) ms))
  | _ => 1
  end.

Fixpoint vheight (v : json.value) : N :=
  match v with
  | json.Array vs => 1 + foldr N.max 0%N (map vheight vs)
  | json.Object ms => 1 + foldr N.max 0%N (map (λ m, vheight m.2) ms)
  | _ => 0
  end.

(** The first byte of a printed value tells the parser what follows. *)
Definition startsValue (c : ascii) : Prop :=
  c = "n"%char ∨ c = "t"%char ∨ c = "f"%char ∨ c = quoteChar ∨ c = "["%char ∨ c = "{"%char.

(** What [parseValue] is to do with a value: read it back from its text,
    given the fuel and the nesting left for it. *)
Definition ReadsBack (v : json.value) : Prop :=
  ∀ fuel depth rest,
    (vsize v <= fuel)%nat → (depth + vheight v <= json.maxNestingDepth)%N →
    json.parseValue fuel depth (json.print v ++ rest) = json.Parsed v rest.

(** The strings of a map are valid UTF-8. *)
Definition validMap (m : gmap string string) : Prop :=
  map_Forall (λ k v, utf8.ValidString k = true ∧ utf8.ValidString v = true) m.

(** What decoding the text of [md] into [old] gives: the fields of [md] that
    are not empty replace those of [old], after their round through JSON. *)
Definition metadataInto (md old : vault.Metadata) : vault.Metadata :=
  vault.mkMetadata
    (if json.isEmptyString (vault.Provider md) then vault.Provider old
     else coerced (vault.Provider md))
    (if json.isEmptyString (vault.Path md) then vault.Path old
     else coerced (vault.Path md))
    (if json.isEmptyMap (vault.Tags md) then vault.Tags old
     else (json.decodeMap (json.ofMap (vault.Tags md)) (vault.Tags old)).1).

Definition secretInto (s old : vault.Secret) : vault.Secret :=
  vault.mkSecret
    (if json.isEmptyString (vault.Value s) then vault.Value old
     else coerced (vault.Value s))
    (if json.isEmptyMap (vault.Fields s) then vault.Fields old
     else (json.decodeMap (json.ofMap (vault.Fields s)) (vault.Fields old)).1)
    (metadataInto (vault.Meta s) (vault.Meta old)).

(** A text that structured mode does not decode: no JSON, or JSON that is
    neither an object nor null. *)
Definition fallsBack (text : string) : bool :=
  match json.parse (list_ascii_of_string text) with
  | Some (json.Object _) | Some json.Null => false
  | _ => true
  end.

(** The primary value, the field names and the field values are valid
    UTF-8. *)
Definition validSecret (s : vault.Secret) : Prop :=
  utf8.ValidString (vault.Value s) = true ∧ validMap (vault.Fields s).

(** The reserved entry of service [svc] is absent, or it is the text of an
    index without the reserved key. *)
Definition indexClean {Obs : Type} (svc : string) (w : World (Obs:=Obs)) : Prop :=
  store w !! (svc, indexKey) = None ∨
  ∃ index data, (indexKey ∉ index) ∧ json.Marshal_index index = Ok data ∧
                store w !! (svc, indexKey) = Some data.

(** The operation writes a secret at the reserved key. *)
Definition setsReserved (op : Op) : Prop :=
  match op with
  | OpSet path _ => path = indexKey
  | _ => False
  end.

(** Valid UTF-8: a sequence of ASCII bytes and of encodings of runes. *)
Inductive UTF8 : list ascii → Prop :=
  | UTF8_nil : UTF8 []
  | UTF8_ascii b s : (b2n b < 0x80)%N → UTF8 s → UTF8 (b :: s)
  | UTF8_rune r bs s : Encoded r bs → UTF8 s → UTF8 (bs ++ s).

(** The literals that the scanner accepts: ordinary bytes and the escapes
    of JSON. *)
Inductive Literal : list ascii → Prop :=
  | Literal_nil : Literal []
  | Literal_plain c lit : plainByte c → Literal lit → Literal (c :: lit)
  | Literal_escape e lit :
      Ascii.eqb e "b" || Ascii.eqb e "f" || Ascii.eqb e "n" || Ascii.eqb e "r"
        || Ascii.eqb e "t" || Ascii.eqb e backslash || Ascii.eqb e "/"
        || Ascii.eqb e quoteChar = true →
      Literal lit → Literal (backslash :: e :: lit)
  | Literal_unicode h1 h2 h3 h4 lit :
      forallb (λ h, bool_decide (is_Some (json.hexDigit h))) [h1; h2; h3; h4] = true →
      Literal lit → Literal (backslash :: "u"%char :: h1 :: h2 :: h3 :: h4 :: lit).

(** A parser is adequate at [fuel] when what it reads with that fuel is
    shorter than its input and is read the same with any fuel that is at
    least the number of bytes read. *)
Definition Adequate {A : Type} (parser : nat → N → list ascii → json.parsed A)
    (fuel : nat) : Prop :=
  ∀ depth s a r, parser fuel depth s = json.Parsed a r →
    (length r < length s)%nat ∧
    ∀ fuel', (length s - length r ≤ fuel')%nat → parser fuel' depth s = json.Parsed a r.

(** [text] is the JSON text of [v]: some fuel reads [v] from it, with
    nothing but spaces around. *)
Definition textOf (v : json.value) (text : list ascii) : Prop :=
  ∃ fuel rest, json.parseValue fuel 0 (json.skipSpace text) = json.Parsed v rest ∧
               json.skipSpace rest = [].

(** The index that the store holds: what [loadIndex] returns when the
    native read is not disturbed. *)
Definition storedIndex {Obs : Type} {codec : JSON} (p : Provider (Obs:=Obs))
    (w : World (Obs:=Obs)) : list string :=
  loadedIndex (match store w !! (ServiceName (config p), indexKey) with
               | Some text => Ok text
               | None => Err ErrNotFound
               end).

(** U+FFFD as a Go string. *)
Definition replacement : string :=
  string_of_list_ascii (utf8.EncodeRune utf8.RuneError).

(** The name of the method behind an operation, and the path or prefix it
    was called with. *)
Definition opName (op : Op) : string :=
  match op with
  | OpGet _ => "Get"
  | OpSet _ _ => "Set"
  | OpDelete _ => "Delete"
  | OpExists _ => "Exists"
  | OpList _ => "List"
  | OpClose => "Close"
  end.

Definition opPath (op : Op) : string :=
  match op with
  | OpGet path | OpSet path _ | OpDelete path | OpExists path | OpList path => path
  | OpClose => ""
  end.

(** [Set] and [Delete] are the operations that write. *)
Definition writes (op : Op) : bool :=
  match op with
  | OpSet _ _ | OpDelete _ => true
  | _ => false
  end.

(** The reserved entry of the Provider's service is absent or decodes as
    an index. *)
Definition indexReadable {Obs : Type} (p : Provider (Obs:=Obs))
    (w : World (Obs:=Obs)) : Prop :=
  ∀ text, store w !! (ServiceName (config p), indexKey) = Some text →
    ∃ index, json.Unmarshal_index text = Ok index.

(** An operation whose [Set] or [Delete] is not on the reserved key and
    whose [Set] is on a path that is valid UTF-8. *)
Definition validOp (op : Op) : Prop :=
  match op with
  | OpSet path _ => path ≠ indexKey ∧ utf8.ValidString path = true
  | OpDelete path => path ≠ indexKey
  | _ => True
  end.

(** The same for [Set] alone. *)
Definition setsValid (op : Op) : Prop :=
  match op with
  | OpSet path _ => path ≠ indexKey ∧ utf8.ValidString path = true
  | _ => True
  end.

(** The stored index lists exactly the paths of the service that have an
    entry, the reserved key apart. *)
Definition listsStored {Obs : Type} (p : Provider (Obs:=Obs))
    (w : World (Obs:=Obs)) : Prop :=
  ∀ key, key ∈ storedIndex p w ↔
         key ≠ indexKey ∧ is_Some (store w !! (ServiceName (config p), key)).

(** * Properties *)

(** ** Strings and the loops over the index *)

Lemma substring_0_app (a b : string) : substring 0 (String.length a) (a +:+ b) = a.
Proof. induction a as [|c a IH]; [by destruct b|].
  change (String c a +:+ b) with (String c (a +:+ b)). simpl. by rewrite IH.
Qed.

Lemma substring_0_split (n : nat) (s : string) :
  (n <= String.length s)%nat → ∃ rest, s = substring 0 n s +:+ rest.
Proof.
  revert s; induction n as [|n IH]; intros s Hn.
  - exists s. by destruct s.
  - destruct s as [|c s]; simpl in *; [lia|].
    destruct (IH s) as [rest Hr]; [lia|]. exists rest.
    change (String c s = String c (substring 0 n s +:+ rest)). by f_equal.
Qed.

Lemma app_length_string (a b : string) :
  String.length (a +:+ b) = (String.length a + String.length b)%nat.
Proof.
  induction a as [|c a IH]; [done|].
  change (String c a +:+ b) with (String c (a +:+ b)). simpl. by rewrite IH.
Qed.

Lemma strings_HasPrefix_spec (s prefix : string) :
  strings_HasPrefix s prefix = true ↔ ∃ rest, s = prefix +:+ rest.
Proof.
  unfold strings_HasPrefix. rewrite andb_true_iff, Nat.leb_le, String.eqb_eq. split.
  - intros [Hlen Heq]. destruct (substring_0_split _ _ Hlen) as [rest Hr].
    exists rest. by rewrite Heq in Hr.
  - intros [rest ->]. rewrite app_length_string, substring_0_app. split; [lia|done].
Qed.

Lemma strings_HasPrefix_empty (s : string) : strings_HasPrefix s "" = true.
Proof. apply strings_HasPrefix_spec. by exists s. Qed.

Lemma indexHas_spec (index : list string) (key : string) :
  indexHas index key = true ↔ key ∈ index.
Proof.
  induction index as [|k rest IH]; simpl.
  - split; [done | by intros ?%elem_of_nil].
  - rewrite elem_of_cons. destruct (String.eqb_spec k key) as [->|Hne].
    + split; auto.
    + rewrite IH. split; [by right | by intros [->|]].
Qed.

Lemma foldl_append_filter {A} (keep : A → bool) (l acc : list A) :
  foldl (λ out x, if keep x then out ++ [x] else out) acc l = acc ++ List.filter keep l.
Proof.
  revert acc; induction l as [|x l IH]; intros acc; simpl.
  - by rewrite app_nil_r.
  - rewrite IH. destruct (keep x); [by rewrite <- app_assoc | done].
Qed.

Lemma indexWithout_filter (index : list string) (key : string) :
  indexWithout index key = List.filter (λ k, negb (String.eqb k key)) index.
Proof. unfold indexWithout. by rewrite foldl_append_filter. Qed.

Lemma elem_of_indexWithout (index : list string) (key k : string) :
  k ∈ indexWithout index key ↔ k ∈ index ∧ k ≠ key.
Proof.
  rewrite indexWithout_filter, !list_elem_of_In, filter_In, negb_true_iff.
  by rewrite String.eqb_neq.
Qed.

Lemma indexWithout_stdpp_filter (index : list string) (key : string) :
  indexWithout index key = filter (λ k, k ≠ key) index.
Proof.
  rewrite indexWithout_filter. induction index as [|k rest IH]; [done|]. simpl.
  rewrite filter_cons. destruct (String.eqb_spec k key) as [->|Hne]; simpl.
  - by rewrite decide_False by auto.
  - by rewrite decide_True, IH by done.
Qed.

Lemma filter_ne_id (index : list string) (key : string) :
  key ∉ index → filter (λ k, k ≠ key) index = index.
Proof.
  induction index as [|k rest IH]; [done|].
  intros [Hne Hnin]%not_elem_of_cons.
  rewrite filter_cons_True by done. f_equal. auto.
Qed.

Section Generic.

Context {Obs : Type} {codec : JSON}.
Implicit Types (p : Provider (Obs:=Obs)) (w : World (Obs:=Obs)).

(** ** The native layer *)

Lemma zkeyring_Get_frame service key w r w1 :
  zkeyring_Get service key w = (r, w1) →
  store w1 = store w ∧ observer w1 = observer w ∧
  trace w1 = trace w ++ [CallGet service key] ∧ faults w1 = tail (faults w).
Proof.
  unfold zkeyring_Get, nextFault, logCall; simpl. intros H.
  destruct (faults w) as [|[e|] fs]; simpl in H;
    repeat case_match; simplify_eq; done.
Qed.

Lemma zkeyring_Set_frame service key value w e w1 :
  zkeyring_Set service key value w = (e, w1) →
  observer w1 = observer w ∧
  trace w1 = trace w ++ [CallSet service key value] ∧ faults w1 = tail (faults w) ∧
  store w1 = match e with None => <[(service, key) := value]> (store w) | Some _ => store w end.
Proof.
  unfold zkeyring_Set, nextFault, logCall; simpl. intros H.
  destruct (faults w) as [|[e'|] fs]; simpl in H; simplify_eq; done.
Qed.

Lemma zkeyring_Delete_frame service key w e w1 :
  zkeyring_Delete service key w = (e, w1) →
  observer w1 = observer w ∧
  trace w1 = trace w ++ [CallDelete service key] ∧ faults w1 = tail (faults w) ∧
  store w1 = match e with None => delete (service, key) (store w) | Some _ => store w end.
Proof.
  unfold zkeyring_Delete, nextFault, logCall; simpl. intros H.
  destruct (faults w) as [|[e'|] fs]; simpl in H;
    repeat case_match; simplify_eq; done.
Qed.

Lemma zkeyring_Get_undisturbed service key w :
  undisturbed 1 w = true →
  ∃ w1, zkeyring_Get service key w =
          (match store w !! (service, key) with
           | Some v => Ok v
           | None => Err ErrNotFound
           end, w1)
        ∧ faults w1 = tail (faults w).
Proof.
  unfold undisturbed, zkeyring_Get, nextFault, logCall; simpl.
  destruct (faults w) as [|[e|] fs]; simpl; [|done|];
    destruct (store w !! _); eauto.
Qed.

Lemma zkeyring_Delete_absent service key w :
  store w !! (service, key) = None → undisturbed 1 w = true →
  ∃ w1, zkeyring_Delete service key w = (Some ErrNotFound, w1).
Proof.
  unfold undisturbed, zkeyring_Delete, nextFault, logCall; simpl. intros Hs.
  destruct (faults w) as [|[e|] fs]; simpl; [|done|]; rewrite Hs; eauto.
Qed.

Lemma undisturbed_tail n w w1 :
  faults w1 = tail (faults w) → undisturbed (S n) w = true → undisturbed n w1 = true.
Proof.
  unfold undisturbed. intros ->. destruct (faults w) as [|f fs]; simpl.
  - by destruct n.
  - by intros [_ ?]%andb_true_iff.
Qed.

Lemma undisturbed_1 n w : undisturbed (S n) w = true → undisturbed 1 w = true.
Proof.
  unfold undisturbed. destruct (faults w) as [|f fs]; simpl; [done|].
  by intros [-> _]%andb_true_iff.
Qed.

(** ** The index manager *)

Lemma reportIndexError_frame p op err w :
  store (Provider_reportIndexError p op err w) = store w ∧
  trace (Provider_reportIndexError p op err w) = trace w ∧
  faults (Provider_reportIndexError p op err w) = faults w ∧
  observer (Provider_reportIndexError p op err w) = deliver p [(op, err)] (observer w).
Proof.
  unfold Provider_reportIndexError, deliver. by destruct (OnIndexError (config p)).
Qed.

Lemma deliver_app p fs gs o : deliver p (fs ++ gs) o = deliver p gs (deliver p fs o).
Proof. unfold deliver. destruct (OnIndexError (config p)); [apply foldl_app | done]. Qed.

Lemma deliver_nil p o : deliver p [] o = o.
Proof. unfold deliver. by destruct (OnIndexError (config p)). Qed.

(** [loadIndex] reads the reserved entry once, changes nothing in the store
    and notifies the callback of the failure of the read, if any. *)
Lemma loadIndex_spec p w index w1 :
  Provider_loadIndex p w = (index, w1) →
  ∃ r w0, zkeyring_Get (ServiceName (config p)) indexKey w = (r, w0) ∧
    index = loadedIndex r ∧
    store w1 = store w ∧ faults w1 = faults w0 ∧ trace w1 = trace w0 ∧
    observer w1 = deliver p (loadFailures r) (observer w).
Proof.
  unfold Provider_loadIndex. intros H.
  destruct (zkeyring_Get _ _ w) as [r w0] eqn:Hget.
  destruct (zkeyring_Get_frame _ _ _ _ _ Hget) as (Hs & Ho & _).
  exists r, w0. split; [done|]. unfold loadedIndex, loadFailures.
  destruct r as [value|err].
  - destruct (json_Unmarshal_index value) as [idx|e]; simplify_eq.
    + by rewrite deliver_nil.
    + destruct (reportIndexError_frame p "unmarshal" e w0) as (-> & -> & -> & ->).
      by rewrite Ho.
  - destruct (errors_Is is_ErrNotFound err); simpl in H; simplify_eq.
    + by rewrite deliver_nil.
    + destruct (reportIndexError_frame p "load" err w0) as (-> & -> & -> & ->).
      by rewrite Ho.
Qed.

Lemma loadIndex_trace p w index w1 :
  Provider_loadIndex p w = (index, w1) →
  store w1 = store w ∧
  trace w1 = trace w ++ [CallGet (ServiceName (config p)) indexKey] ∧
  faults w1 = tail (faults w).
Proof.
  intros (r & w0 & Hget & _ & Hs & Hf & Ht & _)%loadIndex_spec.
  destruct (zkeyring_Get_frame _ _ _ _ _ Hget) as (_ & _ & Ht0 & Hf0).
  by rewrite Hs, Ht, Hf, Ht0, Hf0.
Qed.

(** [saveIndex] notifies the callback of the failure of the encoding or of
    the write, if any. *)
Lemma saveIndex_spec p index w :
  observer (Provider_saveIndex p index w) =
    deliver p (saveFailures index
                 (λ data, (zkeyring_Set (ServiceName (config p)) indexKey data w).1))
            (observer w).
Proof.
  unfold Provider_saveIndex, saveFailures.
  destruct (json_Marshal_index index) as [data|e].
  - destruct (zkeyring_Set _ _ data w) as [[e|] w1] eqn:Hset; simpl;
      destruct (zkeyring_Set_frame _ _ _ _ _ _ Hset) as (Ho & _).
    + destruct (reportIndexError_frame p "save" e w1) as (_ & _ & _ & ->).
      by rewrite Ho.
    + by rewrite deliver_nil.
  - by destruct (reportIndexError_frame p "marshal" e w) as (_ & _ & _ & ->).
Qed.

Lemma saveIndex_trace p index data w :
  json_Marshal_index index = Ok data →
  trace (Provider_saveIndex p index w) =
    trace w ++ [CallSet (ServiceName (config p)) indexKey data].
Proof.
  unfold Provider_saveIndex. intros ->.
  destruct (zkeyring_Set _ _ data w) as [[e|] w1] eqn:Hset;
    destruct (zkeyring_Set_frame _ _ _ _ _ _ Hset) as (_ & Ht & _); [|done].
  by destruct (reportIndexError_frame p "save" e w1) as (_ & -> & _).
Qed.

Lemma addToIndex_observer p key w :
  observer (Provider_addToIndex p key w) = deliver p (addFailures p key w) (observer w).
Proof.
  unfold Provider_addToIndex, addFailures.
  destruct (Provider_loadIndex p w) as [index w1] eqn:Hload.
  destruct (loadIndex_spec _ _ _ _ Hload) as (r & w0 & -> & -> & Hs & Hf & Ht & Ho).
  rewrite deliver_app, <- Ho.
  destruct (indexHas (loadedIndex r) key) eqn:Hhas.
  - apply indexHas_spec in Hhas. by rewrite bool_decide_eq_true_2, deliver_nil.
  - rewrite bool_decide_eq_false_2
      by (intros Hin%indexHas_spec; congruence).
    rewrite saveIndex_spec. do 2 f_equal.
    unfold zkeyring_Set, nextFault, logCall; simpl. rewrite Hf.
    by destruct (faults w0) as [|[?|] ?].
Qed.

Lemma removeFromIndex_observer p key w :
  observer (Provider_removeFromIndex p key w) =
    deliver p (removeFailures p key w) (observer w).
Proof.
  unfold Provider_removeFromIndex, removeFailures.
  destruct (Provider_loadIndex p w) as [index w1] eqn:Hload.
  destruct (loadIndex_spec _ _ _ _ Hload) as (r & w0 & -> & -> & Hs & Hf & Ht & Ho).
  rewrite deliver_app, <- Ho, saveIndex_spec, indexWithout_stdpp_filter. do 2 f_equal.
  unfold zkeyring_Set, nextFault, logCall; simpl. rewrite Hf.
  by destruct (faults w0) as [|[?|] ?].
Qed.

Lemma loadFailures_tags r : Forall (λ f, f.1 ∈ indexTags) (loadFailures r).
Proof.
  unfold loadFailures, indexTags. repeat case_match; repeat constructor.
Qed.

Lemma saveFailures_tags index write :
  Forall (λ f, f.1 ∈ indexTags) (saveFailures index write).
Proof.
  unfold saveFailures, indexTags. repeat case_match; repeat constructor.
Qed.

End Generic.

(** ** Bytes and bit arithmetic *)

Lemma n2b_b2n (c : ascii) : n2b (b2n c) = c.
Proof. apply ascii_N_embedding. Qed.

Lemma b2n_n2b (n : N) : (n < 256)%N → b2n (n2b n) = n.
Proof. apply N_ascii_embedding. Qed.

Lemma b2n_lt (c : ascii) : (b2n c < 256)%N.
Proof. apply N_ascii_bounded. Qed.

Lemma b2n_inj (c d : ascii) : b2n c = b2n d → c = d.
Proof. intros H. by rewrite <- (n2b_b2n c), <- (n2b_b2n d), H. Qed.

(** Where the bits of [a] and [b] do not overlap, [a | b] is [a + b]. *)
Lemma lor_add (a b k : N) :
  (a mod 2 ^ k = 0)%N → (b < 2 ^ k)%N → N.lor a b = (a + b)%N.
Proof.
  intros Ha Hb. rewrite <- N.lxor_lor, <- N.add_nocarry_lxor; [done| |];
  (apply N.bits_inj_0; intros i; rewrite N.land_spec;
   destruct (N.lt_ge_cases i k) as [Hi|Hi];
   [ rewrite (N.div_mod a (2 ^ k)) by (apply N.pow_nonzero; lia);
     rewrite Ha, N.add_0_r, N.mul_comm, N.mul_pow2_bits_low by done; done
   | destruct (N.eq_dec b 0%N) as [->|Hb0]; [by rewrite N.bits_0, andb_false_r|];
     rewrite (N.bits_above_log2 b i), andb_false_r; [done|];
     apply N.log2_lt_pow2; [lia|];
     eapply N.lt_le_trans; [exact Hb|]; apply N.pow_le_mono_r; lia ]).
Qed.

(** ** UTF-8: a decoded rune encodes to the bytes it came from *)

Lemma rune2_bits (n0 n1 : N) :
  (0xC2 <= n0 <= 0xDF)%N → cont n1 →
  (0x80 <= rune2 n0 n1 <= 0x7FF)%N ∧
  N.lor utf8.t2 (N.shiftr (rune2 n0 n1) 6) = n0 ∧
  N.lor utf8.tx (N.land (rune2 n0 n1) utf8.maskx) = n1.
Proof.
  unfold cont, rune2, utf8.t2, utf8.tx, utf8.mask2, utf8.maskx. intros H0 H1. unbit.
  replace (n0 `mod` 32)%N with (n0 - 192)%N by lia.
  replace (n1 `mod` 64)%N with (n1 - 128)%N by lia.
  rewrite (lor_add _ (n1 - 128) 6) by (pow2; lia).
  set (r := (_ + _)%N).
  assert (r = (n0 - 192) * 64 + (n1 - 128))%N as Hr by done. clearbody r.
  assert (r / 64 = n0 - 192)%N as -> by lia.
  assert (r mod 64 = n1 - 128)%N as -> by lia.
  rewrite (lor_add 0xC0 _ 5), (lor_add 0x80 _ 6) by (pow2; lia). lia.
Qed.

Lemma rune3_bits (n0 n1 n2 : N) :
  (0xE0 <= n0 <= 0xEF)%N → second3 n0 n1 → cont n2 →
  (0x800 <= rune3 n0 n1 n2 <= 0xFFFF)%N ∧
  ¬ (0xD800 <= rune3 n0 n1 n2 <= 0xDFFF)%N ∧
  N.lor utf8.t3 (N.shiftr (rune3 n0 n1 n2) 12) = n0 ∧
  N.lor utf8.tx (N.land (N.shiftr (rune3 n0 n1 n2) 6) utf8.maskx) = n1 ∧
  N.lor utf8.tx (N.land (rune3 n0 n1 n2) utf8.maskx) = n2.
Proof.
  unfold second3, cont, rune3, utf8.t3, utf8.tx, utf8.mask3, utf8.maskx.
  intros H0 (H1 & Ha & Hb) H2. unbit.
  replace (n0 `mod` 16)%N with (n0 - 224)%N by lia.
  replace (n1 `mod` 64)%N with (n1 - 128)%N by lia.
  replace (n2 `mod` 64)%N with (n2 - 128)%N by lia.
  rewrite (lor_add (_ * 4096) _ 12) by (pow2; lia).
  rewrite (lor_add _ (n2 - 128) 6) by (pow2; lia).
  set (r := (_ + _ + _)%N).
  assert (r = (n0 - 224) * 4096 + (n1 - 128) * 64 + (n2 - 128))%N as Hr by done.
  clearbody r.
  assert (r / 4096 = n0 - 224)%N as -> by lia.
  assert ((r / 64) mod 64 = n1 - 128)%N as -> by lia.
  assert (r mod 64 = n2 - 128)%N as -> by lia.
  rewrite (lor_add 0xE0 _ 4), !(lor_add 0x80 _ 6) by (pow2; lia). lia.
Qed.

Lemma rune4_bits (n0 n1 n2 n3 : N) :
  (0xF0 <= n0 <= 0xF4)%N → second4 n0 n1 → cont n2 → cont n3 →
  (0x10000 <= rune4 n0 n1 n2 n3 <= 0x10FFFF)%N ∧
  N.lor utf8.t4 (N.shiftr (rune4 n0 n1 n2 n3) 18) = n0 ∧
  N.lor utf8.tx (N.land (N.shiftr (rune4 n0 n1 n2 n3) 12) utf8.maskx) = n1 ∧
  N.lor utf8.tx (N.land (N.shiftr (rune4 n0 n1 n2 n3) 6) utf8.maskx) = n2 ∧
  N.lor utf8.tx (N.land (rune4 n0 n1 n2 n3) utf8.maskx) = n3.
Proof.
  unfold second4, cont, rune4, utf8.t4, utf8.tx, utf8.mask4, utf8.maskx.
  intros H0 (H1 & Ha & Hb) H2 H3. unbit.
  replace (n0 `mod` 8)%N with (n0 - 240)%N by lia.
  replace (n1 `mod` 64)%N with (n1 - 128)%N by lia.
  replace (n2 `mod` 64)%N with (n2 - 128)%N by lia.
  replace (n3 `mod` 64)%N with (n3 - 128)%N by lia.
  rewrite (lor_add (_ * 262144) _ 18) by (pow2; lia).
  rewrite (lor_add _ (_ * 64) 12) by (pow2; lia).
  rewrite (lor_add _ (n3 - 128) 6) by (pow2; lia).
  set (r := (_ + _ + _ + _)%N).
  assert (r = (n0 - 240) * 262144 + (n1 - 128) * 4096 + (n2 - 128) * 64 + (n3 - 128))%N
    as Hr by done.
  clearbody r.
  assert (r / 262144 = n0 - 240)%N as -> by lia.
  assert ((r / 4096) mod 64 = n1 - 128)%N as -> by lia.
  assert ((r / 64) mod 64 = n2 - 128)%N as -> by lia.
  assert (r mod 64 = n3 - 128)%N as -> by lia.
  rewrite (lor_add 0xF0 _ 3), !(lor_add 0x80 _ 6) by (pow2; lia). lia.
Qed.

Lemma EncodeRune_rune2 (c0 c1 : ascii) :
  (0xC2 <= b2n c0 <= 0xDF)%N → cont (b2n c1) →
  utf8.EncodeRune (rune2 (b2n c0) (b2n c1)) = [c0; c1].
Proof.
  intros H0 H1. destruct (rune2_bits _ _ H0 H1) as (Hr & E0 & E1).
  unfold utf8.EncodeRune. utf8_consts.
  repeat (ntest; try (exfalso; lia)).
  all: by rewrite E0, E1, !n2b_b2n.
Qed.

Lemma EncodeRune_rune3 (c0 c1 c2 : ascii) :
  (0xE0 <= b2n c0 <= 0xEF)%N → second3 (b2n c0) (b2n c1) → cont (b2n c2) →
  utf8.EncodeRune (rune3 (b2n c0) (b2n c1) (b2n c2)) = [c0; c1; c2].
Proof.
  intros H0 H1 H2. destruct (rune3_bits _ _ _ H0 H1 H2) as (Hr & Hs & E0 & E1 & E2).
  unfold utf8.EncodeRune, utf8.encode3. utf8_consts.
  repeat (ntest; try (exfalso; lia)).
  all: by rewrite E0, E1, E2, !n2b_b2n.
Qed.

Lemma EncodeRune_rune4 (c0 c1 c2 c3 : ascii) :
  (0xF0 <= b2n c0 <= 0xF4)%N → second4 (b2n c0) (b2n c1) → cont (b2n c2) →
  cont (b2n c3) →
  utf8.EncodeRune (rune4 (b2n c0) (b2n c1) (b2n c2) (b2n c3)) = [c0; c1; c2; c3].
Proof.
  intros H0 H1 H2 H3.
  destruct (rune4_bits _ _ _ _ H0 H1 H2 H3) as (Hr & E0 & E1 & E2 & E3).
  unfold utf8.EncodeRune. utf8_consts.
  repeat (ntest; try (exfalso; lia)).
  all: by rewrite E0, E1, E2, E3, !n2b_b2n.
Qed.

(** ** UTF-8: what [DecodeRune] finds at the start of a string *)

Lemma Encoded_EncodeRune r bs : Encoded r bs → utf8.EncodeRune r = bs.
Proof.
  destruct 1; auto using EncodeRune_rune2, EncodeRune_rune3, EncodeRune_rune4.
Qed.

Lemma Encoded_bounds r bs :
  Encoded r bs →
  (0x80 <= r <= 0x10FFFF)%N ∧ (2 <= length bs <= 4)%nat ∧
  Forall (λ c, (0x80 <= b2n c)%N) bs.
Proof.
  destruct 1 as [c0 c1 H0 H1|c0 c1 c2 H0 H1 H2|c0 c1 c2 c3 H0 H1 H2 H3].
  - destruct (rune2_bits _ _ H0 H1) as (Hr & _). utf8_consts.
    split_and!; simpl; try lia. repeat (apply List.Forall_cons; [cbv beta; lia|]). apply List.Forall_nil.
  - destruct (rune3_bits _ _ _ H0 H1 H2) as (Hr & _). utf8_consts.
    split_and!; simpl; try lia. repeat (apply List.Forall_cons; [cbv beta; lia|]). apply List.Forall_nil.
  - destruct (rune4_bits _ _ _ _ H0 H1 H2 H3) as (Hr & _). utf8_consts.
    split_and!; simpl; try lia. repeat (apply List.Forall_cons; [cbv beta; lia|]). apply List.Forall_nil.
Qed.

(** The entry of [first] for each range of the first byte. *)
Lemma first_cases (n : N) :
  ((n < 0x80)%N ∧ utf8.first n = utf8.as_) ∨
  (((0x80 <= n < 0xC2)%N ∨ (0xF5 <= n)%N) ∧ utf8.first n = utf8.xx) ∨
  ((0xC2 <= n <= 0xDF)%N ∧ utf8.first n = utf8.s1) ∨
  (n = 0xE0%N ∧ utf8.first n = utf8.s2) ∨
  (((0xE1 <= n <= 0xEC)%N ∨ (0xEE <= n <= 0xEF)%N) ∧ utf8.first n = utf8.s3) ∨
  (n = 0xED%N ∧ utf8.first n = utf8.s4) ∨
  (n = 0xF0%N ∧ utf8.first n = utf8.s5) ∨
  ((0xF1 <= n <= 0xF3)%N ∧ utf8.first n = utf8.s6) ∨
  (n = 0xF4%N ∧ utf8.first n = utf8.s7).
Proof.
  unfold utf8.first. repeat ntest.
  all: repeat first [ by (split; [lia|done]) | by (left; split; [lia|done]) | right ].
Qed.

Lemma DecodeRune_decodeWith c0 s' :
  utf8.DecodeRune (c0 :: s') = decodeWith (utf8.first (b2n c0)) c0 s'.
Proof. reflexivity. Qed.

(** The three things [DecodeRune] can find at a byte: an ASCII byte, a byte
    that starts no encoding, or an encoded rune. *)
Lemma DecodeRune_cases c0 s :
  ((b2n c0 < 0x80)%N ∧ utf8.DecodeRune (c0 :: s) = (b2n c0, 1%nat)) ∨
  ((0x80 <= b2n c0)%N ∧ utf8.DecodeRune (c0 :: s) = (utf8.RuneError, 1%nat)) ∨
  (∃ r bs t, c0 :: s = bs ++ t ∧ Encoded r bs ∧
             utf8.DecodeRune (c0 :: s) = (r, length bs)).
Proof.
  rewrite DecodeRune_decodeWith.
  destruct (first_cases (b2n c0))
    as [[H ->]|[[H ->]|[[H ->]|[[H ->]|[[H ->]|[[H ->]|[[H ->]|[[H ->]|[H ->]]]]]]]]];
    unfold decodeWith;
    [ left; by split
    | right; left; split; [lia|done]
    | .. ].
  all: eval_closed; repeat decode_step.
Qed.

(** [DecodeRune] reads an encoded rune back, whatever follows it. *)
Lemma Encoded_DecodeRune r bs t :
  Encoded r bs → utf8.DecodeRune (bs ++ t) = (r, length bs).
Proof.
  destruct 1 as [c0 c1 H0 H1|c0 c1 c2 H0 H1 H2|c0 c1 c2 c3 H0 H1 H2 H3];
    cbn [app]; rewrite DecodeRune_decodeWith;
    destruct (first_cases (b2n c0))
      as [[H ->]|[[H ->]|[[H ->]|[[H ->]|[[H ->]|[[H ->]|[[H ->]|[[H ->]|[H ->]]]]]]]]];
    utf8_consts; try lia.
  all: unfold decodeWith; eval_closed.
  all: cbn -[N.ltb N.leb N.eqb rune2 rune3 rune4 b2n].
  all: repeat (ntest; try (exfalso; utf8_consts; lia)).
  all: reflexivity.
Qed.

(** An encoded rune is not the [(RuneError, 1)] of an invalid byte. *)
Lemma Encoded_not_invalid r bs :
  Encoded r bs → (r =? utf8.RuneError)%N && (length bs =? 1)%nat = false.
Proof.
  intros (_ & Hlen & _)%Encoded_bounds. apply andb_false_iff. right.
  apply Nat.eqb_neq. lia.
Qed.

(** ** JSON strings: what is written for a Go string and what is read back *)

Lemma DecodeRune_take4 (s : list ascii) :
  utf8.DecodeRune (take utf8.UTFMax s) = utf8.DecodeRune s.
Proof.
  destruct s as [|c0 [|c1 [|c2 [|c3 s]]]]; try reflexivity.
  cbn [take utf8.UTFMax]. rewrite !DecodeRune_decodeWith.
  destruct (first_cases (b2n c0))
    as [[H ->]|[[H ->]|[[H ->]|[[H ->]|[[H ->]|[[H ->]|[[H ->]|[[H ->]|[H ->]]]]]]]]];
    reflexivity.
Qed.

Lemma appendStringFrom_Quoted (fuel : nat) (src : list ascii) :
  (length src <= fuel)%nat → ∃ out, Quoted src (json.appendStringFrom fuel src) out.
Proof.
  revert src. induction fuel as [|fuel IH]; intros [|b src] Hlen; simpl in Hlen;
    try (exists []; constructor); try lia.
  cbn [json.appendStringFrom]. unfold utf8.RuneSelf.
  destruct (N.ltb_spec (b2n b) 0x80) as [Hb|Hb].
  - destruct (IH src) as [out Hq]; [lia|].
    exists (b :: out). destruct (json.htmlSafeSet b) eqn:Hsafe.
    + by apply Quoted_safe.
    + by apply Quoted_escape.
  - rewrite DecodeRune_take4.
    destruct (DecodeRune_cases b src) as [[Hlt _]|[[_ Hdec]|(r & bs & t & Hs & Henc & Hdec)]];
      [lia| |]; rewrite Hdec.
    + cbn [andb]. rewrite N.eqb_refl, Nat.eqb_refl. cbn [andb].
      destruct (IH src) as [out Hq]; [lia|].
      eexists. by apply Quoted_invalid.
    + rewrite (Encoded_not_invalid _ _ Henc).
      destruct (Encoded_bounds _ _ Henc) as (_ & Hbs & _).
      rewrite Hs, take_app_length, drop_app_length.
      destruct (IH t) as [out Hq].
      { apply (f_equal length) in Hs. rewrite length_app in Hs. simpl in Hs. lia. }
      exists (bs ++ out).
      destruct (N.eqb_spec r 0x2028) as [->|H1]; [by eapply Quoted_separator; eauto|].
      destruct (N.eqb_spec r 0x2029) as [->|H2]; [by eapply Quoted_separator; eauto|].
      by apply (Quoted_rune r).
Qed.

Lemma quoteBody_Quoted (src : list ascii) : ∃ out, Quoted src (json.quoteBody src) out.
Proof. by apply appendStringFrom_Quoted. Qed.

Lemma high_plainByte (c : ascii) : (0x80 <= b2n c)%N → plainByte c.
Proof.
  intros H. unfold plainByte. split_and!.
  - apply Ascii.eqb_neq. intros ->. vm_compute in H. by destruct H.
  - apply Ascii.eqb_neq. intros ->. vm_compute in H. by destruct H.
  - apply N.ltb_ge. lia.
Qed.

Lemma scanString_plain (bs s : list ascii) :
  Forall plainByte bs →
  json.scanString (bs ++ s) = prod_map (app bs) id <$> json.scanString s.
Proof.
  induction 1 as [|c bs (Hq & Hb & Hc) _ IH]; cbn [app json.scanString].
  - by destruct (json.scanString s) as [[]|].
  - rewrite Hq, Hb, Hc, IH. by destruct (json.scanString s) as [[]|].
Qed.

Lemma Encoded_plain r bs : Encoded r bs → Forall plainByte bs.
Proof.
  intros (_ & _ & H)%Encoded_bounds. eapply Forall_impl; [exact H|].
  apply high_plainByte.
Qed.

(** All 256 bytes, for the properties that are checked byte by byte. *)
Lemma safe_plainByte (b : ascii) : json.htmlSafeSet b = true → plainByte b.
Proof.
  unfold json.htmlSafeSet, plainByte.
  rewrite !andb_true_iff, negb_true_iff, !orb_false_iff, N.leb_le, N.ltb_lt, N.ltb_ge.
  intros [[? ?] [[[[? ?] ?] ?] ?]]. split_and!; [done|done|lia].
Qed.

(** The scanner reads an escape written by [appendString] as part of the
    literal, and [unquote] reads it as the byte it stands for. *)
Lemma scanString_escapeByte (b : ascii) (s : list ascii) :
  (b2n b < 0x80)%N → json.htmlSafeSet b = false →
  json.scanString (json.escapeByte b ++ s)
    = prod_map (app (json.escapeByte b)) id <$> json.scanString s.
Proof.
  destruct b as [[] [] [] [] [] [] [] []]; intros Hb Hs;
    try (vm_compute in Hs; discriminate); try (vm_compute in Hb; discriminate).
  all: reflexivity.
Qed.

Lemma unquoteFrom_escapeByte (b : ascii) (fuel : nat) (s : list ascii) :
  (b2n b < 0x80)%N → json.htmlSafeSet b = false →
  json.unquoteFrom (S fuel) (json.escapeByte b ++ s) = cons b <$> json.unquoteFrom fuel s.
Proof.
  destruct b as [[] [] [] [] [] [] [] []]; intros Hb Hs;
    try (vm_compute in Hs; discriminate); try (vm_compute in Hb; discriminate).
  all: reflexivity.
Qed.

Lemma scanString_Quoted src lit out rest :
  Quoted src lit out →
  json.scanString (lit ++ quoteChar :: rest) = Some (lit, rest).
Proof.
  induction 1 as [|b src lit out Hb Hs _ IH|b src lit out Hb Hs _ IH
                  |b src lit out Hb Hd _ IH|r bs src lit out He Hr _ IH
                  |r bs src lit out He H1 H2 _ IH].
  - reflexivity.
  - change ((b :: lit) ++ quoteChar :: rest) with ([b] ++ (lit ++ quoteChar :: rest)).
    rewrite (scanString_plain [b]) by (repeat constructor; by apply safe_plainByte).
    by rewrite IH.
  - rewrite <- app_assoc, scanString_escapeByte, IH by done. done.
  - cbn. by rewrite IH.
  - destruct Hr as [-> | ->]; cbn; by rewrite IH.
  - rewrite <- app_assoc, scanString_plain, IH by (by eapply Encoded_plain). done.
Qed.

Lemma unquoteFrom_Quoted src lit out fuel :
  Quoted src lit out → (length lit <= fuel)%nat → json.unquoteFrom fuel lit = Some out.
Proof.
  intros H. revert fuel.
  induction H as [|b src lit out Hb Hs _ IH|b src lit out Hb Hs _ IH
                  |b src lit out Hb Hd _ IH|r bs src lit out He Hr _ IH
                  |r bs src lit out He H1 H2 _ IH]; intros fuel Hlen.
  - by destruct fuel.
  - destruct fuel as [|fuel]; simpl in Hlen; [lia|].
    destruct (safe_plainByte _ Hs) as (Hq & Hbs & Hc).
    cbn [json.unquoteFrom]. rewrite Hbs, Hq, Hc. cbn [orb].
    rewrite (proj2 (N.ltb_lt _ _)) by exact Hb. rewrite IH by lia. done.
  - destruct fuel as [|fuel].
    { rewrite length_app in Hlen. destruct b as [[] [] [] [] [] [] [] []];
        simpl in Hlen; lia. }
    rewrite unquoteFrom_escapeByte, IH; [done| |done..].
    rewrite length_app in Hlen.
    assert (1 <= length (json.escapeByte b))%nat; [|lia].
    destruct b as [[] [] [] [] [] [] [] []]; simpl; lia.
  - destruct fuel as [|fuel]; simpl in Hlen; [lia|].
    cbn. rewrite IH by lia. done.
  - destruct fuel as [|fuel]; simpl in Hlen; [lia|].
    rewrite <- (Encoded_EncodeRune _ _ He).
    destruct Hr as [-> | ->]; cbn; rewrite IH by lia; done.
  - destruct (Encoded_bounds _ _ He) as (_ & Hbs & Hhigh).
    destruct bs as [|c bs]; [simpl in Hbs; lia|].
    destruct fuel as [|fuel]; simpl in Hlen; [lia|].
    apply Forall_cons in Hhigh as [Hc _].
    destruct (high_plainByte _ Hc) as (Hq & Hbsl & Hctl).
    change ((c :: bs) ++ lit) with (c :: (bs ++ lit)).
    cbn [json.unquoteFrom]. rewrite Hbsl, Hq, Hctl. cbn [orb].
    rewrite (proj2 (N.ltb_ge _ _)) by (unfold utf8.RuneSelf; lia).
    change (c :: bs ++ lit) with ((c :: bs) ++ lit).
    rewrite (Encoded_DecodeRune _ _ _ He), drop_app_length, (Encoded_EncodeRune _ _ He).
    rewrite IH; [done|]. rewrite length_app in Hlen. lia.
Qed.

Lemma unquote_Quoted src lit out : Quoted src lit out → json.unquote lit = Some out.
Proof. intros H. by apply (unquoteFrom_Quoted _ _ _ _ H). Qed.

Lemma DecodeRune_ascii (b : ascii) (s : list ascii) :
  (b2n b < 0x80)%N → utf8.DecodeRune (b :: s) = (b2n b, 1%nat).
Proof.
  intros Hb. rewrite DecodeRune_decodeWith.
  destruct (first_cases (b2n b))
    as [[H ->]|[[H ->]|[[H ->]|[[H ->]|[[H ->]|[[H ->]|[[H ->]|[[H ->]|[H ->]]]]]]]]];
    try lia.
  reflexivity.
Qed.

(** Valid UTF-8 is read back as it was. *)
Lemma Quoted_valid src lit out fuel :
  Quoted src lit out → (length src <= fuel)%nat → utf8.validFrom fuel src = true →
  out = src.
Proof.
  intros H. revert fuel.
  induction H as [|b src lit out Hb Hs _ IH|b src lit out Hb Hs _ IH
                  |b src lit out Hb Hd _ IH|r bs src lit out He Hr _ IH
                  |r bs src lit out He H1 H2 _ IH]; intros fuel Hlen Hv.
  - done.
  - destruct fuel as [|fuel]; simpl in Hlen; [lia|].
    cbn [utf8.validFrom] in Hv. rewrite (DecodeRune_ascii _ _ Hb) in Hv.
    destruct ((b2n b =? utf8.RuneError)%N && (1 =? 1)%nat); [done|].
    f_equal. apply (IH fuel); [lia|done].
  - destruct fuel as [|fuel]; simpl in Hlen; [lia|].
    cbn [utf8.validFrom] in Hv. rewrite (DecodeRune_ascii _ _ Hb) in Hv.
    destruct ((b2n b =? utf8.RuneError)%N && (1 =? 1)%nat); [done|].
    f_equal. apply (IH fuel); [lia|done].
  - destruct fuel as [|fuel]; simpl in Hlen; [lia|].
    cbn [utf8.validFrom] in Hv. rewrite Hd in Hv. done.
  - destruct (Encoded_bounds _ _ He) as (_ & Hbs & _).
    rewrite length_app in Hlen.
    destruct fuel as [|fuel]; [lia|]. destruct bs as [|c bs]; [simpl in Hbs; lia|].
    change ((c :: bs) ++ src) with (c :: (bs ++ src)) in Hv.
    cbn [utf8.validFrom] in Hv. change (c :: (bs ++ src)) with ((c :: bs) ++ src) in Hv.
    rewrite (Encoded_DecodeRune _ _ _ He), (Encoded_not_invalid _ _ He),
      drop_app_length in Hv.
    f_equal. apply (IH fuel); [lia|done].
  - destruct (Encoded_bounds _ _ He) as (_ & Hbs & _).
    rewrite length_app in Hlen.
    destruct fuel as [|fuel]; [lia|]. destruct bs as [|c bs]; [simpl in Hbs; lia|].
    change ((c :: bs) ++ src) with (c :: (bs ++ src)) in Hv.
    cbn [utf8.validFrom] in Hv. change (c :: (bs ++ src)) with ((c :: bs) ++ src) in Hv.
    rewrite (Encoded_DecodeRune _ _ _ He), (Encoded_not_invalid _ _ He),
      drop_app_length in Hv.
    f_equal. apply (IH fuel); [lia|done].
Qed.

(** What is read back as pure ASCII was written from that very string. *)
Lemma Quoted_ascii src lit out :
  Quoted src lit out → Forall (λ c, (b2n c < 0x80)%N) out → src = out.
Proof.
  induction 1 as [|b src lit out Hb Hs _ IH|b src lit out Hb Hs _ IH
                  |b src lit out Hb Hd _ IH|r bs src lit out He Hr _ IH
                  |r bs src lit out He H1 H2 _ IH]; intros Hout.
  - done.
  - apply Forall_cons in Hout as [_ Hout]. f_equal. auto.
  - apply Forall_cons in Hout as [_ Hout]. f_equal. auto.
  - apply Forall_app in Hout as [Hout _]. vm_compute in Hout.
    apply Forall_cons in Hout as [Hout _]. discriminate.
  - destruct (Encoded_bounds _ _ He) as (_ & Hbs & Hhigh).
    destruct bs as [|c bs]; [simpl in Hbs; lia|].
    apply Forall_cons in Hhigh as [Hc _].
    apply Forall_app in Hout as [Hout _]. apply Forall_cons in Hout as [Hout _]. lia.
  - destruct (Encoded_bounds _ _ He) as (_ & Hbs & Hhigh).
    destruct bs as [|c bs]; [simpl in Hbs; lia|].
    apply Forall_cons in Hhigh as [Hc _].
    apply Forall_app in Hout as [Hout _]. apply Forall_cons in Hout as [Hout _]. lia.
Qed.

(** *** Go strings through [appendString] and back *)

Lemma coerced_Quoted (s : string) :
  Quoted (list_ascii_of_string s) (json.quoteBody (list_ascii_of_string s))
         (list_ascii_of_string (coerced s)).
Proof.
  destruct (quoteBody_Quoted (list_ascii_of_string s)) as [out Hq].
  unfold coerced, json.unquoted. rewrite (unquote_Quoted _ _ _ Hq). simpl.
  by rewrite list_ascii_of_string_of_list_ascii.
Qed.

Lemma coerced_valid (s : string) : utf8.ValidString s = true → coerced s = s.
Proof.
  intros Hv. pose proof (coerced_Quoted s) as Hq.
  apply (Quoted_valid _ _ _ _ Hq (le_n _)) in Hv.
  apply (f_equal string_of_list_ascii) in Hv.
  by rewrite !string_of_list_ascii_of_string in Hv.
Qed.

Lemma coerced_ascii (s : string) : isASCII (coerced s) → s = coerced s.
Proof.
  intros Ha. pose proof (coerced_Quoted s) as Hq.
  apply (Quoted_ascii _ _ _ Hq) in Ha.
  apply (f_equal string_of_list_ascii) in Ha.
  by rewrite !string_of_list_ascii_of_string in Ha.
Qed.

(** ** The parser reads back what the encoder prints *)

Lemma value_ind' (P : json.value → Prop) :
  P json.Null → (∀ b, P (json.Bool b)) → (∀ l, P (json.Number l)) →
  (∀ l, P (json.Str l)) →
  (∀ vs, Forall P vs → P (json.Array vs)) →
  (∀ ms, Forall (λ m, P m.2) ms → P (json.Object ms)) →
  ∀ v, P v.
Proof.
  intros Hn Hb Hnum Hs Ha Ho. fix IH 1.
  intros [|b|l|l|vs|ms]; [apply Hn|apply Hb|apply Hnum|apply Hs| |].
  - apply Ha. induction vs as [|v vs IHvs]; constructor; [apply IH|apply IHvs].
  - apply Ho. induction ms as [|[k v] ms IHms]; constructor; [apply IH|apply IHms].
Qed.

Lemma print_head (v : json.value) :
  Printable v → ∃ c t, json.print v = c :: t ∧ startsValue c.
Proof.
  unfold startsValue. destruct 1 as [|b| | |]; [|destruct b|..]; simpl; eauto 10.
Qed.

Lemma skipSpace_print (v : json.value) (rest : list ascii) :
  Printable v → json.skipSpace (json.print v ++ rest) = json.print v ++ rest.
Proof.
  intros (c & t & -> & Hc)%print_head.
  destruct Hc as [-> | [-> | [-> | [-> | [-> | ->]]]]]; reflexivity.
Qed.

Lemma parseElements_print (vs : list json.value) :
  vs ≠ [] → Forall Printable vs → Forall ReadsBack vs →
  ∀ fuel depth rest,
    (list_sum (map (λ v, S (vsize v)) vs) <= fuel)%nat →
    (depth + foldr N.max 0%N (map vheight vs) <= json.maxNestingDepth)%N →
    json.parseElements fuel depth (json.joinComma (map json.print vs) ++ "]"%char :: rest)
      = json.Parsed vs rest.
Proof.
  induction vs as [|v vs IH]; [done|]. intros _ Hp Hr fuel depth rest Hfuel Hdepth.
  apply Forall_cons in Hp as [Hpv Hp]. apply Forall_cons in Hr as [Hrv Hr].
  cbn [map foldr] in Hfuel, Hdepth.
  change (list_sum (?a :: ?l)) with (a + list_sum l)%nat in Hfuel.
  destruct fuel as [|fuel]; [lia|]. cbn [json.parseElements].
  destruct vs as [|v' vs].
  - cbn [map json.joinComma]. rewrite Hrv by (simpl in *; lia). reflexivity.
  - change (json.joinComma (map json.print (v :: v' :: vs)))
      with (json.print v ++ ","%char :: json.joinComma (map json.print (v' :: vs))).
    rewrite <- app_assoc. rewrite Hrv by lia.
    cbn [json.skipSpace app]. change (json.isSpace ",") with false. cbv iota.
    change (Ascii.eqb "," ",") with true. cbv iota.
    assert (Hskip : ∀ t, json.skipSpace (json.joinComma (map json.print (v' :: vs)) ++ t)
                    = json.joinComma (map json.print (v' :: vs)) ++ t).
    { intros t. apply Forall_cons in Hp as [Hpv' _].
      destruct vs; cbn [map json.joinComma];
        [|rewrite <- app_assoc]; by apply skipSpace_print. }
    rewrite Hskip, IH; [done|done|done|done|lia|lia].
Qed.

Lemma parseMembers_print (ms : list (list ascii * json.value)) :
  ms ≠ [] → Forall (λ m, wellScanned m.1 ∧ Printable m.2) ms →
  Forall (λ m, ReadsBack m.2) ms →
  ∀ fuel depth rest,
    (list_sum (map (λ m, S (vsize m.2)) ms) <= fuel)%nat →
    (depth + foldr N.max 0%N (map (λ m, vheight m.2) ms) <= json.maxNestingDepth)%N →
    json.parseMembers fuel depth
      (json.joinComma (map (λ m, quoteChar :: m.1 ++ quoteChar :: ":"%char :: json.print m.2)
                           ms) ++ "}"%char :: rest)
      = json.Parsed ms rest.
Proof.
  induction ms as [|[k v] ms IH]; [done|]. intros _ Hp Hr fuel depth rest Hfuel Hdepth.
  apply Forall_cons in Hp as [[Hk Hpv] Hp]. apply Forall_cons in Hr as [Hrv Hr].
  cbn [map foldr fst snd] in Hfuel, Hdepth, Hk, Hpv, Hrv.
  change (list_sum (?a :: ?l)) with (a + list_sum l)%nat in Hfuel.
  destruct fuel as [|fuel]; [lia|].
  destruct ms as [|m' ms].
  - cbn [map json.joinComma fst snd app json.parseMembers].
    change (Ascii.eqb quoteChar quoteChar) with true. cbn [negb].
    rewrite <- !app_assoc. cbn [app]. rewrite Hk.
    cbn [json.skipSpace]. change (json.isSpace ":") with false. cbv iota.
    change (Ascii.eqb ":" ":") with true. cbn [negb].
    rewrite skipSpace_print, Hrv by (done || simpl in *; lia). reflexivity.
  - change (json.joinComma (map ?f ((k, v) :: m' :: ms)))
      with (f (k, v) ++ ","%char :: json.joinComma (map f (m' :: ms))).
    cbn [fst snd app json.parseMembers].
    change (Ascii.eqb quoteChar quoteChar) with true. cbn [negb].
    rewrite <- !app_assoc. cbn [app]. rewrite Hk.
    cbn [json.skipSpace]. change (json.isSpace ":") with false. cbv iota.
    change (Ascii.eqb ":" ":") with true. cbn [negb].
    rewrite skipSpace_print, Hrv by (done || lia).
    cbn [json.skipSpace app]. change (json.isSpace ",") with false. cbv iota.
    change (Ascii.eqb "," ",") with true. cbv iota.
    assert (Hskip : ∀ l t, json.skipSpace (json.joinComma
                       (map (λ m, quoteChar :: m.1 ++ quoteChar :: ":"%char :: json.print m.2)
                            (m' :: l)) ++ t)
                    = json.joinComma
                       (map (λ m, quoteChar :: m.1 ++ quoteChar :: ":"%char :: json.print m.2)
                            (m' :: l)) ++ t).
    { intros l t. destruct l; reflexivity. }
    rewrite Hskip, IH; [done|done|done|done|lia|lia].
Qed.

Lemma parseValue_print (v : json.value) : Printable v → ReadsBack v.
Proof.
  induction v as [|b|l|l|vs IH|ms IH] using value_ind'; intros Hp;
    inversion Hp as [| |? Hl|? Hvs|? Hms]; subst;
    intros fuel depth rest Hfuel Hdepth; (destruct fuel as [|fuel]; [simpl in Hfuel; lia|]).
  - reflexivity.
  - by destruct b.
  - cbn [json.print app json.parseValue].
    change (Ascii.eqb quoteChar "{") with false. change (Ascii.eqb quoteChar "[") with false.
    change (Ascii.eqb quoteChar quoteChar) with true. cbv iota.
    rewrite <- app_assoc. cbn [app]. by rewrite Hl.
  - cbn [vsize vheight] in Hfuel, Hdepth.
    assert (Hr : Forall ReadsBack vs).
    { rewrite Forall_forall in *. auto. }
    cbn [json.print app json.parseValue].
    change (Ascii.eqb "[" "{") with false. change (Ascii.eqb "[" "[") with true. cbv iota.
    rewrite (proj2 (N.leb_gt _ _)) by lia.
    destruct vs as [|v vs]; [reflexivity|].
    destruct (print_head v) as (c & t & Hc & Hstart); [by inversion Hvs|].
    rewrite <- app_assoc. cbn [app].
    pose proof (parseElements_print (v :: vs) ltac:(done) Hvs Hr fuel (depth + 1) rest) as Hpe.
    assert (Hskip : ∀ t', json.skipSpace (json.joinComma (map json.print (v :: vs)) ++ t')
                    = json.joinComma (map json.print (v :: vs)) ++ t').
    { intros t'. apply Forall_cons in Hvs as [Hpv _].
      destruct vs; cbn [map json.joinComma];
        [|rewrite <- app_assoc]; by apply skipSpace_print. }
    rewrite Hskip.
    assert (Hhead : ∃ c' t', json.joinComma (map json.print (v :: vs)) ++ "]"%char :: rest
                             = c' :: t' ∧ Ascii.eqb c' "]" = false).
    { destruct vs; cbn [map json.joinComma]; rewrite Hc;
        [|rewrite <- app_assoc]; eexists _, _; (split; [reflexivity|]);
        unfold startsValue in Hstart;
        destruct Hstart as [-> | [-> | [-> | [-> | [-> | ->]]]]]; reflexivity. }
    destruct Hhead as (c' & t' & Heq & Hne). rewrite Heq, Hne, <- Heq, Hpe; [done|lia|lia].
  - cbn [vsize vheight] in Hfuel, Hdepth.
    assert (Hr : Forall (λ m, ReadsBack m.2) ms).
    { rewrite Forall_forall in *. intros m Hm. apply IH; [done|]. by apply Hms. }
    cbn [json.print app json.parseValue].
    change (Ascii.eqb "{" "{") with true. cbv iota.
    rewrite (proj2 (N.leb_gt _ _)) by lia.
    destruct ms as [|m ms]; [reflexivity|].
    rewrite <- app_assoc. cbn [app].
    pose proof (parseMembers_print (m :: ms) ltac:(done) Hms Hr fuel (depth + 1) rest) as Hpm.
    destruct ms; cbn [map json.joinComma app json.skipSpace] in *;
      change (json.isSpace quoteChar) with false; cbv iota;
      change (Ascii.eqb quoteChar "}") with false; cbv iota;
      rewrite Hpm; done || lia.
Qed.

Lemma joinComma_size (vs : list json.value) :
  Forall (λ v, (vsize v <= length (json.print v))%nat) vs →
  (list_sum (map (λ v, S (vsize v)) vs)
   <= S (length (json.joinComma (map json.print vs))))%nat.
Proof.
  induction 1 as [|v vs Hv _ IH]; [simpl; lia|].
  cbn [map]. change (list_sum (?a :: ?l)) with (a + list_sum l)%nat.
  destruct vs as [|v' vs]; [simpl; lia|].
  change (json.joinComma (json.print v :: map json.print (v' :: vs)))
    with (json.print v ++ ","%char :: json.joinComma (map json.print (v' :: vs))).
  rewrite length_app. simpl length. simpl length in IH. lia.
Qed.

Lemma joinComma_members_size (ms : list (list ascii * json.value)) :
  Forall (λ m, (vsize m.2 <= length (json.print m.2))%nat) ms →
  (list_sum (map (λ m, S (vsize m.2)) ms)
   <= S (length (json.joinComma
                   (map (λ m, quoteChar :: m.1 ++ quoteChar :: ":"%char :: json.print m.2)
                        ms))))%nat.
Proof.
  induction 1 as [|m ms Hm _ IH]; [simpl; lia|].
  cbn [map]. change (list_sum (?a :: ?l)) with (a + list_sum l)%nat.
  destruct ms as [|m' ms].
  - cbn [map json.joinComma list_sum]. simpl length. rewrite length_app. simpl. lia.
  - change (json.joinComma (?p :: map ?f (m' :: ms)))
      with (p ++ ","%char :: json.joinComma (map f (m' :: ms))).
    rewrite length_app. simpl length. rewrite length_app. simpl length.
    simpl length in IH. lia.
Qed.

Lemma vsize_print (v : json.value) :
  Printable v → (vsize v <= length (json.print v))%nat.
Proof.
  induction v as [|b|l|l|vs IH|ms IH] using value_ind'; intros Hp;
    inversion Hp as [| |? Hl|? Hvs|? Hms]; subst.
  - simpl. lia.
  - destruct b; simpl; lia.
  - simpl. rewrite length_app. simpl. lia.
  - assert (Hs : Forall (λ v, (vsize v <= length (json.print v))%nat) vs).
    { rewrite Forall_forall in *. auto. }
    pose proof (joinComma_size vs Hs). cbn [vsize json.print].
    simpl length. rewrite length_app. simpl. lia.
  - assert (Hs : Forall (λ m, (vsize m.2 <= length (json.print m.2))%nat) ms).
    { rewrite Forall_forall in *. intros m Hm. apply IH; [done|]. by apply Hms. }
    pose proof (joinComma_members_size ms Hs). cbn [vsize json.print].
    simpl length. rewrite length_app. simpl. lia.
Qed.

(** [parse] reads a printed value back. *)
Lemma parse_print (v : json.value) :
  Printable v → (vheight v <= json.maxNestingDepth)%N →
  json.parse (json.print v) = Some v.
Proof.
  intros Hp Hh. unfold json.parse.
  pose proof (skipSpace_print v [] Hp) as Hs. rewrite app_nil_r in Hs. rewrite Hs.
  pose proof (vsize_print v Hp) as Hsize.
  pose proof (parseValue_print v Hp (S (length (json.print v))) 0%N []) as Hr.
  rewrite app_nil_r in Hr. rewrite Hr; [done|lia|lia].
Qed.

(** *** Strings, maps and the index through the codec *)

Lemma wellScanned_quoteBody (src : list ascii) : wellScanned (json.quoteBody src).
Proof.
  intros rest. destruct (quoteBody_Quoted src) as [out Hq].
  by apply (scanString_Quoted _ _ _ _ Hq).
Qed.

Lemma Printable_ofString (s : string) : Printable (json.ofString s).
Proof. constructor. apply wellScanned_quoteBody. Qed.

Lemma Printable_ofMap (m : gmap string string) : Printable (json.ofMap m).
Proof.
  constructor. apply Forall_forall. intros kv (x & -> & _)%list_elem_of_fmap.
  split; [apply wellScanned_quoteBody|apply Printable_ofString].
Qed.

Lemma vheight_ofMap (m : gmap string string) : (vheight (json.ofMap m) <= 1)%N.
Proof.
  unfold json.ofMap. cbn [vheight]. rewrite map_map. cbn [snd vheight json.ofString].
  induction (json.sortedEntries m) as [|kv l IH]; simpl in *; lia.
Qed.

Lemma Unmarshal_Marshal_index (index : list string) :
  ∃ data, json.Marshal_index index = Ok data ∧
          json.Unmarshal_index data = Ok (map coerced index).
Proof.
  eexists. split; [reflexivity|]. unfold json.Unmarshal_index.
  rewrite list_ascii_of_string_of_list_ascii, parse_print.
  - rewrite !map_map. cbn [json.decodeString json.ofString fst snd].
    replace (foldl json.saveError None (map (λ _ : string, None) index))
      with (@None error) by (induction index; [done|by simpl]).
    done.
  - constructor. apply Forall_forall. intros v (s & -> & _)%list_elem_of_fmap.
    apply Printable_ofString.
  - cbn [vheight]. rewrite map_map. cbn [vheight json.ofString].
    unfold json.maxNestingDepth. induction index; simpl in *; lia.
Qed.

(** *** A secret through the codec *)

Lemma decodeMap_members (entries : list (string * string)) (old : gmap string string)
    (err : option error) :
  foldl (λ acc member,
           let (elem, e) := json.decodeString member.2 "" in
           (<[json.unquoted member.1 := elem]> acc.1, json.saveError acc.2 e))
        (old, err)
        (map (λ kv, (json.quoteBody (list_ascii_of_string kv.1), json.ofString kv.2)) entries)
  = (foldl (λ acc kv, <[coerced kv.1 := coerced kv.2]> acc) old entries, err).
Proof.
  revert old err. induction entries as [|[k v] entries IH]; intros old err; [done|].
  cbn [map foldl fst snd json.decodeString json.ofString]. rewrite IH.
  by destruct err.
Qed.

Lemma decodeMap_ofMap (m old : gmap string string) :
  json.decodeMap (json.ofMap m) old
  = (foldl (λ acc kv, <[coerced kv.1 := coerced kv.2]> acc) old (json.sortedEntries m), None).
Proof. unfold json.decodeMap, json.ofMap. apply decodeMap_members. Qed.

Lemma foldl_insert_entries (l : list (string * string)) (m : gmap string string) :
  foldl (λ acc kv, <[kv.1 := kv.2]> acc) m l = list_to_map (reverse l) ∪ m.
Proof.
  revert m. induction l as [|[k v] l IH]; intros m; simpl.
  - by rewrite (left_id_L ∅ (∪)).
  - rewrite IH, reverse_cons, list_to_map_app. simpl.
    by rewrite insert_empty, <- (assoc_L (∪)), <- insert_union_singleton_l.
Qed.

Lemma sortedEntries_map (m : gmap string string) :
  foldl (λ acc kv, <[kv.1 := kv.2]> acc) ∅ (json.sortedEntries m) = m.
Proof.
  rewrite foldl_insert_entries, (right_id_L ∅ (∪)).
  rewrite <- (list_to_map_to_list m) at 2.
  apply list_to_map_proper.
  - rewrite fmap_reverse, reverse_Permutation.
    unfold json.sortedEntries. rewrite merge_sort_Permutation.
    apply NoDup_fst_map_to_list.
  - rewrite reverse_Permutation. apply merge_sort_Permutation.
Qed.

Lemma decodeMap_valid (m : gmap string string) :
  validMap m → json.decodeMap (json.ofMap m) ∅ = (m, None).
Proof.
  intros Hv. rewrite decodeMap_ofMap. f_equal.
  rewrite <- (sortedEntries_map m) at 2.
  assert (Hall : Forall (λ kv, utf8.ValidString kv.1 = true ∧ utf8.ValidString kv.2 = true)
                        (json.sortedEntries m)).
  { apply Forall_forall. intros [k v] Hin. apply (Hv k v).
    apply elem_of_map_to_list.
    unfold json.sortedEntries in Hin. by rewrite merge_sort_Permutation in Hin. }
  generalize (∅ : gmap string string).
  induction Hall as [|[k v] l [Hk Hx] _ IH]; intros acc; [done|].
  cbn [foldl fst snd] in *. by rewrite (coerced_valid k), (coerced_valid v), IH.
Qed.

Lemma field_provider :
  json.findField ["provider"; "path"; "tags"]
    (json.unquoted (list_ascii_of_string "provider")) = Some 0%nat.
Proof. by vm_compute. Qed.

Lemma field_path :
  json.findField ["provider"; "path"; "tags"]
    (json.unquoted (list_ascii_of_string "path")) = Some 1%nat.
Proof. by vm_compute. Qed.

Lemma field_tags :
  json.findField ["provider"; "path"; "tags"]
    (json.unquoted (list_ascii_of_string "tags")) = Some 2%nat.
Proof. by vm_compute. Qed.

Lemma field_value :
  json.findField ["value"; "fields"; "metadata"]
    (json.unquoted (list_ascii_of_string "value")) = Some 0%nat.
Proof. by vm_compute. Qed.

Lemma field_fields :
  json.findField ["value"; "fields"; "metadata"]
    (json.unquoted (list_ascii_of_string "fields")) = Some 1%nat.
Proof. by vm_compute. Qed.

Lemma field_metadata :
  json.findField ["value"; "fields"; "metadata"]
    (json.unquoted (list_ascii_of_string "metadata")) = Some 2%nat.
Proof. by vm_compute. Qed.

Lemma decodeMetadata_ofMetadata (md old : vault.Metadata) :
  json.decodeMetadata (json.ofMetadata md) old = (metadataInto md old, None).
Proof.
  unfold json.decodeMetadata, json.ofMetadata, json.omitempty, metadataInto.
  destruct md as [p q t], old as [p0 q0 t0]. cbn [vault.Provider vault.Path vault.Tags].
  destruct (json.isEmptyString p), (json.isEmptyString q), (json.isEmptyMap t);
    cbn [app foldl fst snd];
    rewrite ?field_provider, ?field_path, ?field_tags;
    cbn [json.decodeString json.ofString vault.Provider vault.Path vault.Tags fst snd
         json.saveError];
    rewrite ?decodeMap_ofMap; reflexivity.
Qed.

Lemma decodeSecret_ofSecret (s old : vault.Secret) :
  json.decodeSecret (json.ofSecret s) old = (secretInto s old, None).
Proof.
  unfold json.decodeSecret, json.ofSecret, json.omitempty, secretInto.
  destruct s as [x f md], old as [x0 f0 md0]. cbn [vault.Value vault.Fields vault.Meta].
  destruct (json.isEmptyString x), (json.isEmptyMap f);
    cbn [app foldl fst snd];
    rewrite ?field_value, ?field_fields, ?field_metadata;
    cbn [json.decodeString json.ofString vault.Value vault.Fields vault.Meta fst snd
         json.saveError];
    rewrite ?decodeMap_ofMap;
    cbn [vault.Value vault.Fields vault.Meta fst snd json.saveError];
    rewrite ?field_value, ?field_fields, ?field_metadata;
    rewrite ?decodeMetadata_ofMetadata; try reflexivity.
Qed.

Lemma Printable_ofMetadata (md : vault.Metadata) :
  Printable (json.ofMetadata md) ∧ (vheight (json.ofMetadata md) <= 2)%N.
Proof.
  unfold json.ofMetadata, json.omitempty. pose proof (vheight_ofMap (vault.Tags md)).
  destruct (json.isEmptyString _), (json.isEmptyString _), (json.isEmptyMap _);
    (split; [constructor; repeat (apply List.Forall_cons; [split|]);
             try apply List.Forall_nil; try apply Printable_ofString;
             try apply Printable_ofMap; by intros rest
            |cbn -[json.ofMap] in *; lia]).
Qed.

Lemma Printable_ofSecret (s : vault.Secret) :
  Printable (json.ofSecret s) ∧ (vheight (json.ofSecret s) <= json.maxNestingDepth)%N.
Proof.
  unfold json.ofSecret, json.omitempty, json.maxNestingDepth.
  pose proof (vheight_ofMap (vault.Fields s)).
  destruct (Printable_ofMetadata (vault.Meta s)) as [Hp Hh].
  destruct (json.isEmptyString _), (json.isEmptyMap _);
    (split; [constructor; repeat (apply List.Forall_cons; [split|]);
             try apply List.Forall_nil; try apply Printable_ofString;
             try apply Printable_ofMap; try done; by intros rest
            |cbn -[json.ofMap json.ofMetadata] in *; lia]).
Qed.

(** [Unmarshal] of the text [Marshal] wrote for [s], into [old]. *)
Lemma Unmarshal_Marshal_Secret (s old : vault.Secret) :
  ∃ data, json.Marshal_Secret s = Ok data ∧
          json.Unmarshal_Secret data old = (secretInto s old, None).
Proof.
  eexists. split; [reflexivity|]. unfold json.Unmarshal_Secret.
  destruct (Printable_ofSecret s) as [Hp Hh].
  by rewrite list_ascii_of_string_of_list_ascii, parse_print, decodeSecret_ofSecret.
Qed.

(** ** The fuel of the parser *)

Lemma skipSpace_length (s : list ascii) : (length (json.skipSpace s) ≤ length s)%nat.
Proof.
  induction s as [|c s IH]; [done|]. cbn [json.skipSpace].
  destruct (json.isSpace c); cbn [length] in *; lia.
Qed.

Lemma scanString_shorter (n : nat) (s lit r : list ascii) :
  (length s ≤ n)%nat → json.scanString s = Some (lit, r) → (length r < length s)%nat.
Proof.
  revert s lit r. induction n as [|n IH]; intros s lit r Hn H.
  { destruct s; [done|cbn [length] in Hn; lia]. }
  destruct s as [|c rest]; [done|]. cbn [json.scanString] in H.
  repeat case_match; simplify_eq; cbn [length] in *; try lia;
    match goal with
    | H : _ <$> json.scanString ?t = Some _ |- _ =>
        destruct (json.scanString t) as [[lit' r']|] eqn:Hs; [|done];
        apply IH in Hs; [|cbn [length]; lia]; cbn in H; simplify_eq;
        cbn [length] in *; lia
    end.
Qed.

Lemma scanString_length (s lit r : list ascii) :
  json.scanString s = Some (lit, r) → (length r < length s)%nat.
Proof. by apply (scanString_shorter (length s)). Qed.

Lemma spanDigits_length (s ds r : list ascii) :
  json.spanDigits s = (ds, r) → (length r ≤ length s)%nat.
Proof.
  revert ds r. induction s as [|c s IH]; intros ds r H; cbn [json.spanDigits] in H.
  { by simplify_eq. }
  destruct (json.isDigit c).
  - destruct (json.spanDigits s) as [ds' r'] eqn:Hs. cbn in H. simplify_eq.
    specialize (IH _ _ eq_refl). cbn [length]. lia.
  - simplify_eq. done.
Qed.

Lemma scanNumber_length (s lit r : list ascii) :
  json.scanNumber s = Some (lit, r) → (length r < length s)%nat.
Proof.
  unfold json.scanNumber. intros H.
  repeat first
    [ progress simplify_eq
    | match goal with
      | H : _ ≫= _ = Some _ |- _ => apply bind_Some in H as (? & ? & H)
      | H : json.spanDigits _ = _ |- _ => apply spanDigits_length in H
      | H : prod_map _ _ (json.spanDigits ?t) = _ |- _ =>
          destruct (json.spanDigits t) eqn:?; cbn [prod_map fst snd] in H
      end
    | case_match ].
  all: cbn [length id] in *; subst; cbn [length] in *; lia.
Qed.

Lemma scanWord_length (word : string) (c : ascii) (s r : list ascii) :
  json.scanWord word (c :: s) = Some r → word ≠ "" → (length r < length (c :: s))%nat.
Proof.
  unfold json.scanWord. case_bool_decide; [|done]. intros [= <-] Hw.
  destruct word as [|w word]; [done|]. cbn [list_ascii_of_string length drop].
  rewrite length_drop. lia.
Qed.

(** The facts on lengths that the equations of the context give. *)
Ltac lengths :=
  repeat match goal with
    | H : json.skipSpace ?t = ?u |- _ =>
        lazymatch goal with
        | _ : (length u ≤ length t)%nat |- _ => fail
        | _ => assert (length u ≤ length t)%nat by (rewrite <- H; apply skipSpace_length)
        end
    | H : context [json.skipSpace ?t] |- _ =>
        lazymatch goal with
        | _ : (length (json.skipSpace t) ≤ length t)%nat |- _ => fail
        | _ => pose proof (skipSpace_length t)
        end
    | H : json.scanString ?t = Some (_, ?u) |- _ =>
        lazymatch goal with
        | _ : (length u < length t)%nat |- _ => fail
        | _ => pose proof (scanString_length _ _ _ H)
        end
    | H : json.scanNumber ?t = Some (_, ?u) |- _ =>
        lazymatch goal with
        | _ : (length u < length t)%nat |- _ => fail
        | _ => pose proof (scanNumber_length _ _ _ H)
        end
    | H : json.scanWord _ (?c :: ?t) = Some ?u |- _ =>
        lazymatch goal with
        | _ : (length u < length (c :: t))%nat |- _ => fail
        | _ => pose proof (scanWord_length _ _ _ _ H ltac:(done))
        end
    end.

(** Replay the tests of the context in the goal. *)
Ltac replay :=
  repeat match goal with
    | H : ?x = _ |- context [?x] => rewrite H
    end.

Lemma parse_adequate (fuel : nat) :
  Adequate json.parseValue fuel ∧ Adequate json.parseElements fuel ∧
  Adequate json.parseMembers fuel.
Proof.
  induction fuel as [|fuel (IHv & IHe & IHm)]; [by repeat split|].
  split_and!; intros depth s a r H;
    cbn [json.parseValue json.parseElements json.parseMembers] in H;
    repeat (case_match; simplify_eq; try done);
    repeat match goal with
      | H : json.parseValue _ _ _ = json.Parsed _ _ |- _ =>
          destruct (IHv _ _ _ _ H) as [? ?]; clear H
      | H : json.parseElements _ _ _ = json.Parsed _ _ |- _ =>
          destruct (IHe _ _ _ _ H) as [? ?]; clear H
      | H : json.parseMembers _ _ _ = json.Parsed _ _ |- _ =>
          destruct (IHm _ _ _ _ H) as [? ?]; clear H
      end;
    lengths; cbn [length] in *; (split; [lia|]);
    (intros [|fuel'] Hfuel; [lia|]);
    cbn [json.parseValue json.parseElements json.parseMembers]; replay;
    repeat match goal with
      | H : ∀ f, _ → ?p f ?d ?t = _ |- context [?p ?f' ?d ?t] =>
          rewrite (H f') by lia; replay
      end; done.
Qed.

(** Whatever fuel reads a value from a text, the fuel of [json.parse] reads
    it too: a text is rejected for its syntax, never for want of fuel. *)
Lemma parse_enough_fuel (fuel : nat) (depth : N) (s : list ascii) (v : json.value)
    (r : list ascii) :
  json.parseValue fuel depth s = json.Parsed v r →
  json.parseValue (S (length s)) depth s = json.Parsed v r.
Proof.
  intros H. destruct (parse_adequate fuel) as (Hv & _). destruct (Hv _ _ _ _ H) as [? Hf].
  apply Hf. lia.
Qed.

(** A text has the value [v] exactly when [json.parse] returns [v]. *)
Lemma parse_textOf (data : list ascii) (v : json.value) :
  json.parse data = Some v ↔ textOf v data.
Proof.
  unfold json.parse, textOf. split.
  - destruct (json.parseValue _ _ _) as [v' rest| |] eqn:Hp; [|done..].
    destruct (json.skipSpace rest) eqn:Hr; [|done]. intros [= ->]. eauto.
  - intros (fuel & rest & Hp & Hr).
    destruct (parse_adequate fuel) as (Hv & _). destruct (Hv _ _ _ _ Hp) as [_ Hf].
    rewrite Hf, Hr; [done|]. pose proof (skipSpace_length data). lia.
Qed.

(** The texts that structured mode does not decode are those that are not
    the text of an object or of null, whatever the fuel. *)
Lemma fallsBack_spec (text : string) :
  fallsBack text = true ↔
  ∀ v, textOf v (list_ascii_of_string text) → v ≠ json.Null ∧ ∀ ms, v ≠ json.Object ms.
Proof.
  unfold fallsBack. split.
  - intros H v Hv%parse_textOf. rewrite Hv in H. by destruct v.
  - intros H. destruct (json.parse _) as [v|] eqn:Hp; [|done].
    apply parse_textOf, H in Hp as [? Ho]. destruct v; try done. by destruct (Ho members).
Qed.

(** ** The literals of the scanner *)

Lemma scanString_Literal (n : nat) (s lit r : list ascii) :
  (length s ≤ n)%nat → json.scanString s = Some (lit, r) → Literal lit.
Proof.
  revert s lit r. induction n as [|n IH]; intros s lit r Hn H.
  { destruct s; [done|cbn [length] in Hn; lia]. }
  destruct s as [|c rest]; [done|]. cbn [json.scanString] in H.
  repeat case_match; simplify_eq; try apply Literal_nil;
    match goal with
    | H : _ <$> json.scanString ?t = Some _ |- _ =>
        destruct (json.scanString t) as [[lit' r']|] eqn:Hs; [|done];
        apply IH in Hs; [|cbn [length] in *; lia]; cbn in H; simplify_eq
    end.
  - match goal with
    | H : Ascii.eqb _ backslash = true |- _ => apply Ascii.eqb_eq in H as ->
    end.
    by apply Literal_escape.
  - repeat match goal with
           | H : Ascii.eqb _ _ = true |- _ => apply Ascii.eqb_eq in H as ->
           end.
    by apply Literal_unicode.
  - by apply Literal_plain.
Qed.

Lemma Literal_high (bs lit : list ascii) :
  Forall (λ c, (0x80 <= b2n c)%N) bs → Literal (bs ++ lit) → Literal lit.
Proof.
  induction 1 as [|c bs Hc _ IH]; [done|]. intros H. apply IH.
  inversion H as [|c' lit' _ Hl| |]; subst; [done|..]; vm_compute in Hc; by destruct Hc.
Qed.

Lemma Literal_unicode_inv (h1 h2 h3 h4 : ascii) (lit : list ascii) :
  Literal (backslash :: "u"%char :: h1 :: h2 :: h3 :: h4 :: lit) → Literal lit.
Proof.
  inversion 1 as [|c lit' (_ & Hb & _) _|e lit' He _|]; subst; done.
Qed.

Lemma getu4_Some (s : list ascii) (r : N) :
  json.getu4 s = Some r →
  ∃ h1 h2 h3 h4 s', s = backslash :: "u"%char :: h1 :: h2 :: h3 :: h4 :: s'.
Proof.
  unfold json.getu4. intros H. repeat (case_match; simplify_eq; try done).
  match goal with H : _ && _ = true |- _ => apply andb_true_iff in H as [H1 H2] end.
  apply Ascii.eqb_eq in H1 as ->, H2 as ->. eauto 10.
Qed.

(** What the scanner accepts, [unquote] decodes. *)
Lemma unquoteFrom_Literal (fuel : nat) (lit : list ascii) :
  Literal lit → (length lit ≤ fuel)%nat → is_Some (json.unquoteFrom fuel lit).
Proof.
  revert lit. induction fuel as [|fuel IH]; intros lit H Hlen.
  { destruct lit; [by eexists|cbn [length] in Hlen; lia]. }
  destruct H as [|c lit (Hq & Hb & Hc) H|e lit He H|h1 h2 h3 h4 lit Hh H];
    cbn [length] in Hlen.
  - by eexists.
  - cbn [json.unquoteFrom]. rewrite Hb, Hq, Hc. cbn [orb].
    destruct (N.ltb_spec (b2n c) utf8.RuneSelf).
    { apply fmap_is_Some, IH; [done|lia]. }
    destruct (DecodeRune_cases c lit) as [[? _]|[[_ ->]|(r & bs & t & Heq & He & ->)]].
    + unfold utf8.RuneSelf in *. lia.
    + change (drop 1 (c :: lit)) with lit. apply fmap_is_Some, IH; [done|lia].
    + rewrite Heq, drop_app_length. destruct (Encoded_bounds _ _ He) as (_ & ? & Hhigh).
      apply fmap_is_Some, IH.
      * apply (Literal_high bs); [done|]. rewrite <- Heq. by apply Literal_plain.
      * apply (f_equal length) in Heq. rewrite length_app in Heq. cbn [length] in Heq. lia.
  - cbn [json.unquoteFrom].
    change (Ascii.eqb backslash backslash) with true. cbn match.
    repeat case_match; try (apply fmap_is_Some, IH; [done|lia]).
    all: repeat match goal with
           | H : _ || _ = false |- _ => apply orb_false_iff in H as [? ?]
           end.
    all: repeat match goal with
           | H : Ascii.eqb _ _ = true |- _ => apply Ascii.eqb_eq in H as ->
           end.
    all: try done.
    all: by repeat match goal with H : Ascii.eqb ?e _ = false |- _ => rewrite H in He end.
  - cbn [json.unquoteFrom].
    change (Ascii.eqb backslash backslash) with true. cbn match.
    change (Ascii.eqb "u" quoteChar || Ascii.eqb "u" backslash || Ascii.eqb "u" "/"
              || Ascii.eqb "u" "'")%char with false.
    cbn match. change (Ascii.eqb "u" "b") with false. change (Ascii.eqb "u" "f") with false.
    change (Ascii.eqb "u" "n") with false. change (Ascii.eqb "u" "r") with false.
    change (Ascii.eqb "u" "t") with false. change (Ascii.eqb "u" "u") with true.
    cbn match.
    cbn [forallb] in Hh. rewrite !andb_true_iff, !bool_decide_eq_true in Hh.
    destruct Hh as ([d1 Hd1] & [d2 Hd2] & [d3 Hd3] & [d4 Hd4] & _).
    unfold json.getu4 at 1.
    change (Ascii.eqb backslash backslash && Ascii.eqb "u" "u") with true. cbn match.
    rewrite Hd1, Hd2, Hd3, Hd4. cbn [mbind option_bind].
    change (drop 6 (_ :: _ :: _ :: _ :: _ :: _ :: ?l)) with l.
    destruct (utf16.IsSurrogate _); [|apply fmap_is_Some, IH; [done|lia]].
    destruct (json.getu4 lit) as [r2|] eqn:Hu.
    + apply getu4_Some in Hu as (k1 & k2 & k3 & k4 & lit' & ->).
      apply Literal_unicode_inv in H as H'.
      change (drop 6 (_ :: _ :: _ :: _ :: _ :: _ :: ?l)) with l. cbn [length] in *.
      case_match; apply fmap_is_Some, IH; try done; cbn [length]; lia.
    + cbn [utf16.DecodeRune]. rewrite N.eqb_refl. cbn [negb].
      apply fmap_is_Some, IH; [done|lia].
Qed.

Lemma scanString_unquote (s lit r : list ascii) :
  json.scanString s = Some (lit, r) → is_Some (json.unquote lit).
Proof.
  intros H. apply unquoteFrom_Literal; [|done]. by eapply scanString_Literal.
Qed.

Lemma scanString_unquoted (s lit r : list ascii) :
  json.scanString s = Some (lit, r) →
  json.unquote lit = Some (list_ascii_of_string (json.unquoted lit)).
Proof.
  intros [out Hout]%scanString_unquote. unfold json.unquoted. rewrite Hout. simpl.
  by rewrite list_ascii_of_string_of_list_ascii.
Qed.

(** ** Valid UTF-8 *)

Lemma validFrom_UTF8 (fuel : nat) (s : list ascii) :
  (length s ≤ fuel)%nat → utf8.validFrom fuel s = true ↔ UTF8 s.
Proof.
  revert s. induction fuel as [|fuel IH]; intros s Hlen.
  { destruct s; [|cbn [length] in Hlen; lia]. split; [constructor|done]. }
  destruct s as [|c s]; [split; [constructor|done]|]. cbn [length] in Hlen.
  cbn [utf8.validFrom].
  destruct (DecodeRune_cases c s) as [[Hc Hd]|[[Hc Hd]|(r & bs & t & Heq & He & Hd)]];
    rewrite Hd.
  - replace ((b2n c =? utf8.RuneError)%N) with false
      by (symmetry; apply N.eqb_neq; unfold utf8.RuneError; lia).
    cbn [andb]. change (drop 1 (c :: s)) with s. rewrite IH by lia. split.
    + by constructor.
    + inversion 1 as [|b s' Hb Hs|r bs s' He Hs Hbs]; subst; [done|].
      destruct (Encoded_bounds _ _ He) as (_ & _ & Hhigh).
      destruct bs as [|c' bs]; [by inversion He|]. simplify_eq/=.
      apply Forall_cons in Hhigh as [? _]. lia.
  - rewrite N.eqb_refl. cbn [andb Nat.eqb]. split; [done|].
    inversion 1 as [|b s' Hb Hs|r bs s' He Hs Hbs]; subst; [lia|].
    rewrite <- Hbs, (Encoded_DecodeRune _ _ _ He) in Hd.
    destruct (Encoded_bounds _ _ He) as (_ & ? & _). simplify_eq. lia.
  - rewrite (Encoded_not_invalid _ _ He), Heq, drop_app_length.
    destruct (Encoded_bounds _ _ He) as (_ & ? & Hhigh).
    apply (f_equal length) in Heq as Hl. rewrite length_app in Hl. cbn [length] in Hl.
    rewrite IH by lia. split; [by apply (UTF8_rune r)|].
    rewrite <- Heq. inversion 1 as [|b s' Hb Hs|r' bs' s' He' Hs Hbs]; subst.
    + destruct bs as [|c' bs]; [by inversion He|]. simplify_eq/=.
      apply Forall_cons in Hhigh as [? _]. lia.
    + pose proof (Encoded_DecodeRune _ _ s' He') as Hd'.
      rewrite Hbs, Hd in Hd'. injection Hd' as _ Hlen'.
      rewrite Heq in Hbs. apply (f_equal (drop (length bs))) in Hbs.
      rewrite drop_app_length in Hbs. rewrite Hlen', drop_app_length in Hbs. by subst.
Qed.

(** [utf8.Valid] decides valid UTF-8. *)
Lemma Valid_UTF8 (s : list ascii) : utf8.Valid s = true ↔ UTF8 s.
Proof. by apply validFrom_UTF8. Qed.

(** ** What comes back from JSON is valid UTF-8 *)

Lemma Encoded_RuneError : Encoded utf8.RuneError (utf8.EncodeRune utf8.RuneError).
Proof.
  change utf8.RuneError with (rune3 (b2n "239") (b2n "191") (b2n "189")) at 1.
  change (utf8.EncodeRune utf8.RuneError) with ["239"; "191"; "189"]%char.
  apply Encoded3; utf8_consts; cbn; lia.
Qed.

Lemma Quoted_UTF8 src lit out : Quoted src lit out → UTF8 out.
Proof.
  induction 1 as [|b src lit out Hb Hs _ IH|b src lit out Hb Hs _ IH
                  |b src lit out Hb Hd _ IH|r bs src lit out He Hr _ IH
                  |r bs src lit out He H1 H2 _ IH].
  - constructor.
  - by constructor.
  - by constructor.
  - apply (UTF8_rune utf8.RuneError); [apply Encoded_RuneError|done].
  - by apply (UTF8_rune r).
  - by apply (UTF8_rune r).
Qed.

Lemma coerced_UTF8 (s : string) : utf8.ValidString (coerced s) = true.
Proof. apply Valid_UTF8. exact (Quoted_UTF8 _ _ _ (coerced_Quoted s)). Qed.

(** A string goes through JSON unchanged exactly when it is valid UTF-8. *)
Lemma coerced_fixed (s : string) : coerced s = s ↔ utf8.ValidString s = true.
Proof.
  split; [|apply coerced_valid]. intros <-. apply coerced_UTF8.
Qed.

Lemma UTF8_app (s t : list ascii) : UTF8 s → UTF8 t → UTF8 (s ++ t).
Proof.
  induction 1 as [|b s Hb _ IH|r bs s He _ IH]; intros Ht; [done|..].
  - by apply UTF8_ascii, IH.
  - rewrite <- app_assoc. by apply (UTF8_rune r), IH.
Qed.

Lemma UTF8_encoded r bs : Encoded r bs → UTF8 bs.
Proof. intros H. rewrite <- (app_nil_r bs). apply (UTF8_rune r); [done|constructor]. Qed.

(** The encoder writes valid UTF-8 for any rune. *)
Lemma EncodeRune_UTF8 (r : N) : UTF8 (utf8.EncodeRune r).
Proof.
  unfold utf8.EncodeRune, utf8.encode3. utf8_consts.
  unfold utf8.t2, utf8.t3, utf8.t4, utf8.tx, utf8.maskx.
  repeat ntest; try (exfalso; lia).
  all: try exact (UTF8_encoded _ _ Encoded_RuneError).
  all: first
    [ by apply UTF8_ascii; [rewrite b2n_n2b; lia|constructor]
    | by eapply UTF8_encoded, Encoded2; unfold cont; unbit;
        rewrite ?(lor_add 0xC0 _ 6), ?(lor_add 0x80 _ 6) by (pow2; lia);
        rewrite b2n_n2b; lia
    | by eapply UTF8_encoded, Encoded3; unfold second3, cont; unbit;
        rewrite ?(lor_add 0xE0 _ 4), ?(lor_add 0x80 _ 6) by (pow2; lia);
        rewrite ?b2n_n2b by lia; lia
    | by eapply UTF8_encoded, Encoded4; unfold second4, cont; unbit;
        rewrite ?(lor_add 0xF0 _ 3), ?(lor_add 0x80 _ 6) by (pow2; lia);
        rewrite ?b2n_n2b by lia; lia
    ].
Qed.

(** Whatever [unquote] decodes is valid UTF-8. *)
Lemma unquoteFrom_UTF8 (fuel : nat) (s out : list ascii) :
  json.unquoteFrom fuel s = Some out → UTF8 out.
Proof.
  revert s out. induction fuel as [|fuel IH]; intros [|c s] out H;
    cbn [json.unquoteFrom] in H; simplify_eq; try constructor.
  repeat case_match; simplify_eq;
    apply fmap_Some in H as (out' & H%IH & ->);
    try (apply UTF8_app; [apply EncodeRune_UTF8|done]).
  all: apply UTF8_ascii; [|done].
  all: repeat match goal with
         | H : _ || _ = true |- _ => apply orb_true_iff in H as [H|H]
         | H : Ascii.eqb _ _ = true |- _ => apply Ascii.eqb_eq in H as ->
         end; try done.
  all: by apply N.ltb_lt.
Qed.

Lemma unquoted_valid (literal : list ascii) :
  utf8.ValidString (json.unquoted literal) = true.
Proof.
  unfold utf8.ValidString, json.unquoted. rewrite list_ascii_of_string_of_list_ascii.
  apply Valid_UTF8. unfold json.unquote.
  destruct (json.unquoteFrom _ _) as [out|] eqn:H; [|constructor].
  by apply unquoteFrom_UTF8 in H.
Qed.

(** An index that was decoded from the store holds valid UTF-8 only. *)
Lemma Unmarshal_index_valid (data : string) (index : list string) :
  json.Unmarshal_index data = Ok index →
  Forall (λ key, utf8.ValidString key = true) index.
Proof.
  unfold json.Unmarshal_index. intros H.
  repeat (case_match; simplify_eq); [constructor|].
  rewrite map_map. apply Forall_map, Forall_forall. intros v _.
  destruct v; try done. apply unquoted_valid.
Qed.

(** * The contract of the Provider, for any codec *)

Section Contract.

Context {Obs : Type} {codec : JSON}.
Implicit Types (p : Provider (Obs:=Obs)) (w : World (Obs:=Obs)).

(** C1. On an open Provider, a [Set] or [Delete] whose native write or
    delete of the caller's path succeeds returns success whatever happens
    to the index afterwards.  The failures of the index maintenance (the
    read of the reserved entry, its decoding, the encoding of the new index,
    its write) reach the [OnIndexError] callback once each, in order, with
    their tag among "load", "unmarshal", "marshal", "save" and their cause;
    without a callback they are dropped. *)
Theorem index_failures_isolated p path secret w :
  closed p = false →
  (∀ value w1,
     encode secret (JSONFormat (config p)) = Ok value →
     zkeyring_Set (ServiceName (config p)) path value w = (None, w1) →
     ∃ w2, Provider_Set p path secret w = (None, w2) ∧
       observer w2 =
         deliver p (if String.eqb path indexKey then [] else addFailures p path w1)
                 (observer w)) ∧
  (∀ w1,
     zkeyring_Delete (ServiceName (config p)) path w = (None, w1) →
     ∃ w2, Provider_Delete p path w = (None, w2) ∧
       observer w2 =
         deliver p (if String.eqb path indexKey then [] else removeFailures p path w1)
                 (observer w)) ∧
  (∀ key w1, Forall (λ f, f.1 ∈ indexTags)
               (addFailures p key w1 ++ removeFailures p key w1)) ∧
  (∀ failures o,
     deliver p failures o =
       match OnIndexError (config p) with
       | Some callback => foldl (λ o f, callback f.1 f.2 o) o failures
       | None => o
       end).
Proof.
  intros Hopen. split_and!.
  - intros value w1 Henc Hset. unfold Provider_Set, encode in *.
    rewrite Hopen, Henc, Hset.
    destruct (zkeyring_Set_frame _ _ _ _ _ _ Hset) as (Ho & _).
    destruct (String.eqb path indexKey); simpl; eexists; (split; [done|]).
    + by rewrite deliver_nil.
    + by rewrite addToIndex_observer, Ho.
  - intros w1 Hdel. unfold Provider_Delete. rewrite Hopen, Hdel.
    destruct (zkeyring_Delete_frame _ _ _ _ _ Hdel) as (Ho & _).
    destruct (String.eqb path indexKey); simpl; eexists; (split; [done|]).
    + by rewrite deliver_nil.
    + by rewrite removeFromIndex_observer, Ho.
  - intros key w1. unfold addFailures, removeFailures.
    destruct (zkeyring_Get _ _ w1) as [r w0].
    rewrite !Forall_app. split_and!; auto using loadFailures_tags, saveFailures_tags.
    case_bool_decide; auto using saveFailures_tags.
  - done.
Qed.

(** C5. [Close] succeeds and sets the closed flag; on the closed Provider
    every sequence of operations leaves the Provider closed and the world
    (store, native call log, failure script, callback state) untouched, each
    [Get], [Set], [Delete], [Exists] and [List] of it failing with
    [ErrClosed] and each further [Close] succeeding. *)
Theorem closed_state_rejects p w ops :
  Provider_Close p = (None, mkProvider (config p) true) ∧
  run ops (mkProvider (config p) true, w)
    = (closedOutcome <$> ops, (mkProvider (config p) true, w)) ∧
  Forall (λ op, (op = OpClose ∧ outcomeError (closedOutcome op) = None) ∨
                (∃ e, outcomeError (closedOutcome op) = Some e ∧
                      errors_Is is_ErrClosed e = true)) ops.
Proof.
  split_and!; [done| |].
  - induction ops as [|op ops IH]; [done|]. simpl.
    destruct op; simpl; by rewrite IH.
  - apply Forall_forall. intros [] _; simpl; eauto.
Qed.

(** C7. On an open Provider [List(prefix)] returns the keys of the loaded
    index that begin with [prefix], in the order of the index (all of them
    for the empty prefix), and its only native access is one read of the
    reserved index entry. *)
Theorem list_filters_index p prefix w :
  closed p = false →
  ∃ index w1, Provider_loadIndex p w = (index, w1) ∧
    Provider_List p prefix w
      = (Ok (List.filter (λ key, strings_HasPrefix key prefix) index), w1) ∧
    (∀ key, strings_HasPrefix key prefix = true ↔ ∃ rest, key = prefix +:+ rest) ∧
    List.filter (λ key, strings_HasPrefix key "") index = index ∧
    trace w1 = trace w ++ [CallGet (ServiceName (config p)) indexKey] ∧
    store w1 = store w.
Proof.
  intros Hopen. destruct (Provider_loadIndex p w) as [index w1] eqn:Hload.
  exists index, w1. unfold Provider_List. rewrite Hopen, Hload.
  destruct (loadIndex_trace _ _ _ _ Hload) as (Hs & Ht & _).
  split_and!; try done.
  - by rewrite foldl_append_filter.
  - intros key. apply strings_HasPrefix_spec.
  - apply forallb_filter_id, forallb_forall. intros; apply strings_HasPrefix_empty.
Qed.

(** The index manager, for any codec: [addToIndex] does nothing beyond the
    load when the key is in the loaded index (exact match) and otherwise
    saves the index with the key appended at the end; [removeFromIndex]
    always saves the loaded index without the occurrences of the key, also
    when there is none.  A save whose encoding succeeds is one native write
    of the reserved entry. *)
Lemma index_operations p key w :
  ∃ index w1, Provider_loadIndex p w = (index, w1) ∧
    (key ∈ index → Provider_addToIndex p key w = w1) ∧
    (key ∉ index →
       Provider_addToIndex p key w = Provider_saveIndex p (index ++ [key]) w1) ∧
    Provider_removeFromIndex p key w
      = Provider_saveIndex p (filter (λ k, k ≠ key) index) w1 ∧
    (key ∉ index → filter (λ k, k ≠ key) index = index) ∧
    (key ∉ filter (λ k, k ≠ key) index) ∧
    (∀ index' data, json_Marshal_index index' = Ok data →
       trace (Provider_saveIndex p index' w1)
         = trace w ++ [CallGet (ServiceName (config p)) indexKey;
                       CallSet (ServiceName (config p)) indexKey data]).
Proof.
  destruct (Provider_loadIndex p w) as [index w1] eqn:Hload.
  exists index, w1. unfold Provider_addToIndex, Provider_removeFromIndex.
  rewrite Hload. split_and!; try done.
  - intros Hin%indexHas_spec. by rewrite Hin.
  - intros Hnin. destruct (indexHas index key) eqn:Hhas; [|done].
    by apply indexHas_spec in Hhas.
  - by rewrite indexWithout_stdpp_filter.
  - apply filter_ne_id.
  - rewrite list_elem_of_filter. by intros [? _].
  - intros index' data Hm. rewrite (saveIndex_trace _ _ _ _ Hm).
    destruct (loadIndex_trace _ _ _ _ Hload) as (_ & -> & _).
    by rewrite <- app_assoc.
Qed.

(** C9. On an open Provider [Delete] returns success when the native
    delete reports not-found, so deleting an absent path twice succeeds both
    times; any other failure of the native delete comes back wrapped in a
    [VaultError] with the operation, the path and the provider name. *)
Theorem delete_idempotent p path w :
  closed p = false →
  (∀ err w1,
     zkeyring_Delete (ServiceName (config p)) path w = (Some err, w1) →
     errors_Is is_ErrNotFound err = true →
     Provider_Delete p path w = (None, w1)) ∧
  (store w !! (ServiceName (config p), path) = None →
   undisturbed 2 w = true →
   ∃ w1 w2, Provider_Delete p path w = (None, w1) ∧
            Provider_Delete p path w1 = (None, w2)) ∧
  (∀ err w1,
     zkeyring_Delete (ServiceName (config p)) path w = (Some err, w1) →
     errors_Is is_ErrNotFound err = false →
     Provider_Delete p path w = (Some (VaultError "Delete" path "keyring" err), w1)).
Proof.
  intros Hopen.
  assert (Hnf : ∀ w0 err w1,
     zkeyring_Delete (ServiceName (config p)) path w0 = (Some err, w1) →
     errors_Is is_ErrNotFound err = true →
     Provider_Delete p path w0 = (None, w1)).
  { intros w0 err w1 Hdel Herr. unfold Provider_Delete. by rewrite Hopen, Hdel, Herr. }
  split_and!.
  - apply Hnf.
  - intros Habs Hq.
    destruct (zkeyring_Delete_absent _ _ _ Habs (undisturbed_1 _ _ Hq)) as [w1 Hd1].
    destruct (zkeyring_Delete_frame _ _ _ _ _ Hd1) as (_ & _ & Hf & Hs).
    assert (Habs1 : store w1 !! (ServiceName (config p), path) = None) by by rewrite Hs.
    destruct (zkeyring_Delete_absent _ _ _ Habs1 (undisturbed_tail _ _ _ Hf Hq))
      as [w2 Hd2].
    exists w1, w2. split; eapply Hnf; eauto.
  - intros err w1 Hdel Herr. unfold Provider_Delete. by rewrite Hopen, Hdel, Herr.
Qed.

(** C10. When the native delete reports the entry as not found, [Delete]
    on an open Provider returns success after that one native call and
    without touching the index: the store and the callback state are as
    before, and a key of the stored index, the deleted path included, is
    still listed afterwards. *)
Theorem delete_absent_keeps_index p path w err w1 :
  closed p = false →
  zkeyring_Delete (ServiceName (config p)) path w = (Some err, w1) →
  errors_Is is_ErrNotFound err = true →
  Provider_Delete p path w = (None, w1) ∧
  store w1 = store w ∧ observer w1 = observer w ∧
  trace w1 = trace w ++ [CallDelete (ServiceName (config p)) path] ∧
  (∀ text index prefix,
     store w !! (ServiceName (config p), indexKey) = Some text →
     json_Unmarshal_index text = Ok index →
     undisturbed 1 w1 = true →
     path ∈ index → strings_HasPrefix path prefix = true →
     ∃ keys w2, Provider_List p prefix w1 = (Ok keys, w2) ∧ path ∈ keys).
Proof.
  intros Hopen Hdel Herr.
  destruct (zkeyring_Delete_frame _ _ _ _ _ Hdel) as (Ho & Ht & Hf & Hs).
  split_and!; try done.
  - unfold Provider_Delete. by rewrite Hopen, Hdel, Herr.
  - intros text index prefix Hidx Hdec Hq Hin Hpre.
    unfold Provider_List, Provider_loadIndex. rewrite Hopen.
    destruct (zkeyring_Get_undisturbed (ServiceName (config p)) indexKey _ Hq)
      as (w2 & -> & _).
    rewrite Hs, Hidx, Hdec. eexists _, _. split; [done|].
    rewrite foldl_append_filter. simpl.
    apply list_elem_of_In, filter_In. by rewrite <- list_elem_of_In.
Qed.

(** [Get] on a path with no entry fails with [ErrSecretNotFound], wrapped
    with the operation, the path and the provider name, and [Exists] on it
    returns false with no error; each is one native read. *)
Lemma not_found_mapping p path w :
  closed p = false → store w !! (ServiceName (config p), path) = None →
  undisturbed 1 w = true →
  ∃ w1, Provider_Get p path w
          = (Err (VaultError "Get" path "keyring" ErrSecretNotFound), w1) ∧
        Provider_Exists p path w = ((false, None), w1) ∧
        errors_Is is_ErrSecretNotFound (VaultError "Get" path "keyring" ErrSecretNotFound)
          = true ∧
        trace w1 = trace w ++ [CallGet (ServiceName (config p)) path].
Proof.
  intros Hopen Habs Hq.
  destruct (zkeyring_Get_undisturbed (ServiceName (config p)) path w Hq) as (w1 & Hget & _).
  rewrite Habs in Hget. destruct (zkeyring_Get_frame _ _ _ _ _ Hget) as (_ & _ & Ht & _).
  exists w1. unfold Provider_Get, Provider_Exists. by rewrite Hopen, Hget.
Qed.

(** [New] replaces an empty service name by the default one and keeps the
    rest of the configuration; the Provider it returns is open. *)
Lemma New_service_name (cfg : Config (Obs:=Obs)) :
  ServiceName (config (New cfg))
    = (if String.eqb (ServiceName cfg) "" then "omnivault" else ServiceName cfg) ∧
  JSONFormat (config (New cfg)) = JSONFormat cfg ∧
  OnIndexError (config (New cfg)) = OnIndexError cfg ∧
  closed (New cfg) = false.
Proof. unfold New. by destruct (String.eqb _ _). Qed.

End Contract.

(** ** What [Set] and [Delete] leave in the store *)

Section Frames.

Context {Obs : Type} {codec : JSON}.
Implicit Types (p : Provider (Obs:=Obs)) (w : World (Obs:=Obs)).

Lemma reportIndexError_store p op err w :
  store (Provider_reportIndexError p op err w) = store w.
Proof. by destruct (reportIndexError_frame p op err w) as (-> & _). Qed.

(** [saveIndex] writes the reserved entry or nothing. *)
Lemma saveIndex_store p index w :
  store (Provider_saveIndex p index w) = store w ∨
  ∃ data, json_Marshal_index index = Ok data ∧
    store (Provider_saveIndex p index w)
      = <[(ServiceName (config p), indexKey) := data]> (store w).
Proof.
  unfold Provider_saveIndex. destruct (json_Marshal_index index) as [data|e].
  - destruct (zkeyring_Set _ _ data w) as [[e|] w1] eqn:Hset;
      destruct (zkeyring_Set_frame _ _ _ _ _ _ Hset) as (_ & _ & _ & Hs).
    + left. by rewrite reportIndexError_store.
    + right. eauto.
  - left. apply reportIndexError_store.
Qed.

Lemma saveIndex_store_other p index w key :
  key ≠ indexKey →
  store (Provider_saveIndex p index w) !! (ServiceName (config p), key)
    = store w !! (ServiceName (config p), key).
Proof.
  intros Hne. destruct (saveIndex_store p index w) as [-> | (data & _ & ->)]; [done|].
  apply lookup_insert_ne. congruence.
Qed.

Lemma addToIndex_store_other p key' w key :
  key ≠ indexKey →
  store (Provider_addToIndex p key' w) !! (ServiceName (config p), key)
    = store w !! (ServiceName (config p), key).
Proof.
  intros Hne. unfold Provider_addToIndex.
  destruct (Provider_loadIndex p w) as [index w1] eqn:Hload.
  destruct (loadIndex_trace _ _ _ _ Hload) as (Hs & _).
  destruct (indexHas index key'); [by rewrite Hs|].
  by rewrite saveIndex_store_other, Hs.
Qed.

(** After a [Set] that returned success the native store holds the encoded
    secret at the path. *)
Lemma Set_stored p path secret w w1 :
  closed p = false → Provider_Set p path secret w = (None, w1) →
  ∃ value, encode secret (JSONFormat (config p)) = Ok value ∧
           store w1 !! (ServiceName (config p), path) = Some value.
Proof.
  intros Hopen. unfold Provider_Set, encode. rewrite Hopen.
  destruct (if JSONFormat (config p) then _ else _) as [value|e]; [|done].
  destruct (zkeyring_Set _ _ value w) as [[e|] w0] eqn:Hset; [done|].
  destruct (zkeyring_Set_frame _ _ _ _ _ _ Hset) as (_ & _ & _ & Hs).
  intros [= <-]. exists value. split; [done|].
  destruct (String.eqb_spec path indexKey) as [->|Hne]; simpl.
  - by rewrite Hs, lookup_insert_eq.
  - by rewrite addToIndex_store_other, Hs, lookup_insert_eq.
Qed.

(** A [Set] whose native write is not disturbed returns success. *)
Lemma Set_succeeds p path secret value w :
  closed p = false → encode secret (JSONFormat (config p)) = Ok value →
  undisturbed 1 w = true →
  ∃ w1, Provider_Set p path secret w = (None, w1).
Proof.
  intros Hopen Henc Hq. unfold Provider_Set, encode in *. rewrite Hopen, Henc.
  assert (∃ w0, zkeyring_Set (ServiceName (config p)) path value w = (None, w0))
    as [w0 ->]; [|eauto].
  unfold undisturbed in Hq. unfold zkeyring_Set, nextFault, logCall. simpl.
  destruct (faults w) as [|[e|] fs]; simpl in *; eauto; done.
Qed.

(** A [Get] whose native read is not disturbed decodes the stored text. *)
Lemma Get_stored p path value w :
  closed p = false → undisturbed 1 w = true →
  store w !! (ServiceName (config p), path) = Some value →
  ∃ w1, Provider_Get p path w =
    (Ok (let secret := vault.mkSecret "" ∅ (vault.mkMetadata "keyring" path ∅) in
         if JSONFormat (config p) then
           match json_Unmarshal_Secret value secret with
           | (secret', Some _) => vault.withValue value secret'
           | (secret', None) => secret'
           end
         else vault.withValue value secret), w1).
Proof.
  intros Hopen Hq Hs. unfold Provider_Get. rewrite Hopen.
  destruct (zkeyring_Get_undisturbed (ServiceName (config p)) path w Hq) as (w1 & -> & _).
  rewrite Hs. exists w1. unfold Provider_Name.
  destruct (JSONFormat (config p)); [|done].
  by destruct (json_Unmarshal_Secret _ _) as [? [?|]].
Qed.

(** ** The index when the native layer does not fail *)

Lemma undisturbed_S n w : undisturbed (S n) w = true → undisturbed n w = true.
Proof.
  unfold undisturbed. generalize (faults w). induction n as [|n IH]; intros [|f fs]; try done.
  cbn [take forallb]. intros [-> ?]%andb_true_iff. by apply IH.
Qed.

Lemma loadIndex_undisturbed p w :
  undisturbed 1 w = true →
  ∃ w1, Provider_loadIndex p w = (storedIndex p w, w1) ∧
        store w1 = store w ∧ faults w1 = tail (faults w).
Proof.
  intros Hq. destruct (Provider_loadIndex p w) as [index w1] eqn:Hload.
  destruct (loadIndex_trace _ _ _ _ Hload) as (Hs & _ & Hf).
  destruct (loadIndex_spec _ _ _ _ Hload) as (r & w0 & Hget & -> & _).
  destruct (zkeyring_Get_undisturbed (ServiceName (config p)) indexKey w Hq)
    as (w0' & Hget' & _).
  rewrite Hget in Hget'. injection Hget' as -> _. by exists w1.
Qed.

Lemma zkeyring_Set_undisturbed service key value w :
  undisturbed 1 w = true →
  ∃ w1, zkeyring_Set service key value w = (None, w1) ∧
        store w1 = <[(service, key) := value]> (store w) ∧ faults w1 = tail (faults w).
Proof.
  intros Hq. destruct (zkeyring_Set service key value w) as [e w1] eqn:Hset.
  destruct (zkeyring_Set_frame _ _ _ _ _ _ Hset) as (_ & _ & Hf & Hs).
  assert (e = None) as ->; [|by exists w1].
  revert Hset Hq. unfold undisturbed, zkeyring_Set, nextFault, logCall. simpl.
  destruct (faults w) as [|[e'|] fs]; simpl; by intros [= <- _].
Qed.

Lemma saveIndex_undisturbed p index data w :
  json_Marshal_index index = Ok data → undisturbed 1 w = true →
  store (Provider_saveIndex p index w)
    = <[(ServiceName (config p), indexKey) := data]> (store w) ∧
  faults (Provider_saveIndex p index w) = tail (faults w).
Proof.
  intros Hm Hq. unfold Provider_saveIndex. rewrite Hm.
  by destruct (zkeyring_Set_undisturbed (ServiceName (config p)) indexKey data w Hq)
    as (w1 & -> & ? & ?).
Qed.

Lemma zkeyring_Delete_present service key value w :
  store w !! (service, key) = Some value → undisturbed 1 w = true →
  ∃ w1, zkeyring_Delete service key w = (None, w1) ∧
        store w1 = delete (service, key) (store w) ∧ faults w1 = tail (faults w).
Proof.
  intros Hs Hq. destruct (zkeyring_Delete service key w) as [e w1] eqn:Hdel.
  destruct (zkeyring_Delete_frame _ _ _ _ _ Hdel) as (_ & _ & Hf & Hst).
  assert (e = None) as ->; [|by exists w1].
  revert Hdel Hq. unfold undisturbed, zkeyring_Delete, nextFault, logCall. simpl.
  destruct (faults w) as [|[e'|] fs]; simpl; rewrite ?Hs; by intros [= <- _].
Qed.

(** With the empty prefix [List] returns the stored index. *)
Lemma List_stored p w :
  closed p = false → undisturbed 1 w = true →
  ∃ w1, Provider_List p "" w = (Ok (storedIndex p w), w1).
Proof.
  intros Hopen Hq. unfold Provider_List. rewrite Hopen.
  destruct (loadIndex_undisturbed p w Hq) as (w1 & -> & _). exists w1.
  rewrite foldl_append_filter. do 2 f_equal.
  apply forallb_filter_id, forallb_forall. intros; apply strings_HasPrefix_empty.
Qed.

End Frames.

(** ** The envelope codec through [Set] and [Get] *)

Lemma Unmarshal_fallsBack (text : string) (secret : vault.Secret) :
  fallsBack text = true → ∃ e, json.Unmarshal_Secret text secret = (secret, Some e).
Proof.
  unfold fallsBack, json.Unmarshal_Secret.
  destruct (json.parse _) as [[]|]; simpl; eauto; discriminate.
Qed.

Lemma isEmptyString_spec (s : string) : json.isEmptyString s = true ↔ s = "".
Proof. apply String.eqb_eq. Qed.

Lemma secretInto_fresh (s : vault.Secret) (md : vault.Metadata) :
  validSecret s →
  vault.Value (secretInto s (vault.mkSecret "" ∅ md)) = vault.Value s ∧
  vault.Fields (secretInto s (vault.mkSecret "" ∅ md)) = vault.Fields s.
Proof.
  intros [Hv Hf]. unfold secretInto. cbn [vault.Value vault.Fields]. split.
  - destruct (json.isEmptyString (vault.Value s)) eqn:He.
    + symmetry. by apply isEmptyString_spec.
    + by apply coerced_valid.
  - unfold json.isEmptyMap. case_bool_decide as He; [done|].
    by rewrite decodeMap_valid.
Qed.

Lemma secretInto_value (s : vault.Secret) (md : vault.Metadata) :
  vault.Value (secretInto s (vault.mkSecret "" ∅ md)) = coerced (vault.Value s).
Proof.
  unfold secretInto. cbn [vault.Value].
  destruct (json.isEmptyString (vault.Value s)) eqn:He; [|done].
  apply isEmptyString_spec in He. by rewrite He.
Qed.

(** C2 fails as stated: the text of an empty JSON object, stored in plain
    mode, is read in structured mode as a secret with an empty value. *)
Lemma plain_fallback_counterexample :
  let stored := vault.mkSecret "{}" ∅ (vault.mkMetadata "" "" ∅) in
  let w1 := (Provider_Set plainProvider "k" stored emptyWorld).2 in
  (Provider_Set plainProvider "k" stored emptyWorld).1 = None ∧
  store w1 !! ("app", "k") = Some "{}" ∧
  (Provider_Get structuredProvider "k" w1).1
    = Ok (vault.mkSecret "" ∅ (vault.mkMetadata "keyring" "k" ∅)) ∧
  "" ≠ "{}".
Proof. vm_compute. split_and!; [reflexivity..|discriminate]. Qed.

(** C2, amended. A text stored in plain mode that is not the JSON text of an
    object or of null (it is no JSON at all, or a JSON string, number,
    boolean or array) is read back in structured mode, with no error, as the
    primary value of a secret with no fields. *)
Theorem plain_fallback (p1 p2 : Provider (Obs:=list (string * error)))
    (path : string) (secret : vault.Secret) (w : World) :
  closed p1 = false → JSONFormat (config p1) = false →
  closed p2 = false → JSONFormat (config p2) = true →
  ServiceName (config p2) = ServiceName (config p1) →
  fallsBack (vault.Value secret) = true →
  undisturbed 1 w = true →
  ∃ w1, Provider_Set p1 path secret w = (None, w1) ∧
    (undisturbed 1 w1 = true →
     ∃ got w2, Provider_Get p2 path w1 = (Ok got, w2) ∧
       vault.Value got = vault.Value secret ∧ vault.Fields got = ∅).
Proof.
  intros Hopen1 Hplain Hopen2 Hjson Hsvc Hfb Hq.
  destruct (Set_succeeds p1 path secret (vault.Value secret) w) as [w1 Hset];
    [done|by unfold encode; rewrite Hplain|done|].
  exists w1. split; [done|]. intros Hq1.
  destruct (Set_stored _ _ _ _ _ Hopen1 Hset) as (value & Henc & Hstore).
  unfold encode in Henc. rewrite Hplain in Henc. injection Henc as <-.
  rewrite <- Hsvc in Hstore.
  destruct (Get_stored p2 path _ w1 Hopen2 Hq1 Hstore) as [w2 Hget].
  eexists _, w2. split; [exact Hget|]. rewrite Hjson.
  cbn [json_Unmarshal_Secret encoding_json].
  by destruct (Unmarshal_fallsBack (vault.String secret)
                 (vault.mkSecret "" ∅ (vault.mkMetadata "keyring" path ∅)) Hfb) as [e ->].
Qed.

(** C3, at the failing input: in structured mode a secret written with a
    provider and a path in its metadata comes back from [Get] with that
    provider and that path, and not with "keyring" and the requested path. *)
Lemma get_returns_stored_metadata :
  let written := vault.mkSecret "pw" ∅ (vault.mkMetadata "aws" "prod/db" ∅) in
  let w1 := (Provider_Set structuredProvider "db" written emptyWorld).2 in
  (Provider_Set structuredProvider "db" written emptyWorld).1 = None ∧
  (Provider_Get structuredProvider "db" w1).1
    = Ok (vault.mkSecret "pw" ∅ (vault.mkMetadata "aws" "prod/db" ∅)).
Proof. vm_compute. split; reflexivity. Qed.

(** In plain mode the stamps are the Provider's, whatever was written. *)
Lemma get_stamps_plain (p : Provider (Obs:=list (string * error))) (path : string)
    (w w1 : World) (got : vault.Secret) :
  JSONFormat (config p) = false → Provider_Get p path w = (Ok got, w1) →
  vault.Provider (vault.Meta got) = "keyring" ∧ vault.Path (vault.Meta got) = path.
Proof.
  unfold Provider_Get. intros ->. destruct (closed p); [done|].
  destruct (zkeyring_Get _ _ w) as [[value|e] w0]; [|by destruct (errors_Is _ _)].
  by intros [= <- _].
Qed.

(** C4 fails as stated: a primary value that is not valid UTF-8 (here the
    single byte 255) comes back as U+FFFD. *)
Lemma structured_round_trip_counterexample :
  let written :=
    vault.mkSecret (String "255"%char "") ∅ (vault.mkMetadata "" "" ∅) in
  let w1 := (Provider_Set structuredProvider "k" written emptyWorld).2 in
  (Provider_Set structuredProvider "k" written emptyWorld).1 = None ∧
  (Provider_Get structuredProvider "k" w1).1
    = Ok (vault.mkSecret (String "239"%char (String "191"%char (String "189"%char "")))
            ∅ (vault.mkMetadata "keyring" "k" ∅)) ∧
  String "239"%char (String "191"%char (String "189"%char "")) ≠ String "255"%char "".
Proof. vm_compute. split_and!; [reflexivity..|discriminate]. Qed.

(** C4, amended. For a secret whose primary value, field names and field
    values are valid UTF-8, a [Set] in structured mode followed by a [Get] in
    structured mode gives back the primary value and the field map; and the
    primary value of any secret comes back unchanged exactly when it is
    valid UTF-8. *)
Theorem structured_round_trip (p : Provider (Obs:=list (string * error)))
    (path : string) (secret : vault.Secret) (w : World) :
  closed p = false → JSONFormat (config p) = true → undisturbed 1 w = true →
  ∃ w1, Provider_Set p path secret w = (None, w1) ∧
    (undisturbed 1 w1 = true →
     ∃ got w2, Provider_Get p path w1 = (Ok got, w2) ∧
       (validSecret secret →
        vault.Value got = vault.Value secret ∧ vault.Fields got = vault.Fields secret) ∧
       (vault.Value got = vault.Value secret ↔
        utf8.ValidString (vault.Value secret) = true)).
Proof.
  intros Hopen Hjson Hq.
  destruct (Unmarshal_Marshal_Secret secret
              (vault.mkSecret "" ∅ (vault.mkMetadata "keyring" path ∅)))
    as (data & Hm & Hu).
  destruct (Set_succeeds p path secret data w) as [w1 Hset];
    [done|by unfold encode; rewrite Hjson|done|].
  exists w1. split; [done|]. intros Hq1.
  destruct (Set_stored _ _ _ _ _ Hopen Hset) as (value & Henc & Hstore).
  unfold encode in Henc. rewrite Hjson in Henc.
  cbn [json_Marshal_Secret encoding_json] in Henc. rewrite Hm in Henc.
  injection Henc as <-.
  destruct (Get_stored p path _ w1 Hopen Hq1 Hstore) as [w2 Hget].
  eexists _, w2. split; [exact Hget|]. rewrite Hjson.
  cbn [json_Unmarshal_Secret encoding_json]. rewrite Hu. split.
  - by apply secretInto_fresh.
  - rewrite secretInto_value. apply coerced_fixed.
Qed.

(** ** The reserved key and the index *)

Lemma indexKey_ascii : isASCII indexKey.
Proof. unfold isASCII. simpl. repeat (apply List.Forall_cons; [reflexivity|]). constructor. Qed.

Lemma coerced_indexKey (s : string) : coerced s = indexKey → s = indexKey.
Proof.
  intros H. rewrite <- H. apply coerced_ascii. rewrite H. apply indexKey_ascii.
Qed.

Lemma Marshal_index_clean (index : list string) (data : string) (decoded : list string) :
  indexKey ∉ index → json.Marshal_index index = Ok data →
  json.Unmarshal_index data = Ok decoded → indexKey ∉ decoded.
Proof.
  intros Hnin Hm Hu. destruct (Unmarshal_Marshal_index index) as (data' & Hm' & Hu').
  rewrite Hm in Hm'. injection Hm' as <-. rewrite Hu in Hu'. injection Hu' as ->.
  intros (s & Hs & Hin)%list_elem_of_fmap. symmetry in Hs.
  apply coerced_indexKey in Hs. by subst.
Qed.

Section Reserved.

Context {Obs : Type}.
Implicit Types (p : Provider (Obs:=Obs)) (w : World (Obs:=Obs)).

Lemma indexClean_store svc w w1 :
  store w1 !! (svc, indexKey) = store w !! (svc, indexKey) →
  indexClean svc w → indexClean svc w1.
Proof. unfold indexClean. by intros ->. Qed.

Lemma loadIndex_clean p w index w1 :
  indexClean (ServiceName (config p)) w → Provider_loadIndex p w = (index, w1) →
  (indexKey ∉ index) ∧ indexClean (ServiceName (config p)) w1.
Proof.
  intros Hc Hload.
  destruct (loadIndex_spec _ _ _ _ Hload) as (r & w0 & Hget & -> & Hs & _).
  split; [|by apply (indexClean_store _ w); [rewrite Hs|]].
  unfold loadedIndex. destruct r as [text|e]; [|by intros ?%elem_of_nil].
  cbn [json_Unmarshal_index encoding_json].
  destruct (json.Unmarshal_index text) as [decoded|e] eqn:Hu; [|by intros ?%elem_of_nil].
  assert (Hstore : store w !! (ServiceName (config p), indexKey) = Some text).
  { revert Hget. unfold zkeyring_Get, nextFault, logCall. simpl.
    destruct (faults w) as [|[?|] ?]; simpl; try done;
      destruct (store w !! _); by intros [= <- _]. }
  destruct Hc as [Hnone|(idx & data & Hnin & Hm & Hsome)]; [congruence|].
  rewrite Hstore in Hsome. injection Hsome as ->.
  by apply (Marshal_index_clean idx data).
Qed.

Lemma saveIndex_clean p index w :
  indexKey ∉ index → indexClean (ServiceName (config p)) w →
  indexClean (ServiceName (config p)) (Provider_saveIndex p index w).
Proof.
  intros Hnin Hc. destruct (saveIndex_store p index w) as [Hs|(data & Hm & Hs)].
  - apply (indexClean_store _ w); [by rewrite Hs|done].
  - right. exists index, data. split_and!; [done..|]. by rewrite Hs, lookup_insert_eq.
Qed.

Lemma addToIndex_clean p key w :
  key ≠ indexKey → indexClean (ServiceName (config p)) w →
  indexClean (ServiceName (config p)) (Provider_addToIndex p key w).
Proof.
  intros Hne Hc. unfold Provider_addToIndex.
  destruct (Provider_loadIndex p w) as [index w1] eqn:Hload.
  destruct (loadIndex_clean _ _ _ _ Hc Hload) as [Hnin Hc1].
  destruct (indexHas index key); [done|].
  apply saveIndex_clean; [|done]. rewrite elem_of_app, list_elem_of_singleton.
  intros [?|?]; [done|]. by subst.
Qed.

Lemma removeFromIndex_clean p key w :
  indexClean (ServiceName (config p)) w →
  indexClean (ServiceName (config p)) (Provider_removeFromIndex p key w).
Proof.
  intros Hc. unfold Provider_removeFromIndex.
  destruct (Provider_loadIndex p w) as [index w1] eqn:Hload.
  destruct (loadIndex_clean _ _ _ _ Hc Hload) as [Hnin Hc1].
  apply saveIndex_clean; [|done]. by intros [? _]%elem_of_indexWithout.
Qed.

(** One operation other than a [Set] of the reserved key keeps the reserved
    entry clean, and a listing does not show the reserved key. *)
Lemma step_clean op p w out p1 w1 :
  ¬ setsReserved op → indexClean (ServiceName (config p)) w →
  step op (p, w) = (out, (p1, w1)) →
  config p1 = config p ∧ indexClean (ServiceName (config p)) w1 ∧
  ∀ keys, out = OutList (Ok keys) → indexKey ∉ keys.
Proof.
  intros Hop Hc. destruct op as [path|path secret|path|path|prefix|]; cbn [step].
  - destruct (Provider_Get p path w) as [r w'] eqn:Hget. intros [= <- <- <-].
    split_and!; [done| |done]. apply (indexClean_store _ w); [|done].
    revert Hget. unfold Provider_Get. destruct (closed p); [by intros [= _ <-]|].
    destruct (zkeyring_Get _ path w) as [r' w0] eqn:Hg.
    destruct (zkeyring_Get_frame _ _ _ _ _ Hg) as (Hs & _).
    intros H. assert (w' = w0) as ->; [|by rewrite Hs].
    destruct r'; repeat case_match; by simplify_eq.
  - destruct (Provider_Set p path secret w) as [e w'] eqn:Hset. intros [= <- <- <-].
    split_and!; [done| |done]. simpl in Hop.
    revert Hset. unfold Provider_Set. destruct (closed p); [by intros [= _ <-]|].
    destruct (if JSONFormat (config p) then _ else _) as [value|e']; [|by intros [= _ <-]].
    destruct (zkeyring_Set _ path value w) as [[e'|] w0] eqn:Hs;
      destruct (zkeyring_Set_frame _ _ _ _ _ _ Hs) as (_ & _ & _ & Hst).
    + intros [= _ <-]. apply (indexClean_store _ w); [by rewrite Hst|done].
    + intros [= _ <-]. rewrite (proj2 (String.eqb_neq _ _)) by done. simpl.
      apply addToIndex_clean; [done|].
      apply (indexClean_store _ w); [|done]. rewrite Hst.
      apply lookup_insert_ne. congruence.
  - destruct (Provider_Delete p path w) as [e w'] eqn:Hdel. intros [= <- <- <-].
    split_and!; [done| |done].
    revert Hdel. unfold Provider_Delete. destruct (closed p); [by intros [= _ <-]|].
    destruct (zkeyring_Delete _ path w) as [[e'|] w0] eqn:Hd;
      destruct (zkeyring_Delete_frame _ _ _ _ _ Hd) as (_ & _ & _ & Hst).
    + intros H. assert (w' = w0) as ->; [by destruct (errors_Is _ _); simplify_eq|].
      apply (indexClean_store _ w); [by rewrite Hst|done].
    + intros [= _ <-]. destruct (String.eqb_spec path indexKey) as [->|Hne]; simpl.
      * left. by rewrite Hst, lookup_delete_eq.
      * apply removeFromIndex_clean. apply (indexClean_store _ w); [|done].
        rewrite Hst. apply lookup_delete_ne. congruence.
  - destruct (Provider_Exists p path w) as [r w'] eqn:Hex. intros [= <- <- <-].
    split_and!; [done| |done]. apply (indexClean_store _ w); [|done].
    revert Hex. unfold Provider_Exists. destruct (closed p); [by intros [= _ <-]|].
    destruct (zkeyring_Get _ path w) as [r' w0] eqn:Hg.
    destruct (zkeyring_Get_frame _ _ _ _ _ Hg) as (Hs & _).
    intros H. assert (w' = w0) as ->; [|by rewrite Hs].
    destruct r'; repeat case_match; by simplify_eq.
  - destruct (Provider_List p prefix w) as [r w'] eqn:Hl. intros [= <- <- <-].
    revert Hl. unfold Provider_List. destruct (closed p); [by intros [= <- <-]|].
    destruct (Provider_loadIndex p w) as [index w0] eqn:Hload.
    destruct (loadIndex_clean _ _ _ _ Hc Hload) as [Hnin Hc0].
    intros [= <- <-]. split_and!; [done..|].
    intros keys [= <-]. rewrite foldl_append_filter. simpl.
    rewrite list_elem_of_In, filter_In, <- list_elem_of_In. by intros [? _].
  - intros [= <- <- <-]. done.
Qed.

Lemma run_clean ops p w outs p1 w1 :
  Forall (λ op, ¬ setsReserved op) ops → indexClean (ServiceName (config p)) w →
  run ops (p, w) = (outs, (p1, w1)) →
  indexClean (ServiceName (config p)) w1 ∧
  Forall (λ out, ∀ keys, out = OutList (Ok keys) → indexKey ∉ keys) outs.
Proof.
  intros Hops. revert p w outs. induction Hops as [|op ops Hop _ IH]; intros p w outs Hc.
  - by intros [= <- <- <-].
  - cbn [run]. destruct (step op (p, w)) as [out [p' w']] eqn:Hstep.
    destruct (run ops (p', w')) as [outs' st] eqn:Hrun. intros [= <- ->].
    destruct (step_clean _ _ _ _ _ _ Hop Hc Hstep) as (Hcfg & Hc' & Hout).
    rewrite <- Hcfg in Hc'. destruct (IH _ _ _ Hc' Hrun) as [Hc1 Houts].
    rewrite Hcfg in Hc1. by split; [|constructor].
Qed.

End Reserved.

(** C6 fails as stated: a [Set] on the reserved key stores the caller's text
    as the index, and that text can list the reserved key. *)
Lemma reserved_key_counterexample :
  (run [OpSet indexKey (vault.mkSecret reservedIndexText ∅ (vault.mkMetadata "" "" ∅));
        OpList ""]
       (plainProvider, emptyWorld)).1
  = [OutSet None; OutList (Ok [indexKey])].
Proof. vm_compute. reflexivity. Qed.

(** C6, amended. Starting with no index entry, after any sequence of
    operations that has no [Set] on the reserved key, whatever the native
    layer fails on, an index stored under the reserved key does not contain
    the reserved key, and no [List] of the sequence has returned it. *)
Theorem reserved_key_never_indexed {Obs : Type} (p p1 : Provider (Obs:=Obs))
    (w w1 : World) (ops : list Op) (outs : list Outcome) :
  store w !! (ServiceName (config p), indexKey) = None →
  Forall (λ op, ¬ setsReserved op) ops →
  run ops (p, w) = (outs, (p1, w1)) →
  Forall (λ out, ∀ keys, out = OutList (Ok keys) → indexKey ∉ keys) outs ∧
  ∀ data index,
    store w1 !! (ServiceName (config p), indexKey) = Some data →
    json_Unmarshal_index data = Ok index → indexKey ∉ index.
Proof.
  intros Habs Hops Hrun.
  destruct (run_clean ops p w outs p1 w1 Hops (or_introl Habs) Hrun) as [Hc Houts].
  split; [done|]. intros data index Hstore Hu.
  destruct Hc as [Hnone|(idx & data' & Hnin & Hm & Hsome)]; [congruence|].
  rewrite Hstore in Hsome. injection Hsome as ->.
  by apply (Marshal_index_clean idx data').
Qed.

(** ** Adding a key twice *)

(** After [addToIndex] of a key that is valid UTF-8, the native layer
    permitting, the stored index lists the key. *)
Lemma addToIndex_stored {Obs : Type} (p : Provider (Obs:=Obs)) (key : string) (w : World)
    (n : nat) :
  utf8.ValidString key = true → undisturbed (2 + n) w = true →
  key ∈ storedIndex p (Provider_addToIndex p key w) ∧
  undisturbed n (Provider_addToIndex p key w) = true.
Proof.
  intros Hvalid Hq. unfold Provider_addToIndex.
  destruct (loadIndex_undisturbed p w (undisturbed_1 _ _ Hq)) as (w1 & -> & Hs & Hf).
  pose proof (undisturbed_tail _ _ _ Hf Hq) as Hq1.
  destruct (indexHas (storedIndex p w) key) eqn:Hhas.
  - split; [|by apply undisturbed_S]. apply indexHas_spec in Hhas.
    unfold storedIndex in *. by rewrite Hs.
  - destruct (Unmarshal_Marshal_index (storedIndex p w ++ [key])) as (data & Hm & Hu).
    destruct (saveIndex_undisturbed (codec:=encoding_json) p _ data w1 Hm
                (undisturbed_1 _ _ Hq1)) as [Hs2 Hf2].
    split; [|by apply (undisturbed_tail _ _ _ Hf2)].
    unfold storedIndex at 1. rewrite Hs2, lookup_insert_eq. unfold loadedIndex.
    cbn [json_Unmarshal_index encoding_json]. rewrite Hu, map_app. cbn [map].
    rewrite (coerced_valid _ Hvalid), elem_of_app, list_elem_of_singleton. by right.
Qed.

(** Every secret has a text in either mode. *)
Lemma encode_total (secret : vault.Secret) (structured : bool) :
  ∃ value, encode secret structured = Ok value.
Proof.
  destruct structured; [|by eexists].
  destruct (Unmarshal_Marshal_Secret secret secret) as (data & Hm & _). by exists data.
Qed.

(** Two [Set]s on a path that is valid UTF-8 and not the reserved key, the
    native layer permitting: both succeed, the stored index lists the path
    after the first, and the second leaves the stored index as it is. *)
Lemma set_twice_indexed_once {Obs : Type} (p : Provider (Obs:=Obs)) (path : string)
    (s1 s2 : vault.Secret) (w : World) :
  closed p = false → path ≠ indexKey → utf8.ValidString path = true →
  undisturbed 5 w = true →
  ∃ w1 w2, Provider_Set p path s1 w = (None, w1) ∧
    Provider_Set p path s2 w1 = (None, w2) ∧
    path ∈ storedIndex p w1 ∧
    store w2 !! (ServiceName (config p), indexKey)
      = store w1 !! (ServiceName (config p), indexKey).
Proof.
  intros Hopen Hne Hvalid Hq.
  destruct (encode_total s1 (JSONFormat (config p))) as [v1 He1].
  destruct (encode_total s2 (JSONFormat (config p))) as [v2 He2].
  unfold encode in He1, He2.
  destruct (zkeyring_Set_undisturbed (ServiceName (config p)) path v1 w
              (undisturbed_1 _ _ Hq)) as (w0 & Hset0 & Hs0 & Hf0).
  pose proof (undisturbed_tail _ _ _ Hf0 Hq) as Hq0.
  destruct (addToIndex_stored p path w0 2 Hvalid Hq0) as [Hin Hq1].
  set (w1 := Provider_addToIndex p path w0) in *.
  destruct (zkeyring_Set_undisturbed (ServiceName (config p)) path v2 w1
              (undisturbed_1 _ _ Hq1)) as (w1' & Hset1 & Hs1 & Hf1).
  pose proof (undisturbed_tail _ _ _ Hf1 Hq1) as Hq1'.
  assert (Hidx : store w1' !! (ServiceName (config p), indexKey)
                 = store w1 !! (ServiceName (config p), indexKey)).
  { rewrite Hs1. apply lookup_insert_ne. congruence. }
  exists w1, (Provider_addToIndex p path w1'). split_and!; [| |done|].
  - unfold Provider_Set. rewrite Hopen, He1, Hset0.
    by rewrite (proj2 (String.eqb_neq _ _)).
  - unfold Provider_Set. rewrite Hopen, He2, Hset1.
    by rewrite (proj2 (String.eqb_neq _ _)).
  - unfold Provider_addToIndex.
    destruct (loadIndex_undisturbed p w1' Hq1') as (w2 & -> & Hs2 & _).
    assert (storedIndex p w1' = storedIndex p w1) as ->
      by (unfold storedIndex; by rewrite Hidx).
    rewrite (proj2 (indexHas_spec _ _)) by done. by rewrite Hs2.
Qed.

(** Two [Set]s on one path, as the tests of the Provider do. *)
Lemma set_twice_listed_once :
  (run [OpSet "concurrent-key" (plainSecret "value1");
        OpSet "concurrent-key" (plainSecret "value2"); OpList ""]
       (plainProvider, emptyWorld)).1
  = [OutSet None; OutSet None; OutList (Ok ["concurrent-key"])].
Proof. vm_compute. reflexivity. Qed.

(** ** The path of a secret in the index *)

Lemma storedIndex_valid {Obs : Type} (p : Provider (Obs:=Obs)) (w : World) :
  Forall (λ key, utf8.ValidString key = true) (storedIndex p w).
Proof.
  unfold storedIndex, loadedIndex. destruct (store w !! _) as [text|]; [|constructor].
  cbn [json_Unmarshal_index encoding_json].
  destruct (json.Unmarshal_index text) as [index|e] eqn:Hu; [|constructor].
  by apply (Unmarshal_index_valid text).
Qed.

Lemma loadIndex_valid {Obs : Type} (p : Provider (Obs:=Obs)) (w w1 : World)
    (index : list string) :
  Provider_loadIndex p w = (index, w1) →
  Forall (λ key, utf8.ValidString key = true) index.
Proof.
  intros (r & w0 & _ & -> & _)%loadIndex_spec. unfold loadedIndex.
  destruct r as [text|e]; [|constructor]. cbn [json_Unmarshal_index encoding_json].
  destruct (json.Unmarshal_index text) as [index|e] eqn:Hu; [|constructor].
  by apply (Unmarshal_index_valid text).
Qed.

Lemma map_coerced_valid (index : list string) :
  Forall (λ key, utf8.ValidString key = true) index → map coerced index = index.
Proof.
  induction 1 as [|key index Hkey _ IH]; [done|]. cbn [map].
  by rewrite (coerced_valid _ Hkey), IH.
Qed.


(** C8 fails as stated: a path that is not valid UTF-8 (here the single
    byte 255) is written to the index as U+FFFD, is not found there by the
    second [Set], and is listed twice. *)
Lemma index_add_remove_counterexample :
  let path := String "255"%char "" in
  (run [OpSet path (plainSecret "v"); OpSet path (plainSecret "v"); OpList ""]
       (plainProvider, emptyWorld)).1
  = [OutSet None; OutSet None; OutList (Ok [replacement; replacement])].
Proof. vm_compute. reflexivity. Qed.

(** C8, amended. [addToIndex] does nothing beyond the load when the key is
    in the index it loaded (exact match) and otherwise saves the index with
    the key appended at the end; [removeFromIndex] always saves the loaded
    index without the occurrences of the key, also when there is none; a
    save is one native write of the reserved entry.  A key that is valid
    UTF-8 is found again after it was added, the native layer permitting,
    so that adding it a second time does nothing beyond the load; a key
    that is not valid UTF-8 is never in the loaded index, so that every add
    of it appends. *)
Theorem index_add_remove {Obs : Type} (p : Provider (Obs:=Obs)) (key : string)
    (w : World) :
  ∃ index w1, Provider_loadIndex p w = (index, w1) ∧
    (key ∈ index → Provider_addToIndex p key w = w1) ∧
    (key ∉ index →
       Provider_addToIndex p key w = Provider_saveIndex p (index ++ [key]) w1) ∧
    Provider_removeFromIndex p key w
      = Provider_saveIndex p (filter (λ k, k ≠ key) index) w1 ∧
    (key ∉ index → filter (λ k, k ≠ key) index = index) ∧
    (key ∉ filter (λ k, k ≠ key) index) ∧
    (utf8.ValidString key = false → key ∉ index) ∧
    (∀ index', ∃ data, json_Marshal_index index' = Ok data ∧
       trace (Provider_saveIndex p index' w1)
         = trace w ++ [CallGet (ServiceName (config p)) indexKey;
                       CallSet (ServiceName (config p)) indexKey data]) ∧
    (utf8.ValidString key = true → undisturbed 3 w = true →
     ∃ index2 w2,
       Provider_loadIndex p (Provider_addToIndex p key w) = (index2, w2) ∧
       key ∈ index2 ∧
       Provider_addToIndex p key (Provider_addToIndex p key w) = w2 ∧
       store w2 = store (Provider_addToIndex p key w)).
Proof.
  destruct (index_operations p key w)
    as (index & w1 & Hload & Hin & Hnin & Hrm & Hid & Hgone & Htrace).
  exists index, w1. split_and!; try done.
  - intros Hinvalid Hkey.
    apply (proj1 (Forall_forall _ _) (loadIndex_valid _ _ _ _ Hload)) in Hkey. congruence.
  - intros index'. destruct (Unmarshal_Marshal_index index') as (data & Hm & _).
    exists data. split; [done|]. by apply Htrace.
  - intros Hvalid Hq. destruct (addToIndex_stored p key w 1 Hvalid Hq) as [Hkey Hq1].
    destruct (loadIndex_undisturbed p _ Hq1) as (w2 & Hload2 & Hs2 & _).
    exists (storedIndex p (Provider_addToIndex p key w)), w2. split_and!; try done.
    unfold Provider_addToIndex at 1. rewrite Hload2.
    by rewrite (proj2 (indexHas_spec _ _)).
Qed.

(** After [removeFromIndex], the native layer permitting, the stored index
    does not list the key. *)
Lemma removeFromIndex_stored {Obs : Type} (p : Provider (Obs:=Obs)) (key : string)
    (w : World) (n : nat) :
  undisturbed (2 + n) w = true →
  storedIndex p (Provider_removeFromIndex p key w)
    = filter (λ k, k ≠ key) (storedIndex p w) ∧
  undisturbed n (Provider_removeFromIndex p key w) = true.
Proof.
  intros Hq. unfold Provider_removeFromIndex.
  destruct (loadIndex_undisturbed p w (undisturbed_1 _ _ Hq)) as (w1 & -> & Hs & Hf).
  pose proof (undisturbed_tail _ _ _ Hf Hq) as Hq1.
  rewrite indexWithout_stdpp_filter.
  set (index := filter (λ k, k ≠ key) (storedIndex p w)).
  destruct (Unmarshal_Marshal_index index) as (data & Hm & Hu).
  destruct (saveIndex_undisturbed (codec:=encoding_json) p _ data w1 Hm
              (undisturbed_1 _ _ Hq1)) as [Hs2 Hf2].
  split; [|by apply (undisturbed_tail _ _ _ Hf2)].
  unfold storedIndex at 1. rewrite Hs2, lookup_insert_eq. unfold loadedIndex.
  cbn [json_Unmarshal_index encoding_json]. rewrite Hu.
  apply map_coerced_valid. unfold index.
  apply Forall_forall. intros k [_ Hk]%list_elem_of_filter.
  by apply (proj1 (Forall_forall _ _) (storedIndex_valid p w)).
Qed.

(** Index membership.  On an open Provider, for a path that is valid UTF-8
    and not the reserved key, the native layer permitting: after [Set] the
    stored index lists the path, after the [Delete] that follows it does
    not, and the stored index is what [List] with the empty prefix
    returns. *)
Theorem index_membership {Obs : Type} (p : Provider (Obs:=Obs)) (path : string)
    (secret : vault.Secret) (w : World) :
  closed p = false → path ≠ indexKey → utf8.ValidString path = true →
  undisturbed 6 w = true →
  ∃ w1 w2, Provider_Set p path secret w = (None, w1) ∧
    path ∈ storedIndex p w1 ∧
    Provider_Delete p path w1 = (None, w2) ∧
    (path ∉ storedIndex p w2) ∧
    ∀ w', undisturbed 1 w' = true →
      (Provider_List p "" w').1 = Ok (storedIndex p w').
Proof.
  intros Hopen Hne Hvalid Hq.
  destruct (encode_total secret (JSONFormat (config p))) as [v He]. unfold encode in He.
  destruct (zkeyring_Set_undisturbed (ServiceName (config p)) path v w
              (undisturbed_1 _ _ Hq)) as (w0 & Hset0 & Hs0 & Hf0).
  pose proof (undisturbed_tail _ _ _ Hf0 Hq) as Hq0.
  destruct (addToIndex_stored p path w0 3 Hvalid Hq0) as [Hin Hq1].
  set (w1 := Provider_addToIndex p path w0) in *.
  assert (Hset : Provider_Set p path secret w = (None, w1)).
  { unfold Provider_Set. rewrite Hopen, He, Hset0.
    by rewrite (proj2 (String.eqb_neq _ _)). }
  destruct (Set_stored _ _ _ _ _ Hopen Hset) as (value & _ & Hstore).
  destruct (zkeyring_Delete_present _ _ _ _ Hstore (undisturbed_1 _ _ Hq1))
    as (w1' & Hdel & Hs1 & Hf1).
  pose proof (undisturbed_tail _ _ _ Hf1 Hq1) as Hq1'.
  destruct (removeFromIndex_stored p path w1' 0 Hq1') as [Hidx _].
  exists w1, (Provider_removeFromIndex p path w1'). split_and!; [done..| | |].
  - unfold Provider_Delete. rewrite Hopen, Hdel.
    by rewrite (proj2 (String.eqb_neq _ _)).
  - rewrite Hidx, list_elem_of_filter. by intros [? _].
  - intros w' Hq'. by destruct (List_stored p w' Hopen Hq') as [w'' ->].
Qed.

(** * The other methods and how the operations compose *)

Section Operations.

Context {Obs : Type} {codec : JSON}.
Implicit Types (p : Provider (Obs:=Obs)) (w : World (Obs:=Obs)).

(** ** What an operation leaves alone *)

Lemma saveIndex_frame p index w service key :
  (service, key) ≠ (ServiceName (config p), indexKey) →
  store (Provider_saveIndex p index w) !! (service, key) = store w !! (service, key).
Proof.
  intros Hne. destruct (saveIndex_store p index w) as [-> | (data & _ & ->)]; [done|].
  by apply lookup_insert_ne.
Qed.

Lemma addToIndex_frame p key' w service key :
  (service, key) ≠ (ServiceName (config p), indexKey) →
  store (Provider_addToIndex p key' w) !! (service, key) = store w !! (service, key).
Proof.
  intros Hne. unfold Provider_addToIndex.
  destruct (Provider_loadIndex p w) as [index w1] eqn:Hload.
  destruct (loadIndex_trace _ _ _ _ Hload) as (Hs & _).
  destruct (indexHas index key'); [by rewrite Hs|].
  by rewrite saveIndex_frame, Hs.
Qed.

Lemma removeFromIndex_frame p key' w service key :
  (service, key) ≠ (ServiceName (config p), indexKey) →
  store (Provider_removeFromIndex p key' w) !! (service, key) = store w !! (service, key).
Proof.
  intros Hne. unfold Provider_removeFromIndex.
  destruct (Provider_loadIndex p w) as [index w1] eqn:Hload.
  destruct (loadIndex_trace _ _ _ _ Hload) as (Hs & _).
  by rewrite saveIndex_frame, Hs.
Qed.

(** No operation changes the configuration. *)
Lemma step_config op p w out p1 w1 :
  step op (p, w) = (out, (p1, w1)) → config p1 = config p.
Proof.
  intros Hstep. destruct op; cbn [step] in Hstep; unfold Provider_Close in Hstep;
    repeat match type of Hstep with
           | context [let (_, _) := ?x in _] => destruct x
           end; by simplify_eq.
Qed.

(** The entries that [step] leaves as they are. *)
Lemma step_frame op p w out p1 w1 service key :
  step op (p, w) = (out, (p1, w1)) →
  service ≠ ServiceName (config p) ∨ (key ≠ opPath op ∧ key ≠ indexKey)
    ∨ writes op = false ∨ closed p = true →
  store w1 !! (service, key) = store w !! (service, key).
Proof.
  intros Hstep Hout.
  assert (Hidx : writes op = true → closed p = false →
            (service, key) ≠ (ServiceName (config p), indexKey) ∧
            (service, key) ≠ (ServiceName (config p), opPath op)).
  { intros Hw Hopen. destruct Hout as [?|[[??]|[?|?]]]; try congruence; split; congruence. }
  destruct op as [path|path secret|path|path|prefix|]; cbn [step] in Hstep.
  - unfold Provider_Get in Hstep. destruct (closed p); [by simplify_eq|].
    destruct (zkeyring_Get _ path w) as [r w0] eqn:Hg.
    destruct (zkeyring_Get_frame _ _ _ _ _ Hg) as (Hs & _).
    assert (w1 = w0) as ->; [|by rewrite Hs].
    destruct r; repeat case_match; by simplify_eq.
  - unfold Provider_Set in Hstep. destruct (closed p) eqn:Hc; [by simplify_eq|].
    destruct (Hidx eq_refl eq_refl) as [Hni Hnp]. cbn [opPath] in Hnp.
    destruct (if JSONFormat (config p) then _ else _) as [value|e']; [|by simplify_eq].
    destruct (zkeyring_Set _ path value w) as [[e'|] w0] eqn:Hs;
      destruct (zkeyring_Set_frame _ _ _ _ _ _ Hs) as (_ & _ & _ & Hst);
      simplify_eq; [by rewrite Hst|].
    destruct (negb _); rewrite ?addToIndex_frame by done;
      by rewrite Hst, lookup_insert_ne.
  - unfold Provider_Delete in Hstep. destruct (closed p) eqn:Hc; [by simplify_eq|].
    destruct (Hidx eq_refl eq_refl) as [Hni Hnp]. cbn [opPath] in Hnp.
    destruct (zkeyring_Delete _ path w) as [[e'|] w0] eqn:Hd;
      destruct (zkeyring_Delete_frame _ _ _ _ _ Hd) as (_ & _ & _ & Hst).
    + assert (w1 = w0) as ->; [by destruct (errors_Is _ _); simplify_eq|]. by rewrite Hst.
    + simplify_eq. destruct (negb _); rewrite ?removeFromIndex_frame by done;
        by rewrite Hst, lookup_delete_ne.
  - unfold Provider_Exists in Hstep. destruct (closed p); [by simplify_eq|].
    destruct (zkeyring_Get _ path w) as [r w0] eqn:Hg.
    destruct (zkeyring_Get_frame _ _ _ _ _ Hg) as (Hs & _).
    assert (w1 = w0) as ->; [|by rewrite Hs].
    destruct r; repeat case_match; by simplify_eq.
  - unfold Provider_List in Hstep. destruct (closed p); [by simplify_eq|].
    destruct (Provider_loadIndex p w) as [index w0] eqn:Hload.
    destruct (loadIndex_trace _ _ _ _ Hload) as (Hs & _). simplify_eq. by rewrite Hs.
  - unfold Provider_Close in Hstep. by simplify_eq.
Qed.

(** An operation changes no entry of the native store other than the one at
    its path and the reserved index entry, both under the Provider's own
    service name; only [Set] and [Delete] on an open Provider change any. *)
Theorem operations_touch_only_their_path op p w out p1 w1 service key :
  step op (p, w) = (out, (p1, w1)) →
  store w1 !! (service, key) ≠ store w !! (service, key) →
  service = ServiceName (config p) ∧ (key = opPath op ∨ key = indexKey) ∧
  writes op = true ∧ closed p = false.
Proof.
  intros Hstep Hne.
  destruct (decide (service = ServiceName (config p))) as [Hs|Hs];
    [|destruct Hne; eapply step_frame; eauto].
  destruct (decide (key = opPath op)) as [Hk|Hk], (decide (key = indexKey)) as [Hi|Hi],
    (writes op) eqn:Hw, (closed p) eqn:Hc; try (by split_and!; auto);
    destruct Hne; eapply step_frame; eauto; rewrite ?Hw, ?Hc; auto.
Qed.

(** ** Errors *)

(** Every error that a method returns is a [vault.VaultError] carrying the
    name of the method, the path or prefix it was called with and the
    provider name; on a closed Provider its cause is [vault.ErrClosed], and
    [Close] never returns an error. *)
Theorem errors_wrapped op p w out st e :
  step op (p, w) = (out, st) → outcomeError out = Some e →
  op ≠ OpClose ∧
  ∃ cause, e = VaultError (opName op) (opPath op) "keyring" cause ∧
           (closed p = true → cause = ErrClosed).
Proof.
  intros Hstep He.
  destruct op as [path|path secret|path|path|prefix|]; cbn [step] in Hstep;
    [..|unfold Provider_Close in Hstep; by simplify_eq/=];
    (split; [done|]);
    unfold Provider_Get, Provider_Set, Provider_Delete, Provider_Exists, Provider_List
      in Hstep;
    (destruct (closed p);
     [simplify_eq/=; by eexists|repeat case_match; simplify_eq/=; by eexists]).
Qed.

(** ** [Exists] and [Get] *)

(** On an open Provider [Exists] and [Get] make the same single native
    read and change nothing else; [Exists] reports true exactly when [Get]
    returns a secret, false without error when [Get] reports
    [ErrSecretNotFound], and otherwise the error with the cause that [Get]
    reports. *)
Theorem exists_agrees_with_get p path w :
  closed p = false →
  ∃ w1, (Provider_Get p path w).2 = w1 ∧ (Provider_Exists p path w).2 = w1 ∧
    store w1 = store w ∧ observer w1 = observer w ∧
    trace w1 = trace w ++ [CallGet (ServiceName (config p)) path] ∧
    match (Provider_Get p path w).1 with
    | Ok _ => (Provider_Exists p path w).1 = (true, None)
    | Err e =>
        (e = VaultError "Get" path "keyring" ErrSecretNotFound ∧
         (Provider_Exists p path w).1 = (false, None)) ∨
        ∃ cause, errors_Is is_ErrNotFound cause = false ∧
          e = VaultError "Get" path "keyring" cause ∧
          (Provider_Exists p path w).1
            = (false, Some (VaultError "Exists" path "keyring" cause))
    end.
Proof.
  intros Hopen. unfold Provider_Get, Provider_Exists. rewrite Hopen.
  destruct (zkeyring_Get _ path w) as [[value|err] w0] eqn:Hg;
    destruct (zkeyring_Get_frame _ _ _ _ _ Hg) as (Hs & Ho & Ht & _).
  - exists w0. split_and!; try done; by repeat case_match.
  - exists w0. destruct (errors_Is is_ErrNotFound err) eqn:Herr;
      split_and!; try done; cbn; eauto.
Qed.

(** ** Writes that fail *)

(** A [Set] or a [Delete] that returns an error has written nothing: the
    native store and the state of the callback are as before, and at most
    one native call was made, the one on the path itself. *)
Theorem failed_write_changes_nothing p path secret w e w1 :
  (Provider_Set p path secret w = (Some e, w1) →
   store w1 = store w ∧ observer w1 = observer w ∧
   (trace w1 = trace w ∨
    ∃ value, trace w1 = trace w ++ [CallSet (ServiceName (config p)) path value])) ∧
  (Provider_Delete p path w = (Some e, w1) →
   store w1 = store w ∧ observer w1 = observer w ∧
   (trace w1 = trace w ∨
    trace w1 = trace w ++ [CallDelete (ServiceName (config p)) path])).
Proof.
  split.
  - unfold Provider_Set. destruct (closed p); [intros [= _ <-]; auto|].
    destruct (if JSONFormat (config p) then _ else _) as [value|e'];
      [|intros [= _ <-]; auto].
    destruct (zkeyring_Set _ path value w) as [[e'|] w0] eqn:Hs; [|done].
    destruct (zkeyring_Set_frame _ _ _ _ _ _ Hs) as (Ho & Ht & _ & Hst).
    intros [= _ <-]. eauto.
  - unfold Provider_Delete. destruct (closed p); [intros [= _ <-]; auto|].
    destruct (zkeyring_Delete _ path w) as [[e'|] w0] eqn:Hd; [|done].
    destruct (zkeyring_Delete_frame _ _ _ _ _ Hd) as (Ho & Ht & _ & Hst).
    destruct (errors_Is _ _); [done|]. intros [= _ <-]. auto.
Qed.

(** ** [Delete], then [Get] *)

(** On an open Provider a [Delete] whose native call does not fail returns
    success and leaves no entry at the path, whether there was one or not;
    a [Get] that follows reports [ErrSecretNotFound] and an [Exists] that
    follows reports false. *)
Theorem delete_removes_entry p path w :
  closed p = false → undisturbed 1 w = true →
  ∃ w1, Provider_Delete p path w = (None, w1) ∧
    store w1 !! (ServiceName (config p), path) = None ∧
    (undisturbed 1 w1 = true →
     (Provider_Get p path w1).1
       = Err (VaultError "Get" path "keyring" ErrSecretNotFound) ∧
     (Provider_Exists p path w1).1 = (false, None)).
Proof.
  intros Hopen Hq.
  assert (∃ w1, Provider_Delete p path w = (None, w1) ∧
                store w1 !! (ServiceName (config p), path) = None) as (w1 & Hdel & Habs).
  { unfold Provider_Delete. rewrite Hopen.
    destruct (store w !! (ServiceName (config p), path)) as [value|] eqn:Hs.
    - destruct (zkeyring_Delete_present _ _ _ _ Hs Hq) as (w0 & -> & Hst & _).
      eexists. split; [done|].
      destruct (negb _) eqn:Hne.
      + rewrite removeFromIndex_frame, Hst, lookup_delete_eq; [done|].
        apply negb_true_iff, String.eqb_neq in Hne. congruence.
      + by rewrite Hst, lookup_delete_eq.
    - destruct (zkeyring_Delete_absent _ _ _ Hs Hq) as [w0 Hd]. rewrite Hd. cbn.
      destruct (zkeyring_Delete_frame _ _ _ _ _ Hd) as (_ & _ & _ & Hst).
      eexists. split; [done|]. by rewrite Hst. }
  exists w1. split_and!; [done..|]. intros Hq1.
  unfold Provider_Get, Provider_Exists. rewrite Hopen.
  destruct (zkeyring_Get_undisturbed (ServiceName (config p)) path w1 Hq1) as (w2 & -> & _).
  by rewrite Habs.
Qed.

(** ** Plain mode *)

(** In plain mode a [Set] whose native write does not fail, followed by a
    [Get] whose native read does not fail, gives back the primary value
    byte for byte, whatever its bytes and whatever happened to the index;
    the fields and the metadata that were written are not kept. *)
Theorem plain_round_trip p path secret w :
  closed p = false → JSONFormat (config p) = false → undisturbed 1 w = true →
  ∃ w1, Provider_Set p path secret w = (None, w1) ∧
    (undisturbed 1 w1 = true →
     (Provider_Get p path w1).1
       = Ok (vault.mkSecret (vault.Value secret) ∅ (vault.mkMetadata "keyring" path ∅))).
Proof.
  intros Hopen Hplain Hq.
  destruct (Set_succeeds p path secret (vault.Value secret) w) as [w1 Hset];
    [done|by unfold encode; rewrite Hplain|done|].
  exists w1. split; [done|]. intros Hq1.
  destruct (Set_stored _ _ _ _ _ Hopen Hset) as (value & Henc & Hstore).
  unfold encode in Henc. rewrite Hplain in Henc. injection Henc as <-.
  destruct (Get_stored p path _ w1 Hopen Hq1 Hstore) as [w2 ->]. by rewrite Hplain.
Qed.

End Operations.

(** * The index over sequences of operations *)

Section Index.

Context {Obs : Type}.
Implicit Types (p : Provider (Obs:=Obs)) (w : World (Obs:=Obs)).

(** ** One load, one save *)

(** What [loadIndex] returns is the stored index or, when the read or the
    decoding failed, the empty index. *)
Lemma loadIndex_cases p w index w1 :
  Provider_loadIndex p w = (index, w1) →
  store w1 = store w ∧ (index = storedIndex p w ∨ index = []).
Proof.
  intros Hload. destruct (loadIndex_spec _ _ _ _ Hload) as (r & w0 & Hget & -> & Hs & _).
  split; [done|]. revert Hget. unfold zkeyring_Get, nextFault, logCall, storedIndex. simpl.
  destruct (faults w) as [|[e|] fs]; simpl;
    try (destruct (store w !! _); intros [= <- _]; by left).
  intros [= <- _]. by right.
Qed.

Lemma saveIndex_cases p index w :
  store (Provider_saveIndex p index w) = store w ∨
  storedIndex p (Provider_saveIndex p index w) = map coerced index.
Proof.
  destruct (saveIndex_store p index w) as [Hs|(data & Hm & Hs)]; [by left|right].
  destruct (Unmarshal_Marshal_index index) as (data' & Hm' & Hu).
  cbn [json_Marshal_index encoding_json] in Hm. rewrite Hm in Hm'. injection Hm' as <-.
  unfold storedIndex, loadedIndex. rewrite Hs, lookup_insert_eq.
  cbn [json_Unmarshal_index encoding_json]. by rewrite Hu.
Qed.

Lemma storedIndex_store p w w1 :
  store w1 !! (ServiceName (config p), indexKey) = store w !! (ServiceName (config p), indexKey) →
  storedIndex p w1 = storedIndex p w.
Proof. unfold storedIndex. by intros ->. Qed.

(** ** No duplicates *)

Lemma NoDup_snoc (index : list string) (key : string) :
  NoDup index → key ∉ index → NoDup (index ++ [key]).
Proof.
  intros Hnd Hnin. apply NoDup_app. split_and!; [done| |apply NoDup_singleton].
  intros k Hk ->%list_elem_of_singleton. done.
Qed.

Lemma addToIndex_NoDup p key w :
  utf8.ValidString key = true → NoDup (storedIndex p w) →
  NoDup (storedIndex p (Provider_addToIndex p key w)).
Proof.
  intros Hvalid Hnd. unfold Provider_addToIndex.
  destruct (Provider_loadIndex p w) as [index w1] eqn:Hload.
  destruct (loadIndex_cases _ _ _ _ Hload) as [Hs Hidx].
  pose proof (loadIndex_valid _ _ _ _ Hload) as Hv.
  assert (NoDup index) by (destruct Hidx as [-> | ->]; [done|constructor]).
  assert (Hsame : storedIndex p w1 = storedIndex p w) by (apply storedIndex_store; by rewrite Hs).
  destruct (indexHas index key) eqn:Hhas; [by rewrite Hsame|].
  destruct (saveIndex_cases p (index ++ [key]) w1) as [Hs2 | ->].
  - rewrite (storedIndex_store p w1) by (by rewrite Hs2). by rewrite Hsame.
  - rewrite map_coerced_valid by (apply Forall_app; split; [done|by constructor]).
    apply NoDup_snoc; [done|]. intros Hin%indexHas_spec. congruence.
Qed.

Lemma removeFromIndex_NoDup p key w :
  NoDup (storedIndex p w) → NoDup (storedIndex p (Provider_removeFromIndex p key w)).
Proof.
  intros Hnd. unfold Provider_removeFromIndex.
  destruct (Provider_loadIndex p w) as [index w1] eqn:Hload.
  destruct (loadIndex_cases _ _ _ _ Hload) as [Hs Hidx].
  pose proof (loadIndex_valid _ _ _ _ Hload) as Hv.
  assert (NoDup index) by (destruct Hidx as [-> | ->]; [done|constructor]).
  assert (Hsame : storedIndex p w1 = storedIndex p w) by (apply storedIndex_store; by rewrite Hs).
  rewrite indexWithout_stdpp_filter.
  destruct (saveIndex_cases p (filter (λ k, k ≠ key) index) w1) as [Hs2 | ->].
  - rewrite (storedIndex_store p w1) by (by rewrite Hs2). by rewrite Hsame.
  - rewrite map_coerced_valid; [by apply NoDup_filter|].
    apply Forall_forall. intros k [_ Hk]%list_elem_of_filter.
    by apply (proj1 (Forall_forall _ _) Hv).
Qed.

Lemma NoDup_List_filter {A : Type} (keep : A → bool) (l : list A) :
  NoDup l → NoDup (List.filter keep l).
Proof.
  induction 1 as [|x l Hx _ IH]; cbn [List.filter]; [constructor|].
  destruct (keep x); [|done]. constructor; [|done].
  rewrite list_elem_of_In, filter_In, <- list_elem_of_In. by intros [? _].
Qed.

Lemma storedIndex_absent p w :
  store w !! (ServiceName (config p), indexKey) = None → storedIndex p w = [].
Proof. unfold storedIndex. by intros ->. Qed.

Lemma step_NoDup op p w out p1 w1 :
  setsValid op → NoDup (storedIndex p w) →
  step op (p, w) = (out, (p1, w1)) →
  config p1 = config p ∧ NoDup (storedIndex p w1) ∧
  ∀ keys, out = OutList (Ok keys) → NoDup keys.
Proof.
  intros Hop Hnd Hstep.
  assert (Hcfg : config p1 = config p).
  { destruct op; cbn [step] in Hstep; unfold Provider_Close in Hstep;
      repeat match type of Hstep with
             | context [let (_, _) := ?x in _] => destruct x
             end; by simplify_eq. }
  assert (Hkeep : writes op = false ∨ closed p = true → NoDup (storedIndex p w1)).
  { intros H. rewrite (storedIndex_store p w); [done|].
    eapply step_frame; [done|]. destruct H; auto. }
  split; [done|].
  destruct op as [path|path secret|path|path|prefix|]; cbn [step] in Hstep.
  - split; [by apply Hkeep; left|]. intros keys ->.
    by destruct (Provider_Get p path w).
  - split; [|intros keys ->; by destruct (Provider_Set p path secret w)].
    destruct (closed p) eqn:Hc; [by apply Hkeep; right|].
    unfold Provider_Set in Hstep. rewrite Hc in Hstep. destruct Hop as [Hne Hvalid].
    destruct (if JSONFormat (config p) then _ else _) as [value|e'];
      [|injection Hstep as <- <- <-; by apply Hnd].
    destruct (zkeyring_Set _ path value w) as [[e'|] w0] eqn:Hs;
      destruct (zkeyring_Set_frame _ _ _ _ _ _ Hs) as (_ & _ & _ & Hst);
      injection Hstep as <- <- <-.
    { rewrite (storedIndex_store p w); [done|by rewrite Hst]. }
    rewrite (proj2 (String.eqb_neq _ _)) by done. cbn [negb].
    apply addToIndex_NoDup; [done|]. rewrite (storedIndex_store p w); [done|].
    rewrite Hst. apply lookup_insert_ne. congruence.
  - split; [|intros keys ->; by destruct (Provider_Delete p path w)].
    destruct (closed p) eqn:Hc; [by apply Hkeep; right|].
    unfold Provider_Delete in Hstep. rewrite Hc in Hstep.
    destruct (zkeyring_Delete _ path w) as [[e'|] w0] eqn:Hd;
      destruct (zkeyring_Delete_frame _ _ _ _ _ Hd) as (_ & _ & _ & Hst).
    { assert (w1 = w0) as -> by (destruct (errors_Is _ _); by injection Hstep).
      rewrite (storedIndex_store p w); [done|by rewrite Hst]. }
    injection Hstep as <- <- <-. destruct (String.eqb_spec path indexKey) as [->|Hne]; cbn [negb].
    + rewrite storedIndex_absent; [constructor|]. by rewrite Hst, lookup_delete_eq.
    + apply removeFromIndex_NoDup. rewrite (storedIndex_store p w); [done|].
      rewrite Hst. apply lookup_delete_ne. congruence.
  - split; [by apply Hkeep; left|]. intros keys ->.
    by destruct (Provider_Exists p path w).
  - split; [by apply Hkeep; left|]. intros keys ->.
    unfold Provider_List in Hstep. destruct (closed p); [done|].
    destruct (Provider_loadIndex p w) as [index w0] eqn:Hload.
    destruct (loadIndex_cases _ _ _ _ Hload) as [_ Hidx]. injection Hstep as <- _ _.
    rewrite foldl_append_filter. cbn [app]. apply NoDup_List_filter.
    destruct Hidx as [-> | ->]; [done|constructor].
  - split; [by apply Hkeep; left|]. intros keys ->. by unfold Provider_Close in Hstep.
Qed.

End Index.

(** The index never lists a path twice.  Starting from a stored index
    without duplicates (or from none), after any sequence of operations
    whose [Set]s are on paths that are valid UTF-8 and not the reserved key,
    whatever the native layer fails on, the stored index has no duplicates
    and no [List] of the sequence has returned a path twice. *)
Theorem index_never_duplicates {Obs : Type} (p p1 : Provider (Obs:=Obs)) (w w1 : World)
    (ops : list Op) (outs : list Outcome) :
  NoDup (storedIndex p w) → Forall setsValid ops →
  run ops (p, w) = (outs, (p1, w1)) →
  NoDup (storedIndex p w1) ∧
  Forall (λ out, ∀ keys, out = OutList (Ok keys) → NoDup keys) outs.
Proof.
  intros Hnd Hops. revert p w outs Hnd.
  induction Hops as [|op ops Hop _ IH]; intros p w outs Hnd.
  - by intros [= <- <- <-].
  - cbn [run]. destruct (step op (p, w)) as [out [p' w']] eqn:Hstep.
    destruct (run ops (p', w')) as [outs' st] eqn:Hrun. intros [= <- ->].
    destruct (step_NoDup _ _ _ _ _ _ Hop Hnd Hstep) as (Hcfg & Hnd' & Hout).
    assert (Hp : ∀ w, storedIndex p' w = storedIndex p w)
      by (intros; unfold storedIndex; by rewrite Hcfg).
    rewrite <- Hp in Hnd'. destruct (IH _ _ _ Hnd' Hrun) as [Hnd1 Houts].
    rewrite Hp in Hnd1. by split; [|constructor].
Qed.

(** * Sequences of operations when nothing fails *)

Section Quiet.

Context {Obs : Type}.
Implicit Types (p : Provider (Obs:=Obs)) (w : World (Obs:=Obs)).

(** ** When the native layer never fails *)

Lemma quiet_undisturbed n w : faults w = [] → undisturbed n w = true.
Proof. unfold undisturbed. intros ->. by destruct n. Qed.

Lemma zkeyring_Get_quiet service key w :
  faults w = [] →
  ∃ w1, zkeyring_Get service key w =
          (match store w !! (service, key) with
           | Some v => Ok v
           | None => Err ErrNotFound
           end, w1) ∧
        store w1 = store w ∧ faults w1 = [] ∧ observer w1 = observer w.
Proof.
  intros Hf. destruct (zkeyring_Get_undisturbed service key w (quiet_undisturbed 1 w Hf))
    as (w1 & Hget & Hf1).
  destruct (zkeyring_Get_frame _ _ _ _ _ Hget) as (Hs & Ho & _).
  exists w1. rewrite Hf in Hf1. by split_and!.
Qed.

Lemma loadIndex_quiet p w :
  faults w = [] → indexReadable p w →
  ∃ w1, Provider_loadIndex p w = (storedIndex p w, w1) ∧
        store w1 = store w ∧ faults w1 = [] ∧ observer w1 = observer w.
Proof.
  intros Hf Hr. unfold Provider_loadIndex, storedIndex, loadedIndex.
  destruct (zkeyring_Get_quiet (ServiceName (config p)) indexKey w Hf)
    as (w1 & -> & Hs & Hf1 & Ho).
  destruct (store w !! _) as [text|] eqn:Ht; [|by exists w1].
  destruct (Hr text Ht) as [index Hu]. cbn [json_Unmarshal_index encoding_json].
  rewrite Hu. by exists w1.
Qed.

Lemma saveIndex_quiet p index w :
  faults w = [] →
  faults (Provider_saveIndex p index w) = [] ∧
  observer (Provider_saveIndex p index w) = observer w ∧
  storedIndex p (Provider_saveIndex p index w) = map coerced index ∧
  indexReadable p (Provider_saveIndex p index w).
Proof.
  intros Hf. destruct (Unmarshal_Marshal_index index) as (data & Hm & Hu).
  unfold Provider_saveIndex. cbn [json_Marshal_index encoding_json]. rewrite Hm.
  destruct (zkeyring_Set_undisturbed (ServiceName (config p)) indexKey data w
              (quiet_undisturbed 1 w Hf)) as (w1 & Hset & Hs & Hf1).
  destruct (zkeyring_Set_frame _ _ _ _ _ _ Hset) as (Ho & _). rewrite Hset.
  rewrite Hf in Hf1. split_and!; [done..| |].
  - unfold storedIndex, loadedIndex. rewrite Hs, lookup_insert_eq.
    cbn [json_Unmarshal_index encoding_json]. by rewrite Hu.
  - intros text. rewrite Hs, lookup_insert_eq. intros [= <-]. eauto.
Qed.

Lemma indexReadable_store p w w1 :
  store w1 !! (ServiceName (config p), indexKey) = store w !! (ServiceName (config p), indexKey) →
  indexReadable p w → indexReadable p w1.
Proof. unfold indexReadable. by intros ->. Qed.

Lemma addToIndex_quiet p key w :
  faults w = [] → indexReadable p w →
  faults (Provider_addToIndex p key w) = [] ∧
  observer (Provider_addToIndex p key w) = observer w ∧
  indexReadable p (Provider_addToIndex p key w) ∧
  storedIndex p (Provider_addToIndex p key w)
    = (if bool_decide (key ∈ storedIndex p w) then storedIndex p w
       else storedIndex p w ++ [coerced key]).
Proof.
  intros Hf Hr. unfold Provider_addToIndex.
  destruct (loadIndex_quiet p w Hf Hr) as (w1 & -> & Hs & Hf1 & Ho).
  assert (Hsame : storedIndex p w1 = storedIndex p w)
    by (apply storedIndex_store; by rewrite Hs).
  destruct (indexHas (storedIndex p w) key) eqn:Hhas.
  - rewrite bool_decide_eq_true_2 by (by apply indexHas_spec).
    split_and!; [done..| |done]. apply (indexReadable_store p w); [by rewrite Hs|done].
  - rewrite bool_decide_eq_false_2 by (intros ?%indexHas_spec; congruence).
    destruct (saveIndex_quiet p (storedIndex p w ++ [key]) w1 Hf1) as (? & -> & -> & ?).
    split_and!; [done..|]. rewrite map_app, (map_coerced_valid _ (storedIndex_valid p w)).
    done.
Qed.

Lemma removeFromIndex_quiet p key w :
  faults w = [] → indexReadable p w →
  faults (Provider_removeFromIndex p key w) = [] ∧
  observer (Provider_removeFromIndex p key w) = observer w ∧
  indexReadable p (Provider_removeFromIndex p key w) ∧
  storedIndex p (Provider_removeFromIndex p key w)
    = filter (λ k, k ≠ key) (storedIndex p w).
Proof.
  intros Hf Hr. unfold Provider_removeFromIndex.
  destruct (loadIndex_quiet p w Hf Hr) as (w1 & -> & Hs & Hf1 & Ho).
  rewrite indexWithout_stdpp_filter.
  destruct (saveIndex_quiet p (filter (λ k, k ≠ key) (storedIndex p w)) w1 Hf1)
    as (? & -> & -> & ?).
  split_and!; [done..|]. apply map_coerced_valid, Forall_forall.
  intros k [_ Hk]%list_elem_of_filter.
  by apply (proj1 (Forall_forall _ _) (storedIndex_valid p w)).
Qed.

(** One operation other than a [Set] of the reserved key, when the native
    layer does not fail and the stored index is readable: the callback is
    not called, and the operation fails only on a closed Provider or, for
    [Get], on a path without entry. *)
Lemma step_quiet op p w out p1 w1 :
  ¬ setsReserved op → faults w = [] → indexReadable p w →
  step op (p, w) = (out, (p1, w1)) →
  faults w1 = [] ∧ indexReadable p w1 ∧ observer w1 = observer w ∧
  ∀ e, outcomeError out = Some e →
    (closed p = true ∧ errors_Is is_ErrClosed e = true) ∨
    ∃ path, op = OpGet path ∧ e = VaultError "Get" path "keyring" ErrSecretNotFound.
Proof.
  intros Hop Hf Hr Hstep.
  destruct op as [path|path secret|path|path|prefix|]; cbn [step] in Hstep.
  - unfold Provider_Get in Hstep. destruct (closed p); [simplify_eq/=; split_and!; try done; intros ? [= <-]; auto|].
    destruct (zkeyring_Get_quiet (ServiceName (config p)) path w Hf)
      as (w0 & Hget & Hs & Hf0 & Ho). rewrite Hget in Hstep.
    assert (w1 = w0) as -> by (repeat case_match; by simplify_eq).
    split_and!; [done|by apply (indexReadable_store p w); [rewrite Hs|]|done|].
    intros e He. right. exists path. split; [done|].
    destruct (store w !! _); repeat case_match; by simplify_eq/=.
  - unfold Provider_Set in Hstep. destruct (closed p); [simplify_eq/=; split_and!; try done; intros ? [= <-]; auto|].
    destruct (encode_total secret (JSONFormat (config p))) as [value Henc].
    unfold encode in Henc. rewrite Henc in Hstep.
    destruct (zkeyring_Set_undisturbed (ServiceName (config p)) path value w
                (quiet_undisturbed 1 w Hf)) as (w0 & Hset & Hs & Hf0).
    destruct (zkeyring_Set_frame _ _ _ _ _ _ Hset) as (Ho & _).
    rewrite Hset in Hstep. rewrite Hf in Hf0. simpl in Hop.
    rewrite (proj2 (String.eqb_neq _ _)) in Hstep by done. cbn [negb] in Hstep.
    injection Hstep as <- <- <-.
    assert (Hr0 : indexReadable p w0).
    { apply (indexReadable_store p w); [|done]. rewrite Hs. apply lookup_insert_ne.
      congruence. }
    destruct (addToIndex_quiet p path w0 Hf0 Hr0) as (? & -> & ? & _).
    by split_and!.
  - unfold Provider_Delete in Hstep. destruct (closed p); [simplify_eq/=; split_and!; try done; intros ? [= <-]; auto|].
    destruct (store w !! (ServiceName (config p), path)) as [value|] eqn:Hv.
    + destruct (zkeyring_Delete_present _ _ _ _ Hv (quiet_undisturbed 1 w Hf))
        as (w0 & Hdel & Hs & Hf0).
      destruct (zkeyring_Delete_frame _ _ _ _ _ Hdel) as (Ho & _).
      rewrite Hdel in Hstep. rewrite Hf in Hf0. injection Hstep as <- <- <-.
      destruct (String.eqb_spec path indexKey) as [->|Hne]; cbn [negb].
      * split_and!; [done| |done..]. intros text. by rewrite Hs, lookup_delete_eq.
      * assert (Hr0 : indexReadable p w0).
        { apply (indexReadable_store p w); [|done]. rewrite Hs. apply lookup_delete_ne.
          congruence. }
        destruct (removeFromIndex_quiet p path w0 Hf0 Hr0) as (? & -> & ? & _).
        by split_and!.
    + destruct (zkeyring_Delete_absent _ _ _ Hv (quiet_undisturbed 1 w Hf)) as [w0 Hdel].
      destruct (zkeyring_Delete_frame _ _ _ _ _ Hdel) as (Ho & _ & Hf0 & Hs).
      rewrite Hdel in Hstep. cbn in Hstep. injection Hstep as <- <- <-.
      rewrite Hf in Hf0. split_and!; [done| |done..].
      apply (indexReadable_store p w); [by rewrite Hs|done].
  - unfold Provider_Exists in Hstep. destruct (closed p); [simplify_eq/=; split_and!; try done; intros ? [= <-]; auto|].
    destruct (zkeyring_Get_quiet (ServiceName (config p)) path w Hf)
      as (w0 & Hget & Hs & Hf0 & Ho). rewrite Hget in Hstep.
    assert (w1 = w0 ∧ outcomeError out = None) as [-> Hout]
      by (destruct (store w !! _); cbn in Hstep; by simplify_eq).
    split_and!; [done|by apply (indexReadable_store p w); [rewrite Hs|]|done|].
    intros e. by rewrite Hout.
  - unfold Provider_List in Hstep. destruct (closed p); [simplify_eq/=; split_and!; try done; intros ? [= <-]; auto|].
    destruct (loadIndex_quiet p w Hf Hr) as (w0 & Hload & Hs & Hf0 & Ho).
    rewrite Hload in Hstep. injection Hstep as <- <- <-.
    split_and!; [done|by apply (indexReadable_store p w); [rewrite Hs|]|done..].
  - unfold Provider_Close in Hstep. by simplify_eq/=.
Qed.

End Quiet.

(** When the native layer never fails and the stored index is readable,
    after any sequence of operations without a [Set] on the reserved key the
    [OnIndexError] callback has not been called, and the only errors
    returned are [ErrClosed] (after a [Close]) and [ErrSecretNotFound] (a
    [Get] on a path without entry). *)
Theorem quiet_run_no_callback {Obs : Type} (p p1 : Provider (Obs:=Obs)) (w w1 : World)
    (ops : list Op) (outs : list Outcome) :
  faults w = [] → indexReadable p w → Forall (λ op, ¬ setsReserved op) ops →
  run ops (p, w) = (outs, (p1, w1)) →
  observer w1 = observer w ∧
  Forall (λ out, ∀ e, outcomeError out = Some e →
            errors_Is is_ErrClosed e = true ∨ errors_Is is_ErrSecretNotFound e = true)
         outs.
Proof.
  intros Hf Hr Hops. revert p w outs Hf Hr.
  induction Hops as [|op ops Hop _ IH]; intros p w outs Hf Hr.
  - by intros [= <- <- <-].
  - cbn [run]. destruct (step op (p, w)) as [out [p' w']] eqn:Hstep.
    destruct (run ops (p', w')) as [outs' st] eqn:Hrun. intros [= <- ->].
    pose proof (step_config _ _ _ _ _ _ Hstep) as Hcfg.
    destruct (step_quiet _ _ _ _ _ _ Hop Hf Hr Hstep) as (Hf' & Hr' & Ho' & Herr).
    assert (Hr'' : indexReadable p' w') by (unfold indexReadable; by rewrite Hcfg).
    destruct (IH _ _ _ Hf' Hr'' Hrun) as [Ho1 Houts].
    split; [by rewrite Ho1|]. constructor; [|done].
    intros e [[_ ?]|(path & _ & ->)]%Herr; auto.
Qed.

Section Sync.

Context {Obs : Type}.
Implicit Types (p : Provider (Obs:=Obs)) (w : World (Obs:=Obs)).

(** ** The index and the entries of the store *)

Lemma listsStored_ext p w w1 :
  (∀ key, store w1 !! (ServiceName (config p), key)
          = store w !! (ServiceName (config p), key)) →
  listsStored p w → listsStored p w1.
Proof.
  intros Hs Hl key. rewrite (storedIndex_store p w) by apply Hs. by rewrite Hs.
Qed.

Lemma step_sync op p w out p1 w1 :
  validOp op → faults w = [] → indexReadable p w → listsStored p w →
  step op (p, w) = (out, (p1, w1)) → listsStored p w1.
Proof.
  intros Hop Hf Hr Hl Hstep.
  assert (Hkeep : writes op = false ∨ closed p = true → listsStored p w1).
  { intros H. apply (listsStored_ext p w); [|done]. intros key.
    eapply step_frame; [done|]. destruct H; auto. }
  destruct op as [path|path secret|path|path|prefix|]; try (by apply Hkeep; left);
    (destruct (closed p) eqn:Hc; [by apply Hkeep; right|]); cbn [step] in Hstep.
  - unfold Provider_Set in Hstep. rewrite Hc in Hstep. destruct Hop as [Hne Hvalid].
    destruct (encode_total secret (JSONFormat (config p))) as [value Henc].
    unfold encode in Henc. rewrite Henc in Hstep.
    destruct (zkeyring_Set_undisturbed (ServiceName (config p)) path value w
                (quiet_undisturbed 1 w Hf)) as (w0 & Hset & Hs & Hf0).
    rewrite Hset in Hstep. rewrite Hf in Hf0.
    rewrite (proj2 (String.eqb_neq _ _)) in Hstep by done. cbn [negb] in Hstep.
    injection Hstep as <- <- <-.
    assert (Hi0 : store w0 !! (ServiceName (config p), indexKey)
                  = store w !! (ServiceName (config p), indexKey)).
    { rewrite Hs. apply lookup_insert_ne. congruence. }
    destruct (addToIndex_quiet p path w0 Hf0 (indexReadable_store p w w0 Hi0 Hr))
      as (_ & _ & _ & Hidx).
    rewrite (storedIndex_store p w w0 Hi0), (coerced_valid _ Hvalid) in Hidx.
    intros key. rewrite Hidx.
    destruct (decide (key = indexKey)) as [->|Hk].
    { transitivity (indexKey ∈ storedIndex p w).
      - case_bool_decide; [done|]. rewrite elem_of_app, list_elem_of_singleton.
        split; [intros [?|?]; [done|congruence]|auto].
      - rewrite (Hl indexKey). split; [by intros [? _]|by intros [? _]]. }
    rewrite addToIndex_frame, Hs by congruence.
    destruct (decide (key = path)) as [->|Hp].
    + rewrite lookup_insert_eq. split; [by eauto|]. intros _.
      case_bool_decide; [done|]. rewrite elem_of_app, list_elem_of_singleton. auto.
    + rewrite lookup_insert_ne by congruence. rewrite <- (Hl key).
      case_bool_decide; [done|]. rewrite elem_of_app, list_elem_of_singleton.
      split; [intros [?|?]; [done|congruence]|auto].
  - unfold Provider_Delete in Hstep. rewrite Hc in Hstep. simpl in Hop.
    destruct (store w !! (ServiceName (config p), path)) as [value|] eqn:Hv.
    + destruct (zkeyring_Delete_present _ _ _ _ Hv (quiet_undisturbed 1 w Hf))
        as (w0 & Hdel & Hs & Hf0).
      rewrite Hdel in Hstep. rewrite Hf in Hf0.
      rewrite (proj2 (String.eqb_neq _ _)) in Hstep by done. cbn [negb] in Hstep.
      injection Hstep as <- <- <-.
      assert (Hi0 : store w0 !! (ServiceName (config p), indexKey)
                    = store w !! (ServiceName (config p), indexKey)).
      { rewrite Hs. apply lookup_delete_ne. congruence. }
      destruct (removeFromIndex_quiet p path w0 Hf0 (indexReadable_store p w w0 Hi0 Hr))
        as (_ & _ & _ & Hidx).
      rewrite (storedIndex_store p w w0 Hi0) in Hidx.
      intros key. rewrite Hidx, list_elem_of_filter, (Hl key).
      destruct (decide (key = indexKey)) as [->|Hk]; [by split; intros (? & ?); tauto|].
      rewrite removeFromIndex_frame, Hs by congruence.
      destruct (decide (key = path)) as [->|Hp].
      * rewrite lookup_delete_eq. split; [tauto|]. by intros [_ []].
      * rewrite lookup_delete_ne by congruence. tauto.
    + destruct (zkeyring_Delete_absent _ _ _ Hv (quiet_undisturbed 1 w Hf)) as [w0 Hdel].
      destruct (zkeyring_Delete_frame _ _ _ _ _ Hdel) as (_ & _ & _ & Hs).
      rewrite Hdel in Hstep. cbn in Hstep. injection Hstep as <- <- <-.
      apply (listsStored_ext p w); [|done]. intros key. by rewrite Hs.
Qed.

End Sync.

(** [List] is exact when nothing fails.  When the native layer never
    fails, starting from a store whose index is readable and lists exactly
    the paths that have an entry (an empty store, for one), after any
    sequence of operations whose [Set]s and [Delete]s are not on the
    reserved key and whose [Set]s are on valid UTF-8 paths, the stored index
    lists exactly the paths that have an entry, each once, and that is what
    [List] with the empty prefix returns. *)
Theorem list_matches_store {Obs : Type} (p p1 : Provider (Obs:=Obs)) (w w1 : World)
    (ops : list Op) (outs : list Outcome) :
  faults w = [] → indexReadable p w → listsStored p w → NoDup (storedIndex p w) →
  Forall validOp ops →
  run ops (p, w) = (outs, (p1, w1)) →
  listsStored p w1 ∧ NoDup (storedIndex p w1) ∧
  (closed p1 = false → (Provider_List p1 "" w1).1 = Ok (storedIndex p w1)).
Proof.
  intros Hf Hr Hl Hnd Hops. revert p w outs Hf Hr Hl Hnd.
  induction Hops as [|op ops Hop _ IH]; intros p w outs Hf Hr Hl Hnd.
  - intros [= <- <- <-]. split_and!; [done..|]. intros Hopen.
    by destruct (List_stored p w Hopen (quiet_undisturbed 1 w Hf)) as [w' ->].
  - cbn [run]. destruct (step op (p, w)) as [out [p' w']] eqn:Hstep.
    destruct (run ops (p', w')) as [outs' st] eqn:Hrun. intros [= <- ->].
    pose proof (step_config _ _ _ _ _ _ Hstep) as Hcfg.
    assert (Hsets : setsValid op ∧ ¬ setsReserved op).
    { destruct op; simpl in *; tauto. }
    destruct Hsets as [Hsv Hsr].
    destruct (step_quiet _ _ _ _ _ _ Hsr Hf Hr Hstep) as (Hf' & Hr' & _).
    pose proof (step_sync _ _ _ _ _ _ Hop Hf Hr Hl Hstep) as Hl'.
    destruct (step_NoDup _ _ _ _ _ _ Hsv Hnd Hstep) as (_ & Hnd' & _).
    assert (Hp : ∀ w, storedIndex p' w = storedIndex p w)
      by (intros; unfold storedIndex; by rewrite Hcfg).
    assert (Hr'' : indexReadable p' w') by (unfold indexReadable; by rewrite Hcfg).
    assert (Hl'' : listsStored p' w').
    { intros key. rewrite Hp, Hcfg. apply Hl'. }
    rewrite <- Hp in Hnd'.
    destruct (IH _ _ _ Hf' Hr'' Hl'' Hnd' Hrun) as (Hl1 & Hnd1 & Hlist).
    rewrite Hp in Hnd1, Hlist. split_and!; [|done..].
    intros key. rewrite <- Hp, <- Hcfg. apply Hl1.
Qed.

(** * The index when it cannot be read *)

(** When the read of the index fails (the native read with an error other
    than not-found, or the decoding of what was read) and the write that
    follows does not, [addToIndex] replaces the stored index by the index
    of the one key and [removeFromIndex] by the empty index: the paths that
    were listed before are listed no more.  The callback is told of the
    failed read. *)
Theorem unreadable_index_replaced {Obs : Type} (p : Provider (Obs:=Obs)) (key : string)
    (w w0 : World) (r : result string) :
  zkeyring_Get (ServiceName (config p)) indexKey w = (r, w0) →
  loadFailures r ≠ [] → undisturbed 1 w0 = true →
  storedIndex p (Provider_addToIndex p key w) = [coerced key] ∧
  storedIndex p (Provider_removeFromIndex p key w) = [] ∧
  observer (Provider_addToIndex p key w) = deliver p (loadFailures r) (observer w) ∧
  observer (Provider_removeFromIndex p key w) = deliver p (loadFailures r) (observer w).
Proof.
  intros Hget Hfail Hq.
  assert (Hempty : loadedIndex r = []).
  { revert Hfail. unfold loadFailures, loadedIndex. by repeat case_match. }
  destruct (Provider_loadIndex p w) as [index w1] eqn:Hload.
  destruct (loadIndex_spec _ _ _ _ Hload) as (r' & w0' & Hget' & -> & Hs & Hf & _ & Ho).
  rewrite Hget in Hget'. injection Hget' as <- <-. rewrite Hempty in *.
  assert (Hq1 : undisturbed 1 w1 = true) by (unfold undisturbed in *; by rewrite Hf).
  assert (Hsave : ∀ index,
    storedIndex p (Provider_saveIndex p index w1) = map coerced index ∧
    observer (Provider_saveIndex p index w1) = observer w1).
  { intros index. destruct (Unmarshal_Marshal_index index) as (data & Hm & Hu).
    destruct (saveIndex_undisturbed (codec:=encoding_json) p _ data w1 Hm Hq1) as [Hst _].
    split.
    - unfold storedIndex, loadedIndex. rewrite Hst, lookup_insert_eq.
      cbn [json_Unmarshal_index encoding_json]. by rewrite Hu.
    - rewrite saveIndex_spec. unfold saveFailures.
      cbn [json_Marshal_index encoding_json]. rewrite Hm.
      destruct (zkeyring_Set_undisturbed (ServiceName (config p)) indexKey data w1 Hq1)
        as (w2 & -> & _). apply deliver_nil. }
  unfold Provider_addToIndex, Provider_removeFromIndex. rewrite Hload.
  cbn [indexHas indexWithout foldl app].
  destruct (Hsave [key]) as [-> ->]. destruct (Hsave []) as [-> ->]. by rewrite Ho.
Qed.

(** * Structured mode and the capabilities *)

(** What [Get] returns after a [Set] in structured mode: the secret that
    decoding the text of the written one into the stamped secret gives. *)
Lemma Set_Get_structured {Obs : Type} (p : Provider (Obs:=Obs)) (path : string)
    (secret : vault.Secret) (w : World) :
  closed p = false → JSONFormat (config p) = true → undisturbed 1 w = true →
  ∃ w1, Provider_Set p path secret w = (None, w1) ∧
    (undisturbed 1 w1 = true →
     (Provider_Get p path w1).1
       = Ok (secretInto secret (vault.mkSecret "" ∅ (vault.mkMetadata "keyring" path ∅)))).
Proof.
  intros Hopen Hjson Hq.
  destruct (Unmarshal_Marshal_Secret secret
              (vault.mkSecret "" ∅ (vault.mkMetadata "keyring" path ∅)))
    as (data & Hm & Hu).
  destruct (Set_succeeds p path secret data w) as [w1 Hset];
    [done|by unfold encode; rewrite Hjson|done|].
  exists w1. split; [done|]. intros Hq1.
  destruct (Set_stored _ _ _ _ _ Hopen Hset) as (value & Henc & Hstore).
  unfold encode in Henc. rewrite Hjson in Henc.
  cbn [json_Marshal_Secret encoding_json] in Henc. rewrite Hm in Henc.
  injection Henc as <-.
  destruct (Get_stored p path _ w1 Hopen Hq1 Hstore) as [w2 ->]. rewrite Hjson.
  cbn [json_Unmarshal_Secret encoding_json]. by rewrite Hu.
Qed.

(** The capabilities say what the Provider does.  It reads, writes, deletes
    and lists; and a secret with fields, all in valid UTF-8, written by
    [Set] comes back from [Get] with its primary value, and with its fields
    exactly when [MultiField] is reported. *)
Theorem multi_field_capability {Obs : Type} (p : Provider (Obs:=Obs)) (path : string)
    (secret : vault.Secret) (w : World) :
  closed p = false → validSecret secret → vault.Fields secret ≠ ∅ →
  undisturbed 1 w = true →
  vault.Read (Provider_Capabilities p) = true ∧
  vault.Write (Provider_Capabilities p) = true ∧
  vault.Delete (Provider_Capabilities p) = true ∧
  vault.List (Provider_Capabilities p) = true ∧
  ∃ w1, Provider_Set p path secret w = (None, w1) ∧
    (undisturbed 1 w1 = true →
     ∃ got, (Provider_Get p path w1).1 = Ok got ∧
       vault.Value got = vault.Value secret ∧
       (vault.Fields got = vault.Fields secret ↔
        vault.MultiField (Provider_Capabilities p) = true)).
Proof.
  intros Hopen Hvalid Hfields Hq. split_and!; [done..|].
  cbn [Provider_Capabilities vault.MultiField].
  destruct (JSONFormat (config p)) eqn:Hjson.
  - destruct (Set_Get_structured p path secret w Hopen Hjson Hq) as (w1 & Hset & Hget).
    exists w1. split; [done|]. intros Hq1. eexists. split; [by apply Hget|].
    by destruct (secretInto_fresh secret (vault.mkMetadata "keyring" path ∅) Hvalid)
      as [-> ->].
  - destruct (Set_succeeds p path secret (vault.Value secret) w) as [w1 Hset];
      [done|by unfold encode; rewrite Hjson|done|].
    exists w1. split; [done|]. intros Hq1.
    destruct (Set_stored _ _ _ _ _ Hopen Hset) as (value & Henc & Hstore).
    unfold encode in Henc. rewrite Hjson in Henc. injection Henc as <-.
    destruct (Get_stored p path _ w1 Hopen Hq1 Hstore) as [w2 ->]. rewrite Hjson.
    eexists. split; [done|]. cbn [vault.Value vault.Fields vault.withValue].
    split; [done|]. split; [intros H; by destruct Hfields|done].
Qed.

(** In structured mode the tags written with a secret come back when they
    are valid UTF-8, and a secret written with no provider and no path in
    its metadata comes back with the provider name and the requested
    path. *)
Theorem structured_metadata_round_trip {Obs : Type} (p : Provider (Obs:=Obs))
    (path : string) (secret : vault.Secret) (w : World) :
  closed p = false → JSONFormat (config p) = true → undisturbed 1 w = true →
  ∃ w1, Provider_Set p path secret w = (None, w1) ∧
    (undisturbed 1 w1 = true →
     ∃ got, (Provider_Get p path w1).1 = Ok got ∧
       (validMap (vault.Tags (vault.Meta secret)) →
        vault.Tags (vault.Meta got) = vault.Tags (vault.Meta secret)) ∧
       (vault.Provider (vault.Meta secret) = "" →
        vault.Provider (vault.Meta got) = "keyring") ∧
       (vault.Path (vault.Meta secret) = "" → vault.Path (vault.Meta got) = path)).
Proof.
  intros Hopen Hjson Hq.
  destruct (Set_Get_structured p path secret w Hopen Hjson Hq) as (w1 & Hset & Hget).
  exists w1. split; [done|]. intros Hq1. eexists. split; [by apply Hget|].
  unfold secretInto, metadataInto. cbn [vault.Meta vault.Tags vault.Provider vault.Path].
  split_and!.
  - intros Htags. unfold json.isEmptyMap. case_bool_decide as He; [done|].
    by rewrite decodeMap_valid.
  - by intros ->.
  - by intros ->.
Qed.

(** * More on single operations *)

Section Visible.

Context {Obs : Type} {codec : JSON}.
Implicit Types (p : Provider (Obs:=Obs)) (w : World (Obs:=Obs)).

(** ** [Set], then [Exists] and [Get] *)

(** After a [Set] that returned success on an open Provider, whatever
    happened to the index, an [Exists] on the path whose native read does
    not fail reports true and a [Get] returns a secret: in plain mode the
    text that was stored, stamped with the provider name and the path. *)
Theorem set_makes_visible p path secret w w1 :
  closed p = false → Provider_Set p path secret w = (None, w1) →
  undisturbed 1 w1 = true →
  (Provider_Exists p path w1).1 = (true, None) ∧
  ∃ got, (Provider_Get p path w1).1 = Ok got ∧
    (JSONFormat (config p) = false →
     got = vault.mkSecret (vault.String secret) ∅ (vault.mkMetadata "keyring" path ∅)).
Proof.
  intros Hopen Hset Hq.
  destruct (Set_stored _ _ _ _ _ Hopen Hset) as (value & Henc & Hstore).
  destruct (zkeyring_Get_undisturbed (ServiceName (config p)) path w1 Hq) as (w2 & Hget & _).
  rewrite Hstore in Hget. split.
  - unfold Provider_Exists. by rewrite Hopen, Hget.
  - destruct (Get_stored p path _ w1 Hopen Hq Hstore) as [w3 ->]. eexists. split; [done|].
    intros Hplain. unfold encode in Henc. rewrite Hplain in *. by injection Henc as <-.
Qed.

(** ** The reserved key as a path *)

(** [Delete] on the reserved key deletes the index entry itself: when the
    native call does not fail, the stored index is empty afterwards, so
    that [List] shows nothing, while every secret is still in the store. *)
Theorem delete_reserved_key_empties_index p w :
  closed p = false → undisturbed 1 w = true →
  ∃ w1, Provider_Delete p indexKey w = (None, w1) ∧
    storedIndex p w1 = [] ∧
    (∀ key, key ≠ indexKey →
       store w1 !! (ServiceName (config p), key) = store w !! (ServiceName (config p), key)) ∧
    (undisturbed 1 w1 = true → (Provider_List p "" w1).1 = Ok []).
Proof.
  intros Hopen Hq.
  assert (∃ w1, Provider_Delete p indexKey w = (None, w1) ∧
            store w1 = delete (ServiceName (config p), indexKey) (store w))
    as (w1 & Hdel & Hs).
  { unfold Provider_Delete. rewrite Hopen.
    destruct (store w !! (ServiceName (config p), indexKey)) as [text|] eqn:Ht.
    - destruct (zkeyring_Delete_present _ _ _ _ Ht Hq) as (w0 & -> & Hst & _).
      rewrite String.eqb_refl. by exists w0.
    - destruct (zkeyring_Delete_absent _ _ _ Ht Hq) as [w0 Hd]. rewrite Hd. cbn.
      destruct (zkeyring_Delete_frame _ _ _ _ _ Hd) as (_ & _ & _ & Hst).
      exists w0. split; [done|]. rewrite Hst. symmetry. by apply delete_id. }
  assert (Hidx : storedIndex p w1 = []).
  { unfold storedIndex. by rewrite Hs, lookup_delete_eq. }
  exists w1. split_and!; [done..| |].
  - intros key Hne. rewrite Hs. apply lookup_delete_ne. congruence.
  - intros Hq1. destruct (List_stored p w1 Hopen Hq1) as [w2 ->]. by rewrite Hidx.
Qed.

(** ** Prefixes *)

Lemma string_app_assoc (a b c : string) : (a +:+ b) +:+ c = a +:+ (b +:+ c).
Proof.
  induction a as [|x a IH]; [done|].
  change (String x ((a +:+ b) +:+ c) = String x (a +:+ (b +:+ c))). by rewrite IH.
Qed.

(** Listing with a longer prefix is filtering the listing with the shorter
    one: [List(prefix + more)] returns the paths of [List(prefix)] that
    begin with [prefix + more], in the same order. *)
Theorem list_prefix_refines p prefix more w :
  closed p = false →
  ∃ keys, (Provider_List p prefix w).1 = Ok keys ∧
    (Provider_List p (prefix +:+ more) w).1
      = Ok (List.filter (λ key, strings_HasPrefix key (prefix +:+ more)) keys).
Proof.
  intros Hopen. unfold Provider_List. rewrite Hopen.
  destruct (Provider_loadIndex p w) as [index w1]. rewrite !foldl_append_filter.
  eexists. split; [done|]. cbn [fst app]. f_equal.
  induction index as [|key index IH]; [done|]. cbn [List.filter].
  destruct (strings_HasPrefix key (prefix +:+ more)) eqn:Hlong.
  - apply strings_HasPrefix_spec in Hlong as [rest Hkey].
    rewrite (proj2 (strings_HasPrefix_spec key prefix))
      by (exists (more +:+ rest); by rewrite <- string_app_assoc).
    cbn [List.filter]. rewrite (proj2 (strings_HasPrefix_spec key (prefix +:+ more)))
      by (by exists rest). by rewrite IH.
  - destruct (strings_HasPrefix key prefix); [|done]. cbn [List.filter]. by rewrite Hlong.
Qed.

End Visible.

Section Silent.

Context {Obs : Type} {codec : JSON}.
Implicit Types (p : Provider (Obs:=Obs)) (w : World (Obs:=Obs)).

(** ** Providers without a callback *)

Lemma deliver_none p failures (o : Obs) :
  OnIndexError (config p) = None → deliver p failures o = o.
Proof. unfold deliver. by intros ->. Qed.

Lemma step_silent op p w out p1 w1 :
  OnIndexError (config p) = None → step op (p, w) = (out, (p1, w1)) →
  observer w1 = observer w.
Proof.
  intros Hnone Hstep.
  destruct op as [path|path secret|path|path|prefix|]; cbn [step] in Hstep.
  - unfold Provider_Get in Hstep. destruct (closed p); [by simplify_eq|].
    destruct (zkeyring_Get _ path w) as [r w0] eqn:Hg.
    destruct (zkeyring_Get_frame _ _ _ _ _ Hg) as (_ & Ho & _).
    assert (w1 = w0) as ->; [|done]. destruct r; repeat case_match; by simplify_eq.
  - unfold Provider_Set in Hstep. destruct (closed p); [by simplify_eq|].
    destruct (if JSONFormat (config p) then _ else _) as [value|e']; [|by simplify_eq].
    destruct (zkeyring_Set _ path value w) as [[e'|] w0] eqn:Hs;
      destruct (zkeyring_Set_frame _ _ _ _ _ _ Hs) as (Ho & _);
      injection Hstep as <- <- <-; [done|].
    destruct (negb _); [|done]. by rewrite addToIndex_observer, deliver_none.
  - unfold Provider_Delete in Hstep. destruct (closed p); [by simplify_eq|].
    destruct (zkeyring_Delete _ path w) as [[e'|] w0] eqn:Hd;
      destruct (zkeyring_Delete_frame _ _ _ _ _ Hd) as (Ho & _).
    + assert (w1 = w0) as ->; [|done]. destruct (errors_Is _ _); by simplify_eq.
    + injection Hstep as <- <- <-. destruct (negb _); [|done].
      by rewrite removeFromIndex_observer, deliver_none.
  - unfold Provider_Exists in Hstep. destruct (closed p); [by simplify_eq|].
    destruct (zkeyring_Get _ path w) as [r w0] eqn:Hg.
    destruct (zkeyring_Get_frame _ _ _ _ _ Hg) as (_ & Ho & _).
    assert (w1 = w0) as ->; [|done]. destruct r; repeat case_match; by simplify_eq.
  - unfold Provider_List in Hstep. destruct (closed p); [by simplify_eq|].
    destruct (Provider_loadIndex p w) as [index w0] eqn:Hload.
    destruct (loadIndex_spec _ _ _ _ Hload) as (r & w0' & _ & _ & _ & _ & _ & Ho).
    injection Hstep as <- <- <-. by rewrite Ho, deliver_none.
  - unfold Provider_Close in Hstep. by simplify_eq.
Qed.

(** A Provider made by [NewWithServiceName] uses the given service name
    (the default one for the empty name), works in plain mode and has no
    callback: whatever the operations and whatever fails, it stays so and
    nothing is ever passed on about the index. *)
Theorem NewWithServiceName_silent (name : string) (ops : list Op) (w w1 : World (Obs:=Obs))
    (outs : list Outcome) (p1 : Provider (Obs:=Obs)) :
  run ops (NewWithServiceName name, w) = (outs, (p1, w1)) →
  ServiceName (config p1) = (if String.eqb name "" then "omnivault" else name) ∧
  JSONFormat (config p1) = false ∧
  observer w1 = observer w.
Proof.
  assert (Hrun : ∀ ops p w outs p1 w1,
    OnIndexError (config p) = None → run ops (p, w) = (outs, (p1, w1)) →
    config p1 = config p ∧ observer w1 = observer w).
  { clear. intros ops. induction ops as [|op ops IH]; intros p w outs p1 w1 Hnone.
    - by intros [= <- <- <-].
    - cbn [run]. destruct (step op (p, w)) as [out [p' w']] eqn:Hstep.
      destruct (run ops (p', w')) as [outs' st] eqn:Hrun. intros [= <- ->].
      pose proof (step_config _ _ _ _ _ _ Hstep) as Hcfg.
      pose proof (step_silent _ _ _ _ _ _ Hnone Hstep) as Ho.
      rewrite <- Hcfg in Hnone. destruct (IH _ _ _ _ _ Hnone Hrun) as [-> ->]. done. }
  intros H. apply Hrun in H as [-> ->]; [|by unfold NewWithServiceName, New; case_match].
  unfold NewWithServiceName, New. cbn [config ServiceName JSONFormat].
  by destruct (String.eqb name "").
Qed.

End Silent.

(** [Backend] names the credential store of the three supported systems
    and never returns the empty string. *)
Lemma Backend_named {Obs : Type} (goos : string) (p : Provider (Obs:=Obs)) :
  Provider_Backend goos p ≠ "" ∧
  (Provider_Backend goos p = "Unknown" ↔
   goos ≠ "darwin" ∧ goos ≠ "windows" ∧ goos ≠ "linux").
Proof.
  unfold Provider_Backend.
  destruct (String.eqb_spec goos "darwin") as [->|?]; [by split; [|split; [|intros []]]|].
  destruct (String.eqb_spec goos "windows") as [->|?];
    [by split; [|split; [|intros (? & [] & ?)]]|].
  destruct (String.eqb_spec goos "linux") as [->|?];
    [by split; [|split; [|intros (? & ? & [])]]|].
  by split.
Qed.

(** * The theorems at concrete inputs *)

Lemma index_failures_isolated_witness :
  closed plainProvider = false ∧
  ∃ w2, Provider_Set plainProvider "k" (plainSecret "v") thirdCallFails = (None, w2) ∧
        observer w2 = [("save", ErrNative "locked")].
Proof.
  split; [reflexivity|].
  destruct (index_failures_isolated plainProvider "k" (plainSecret "v") thirdCallFails
              eq_refl) as (Hset & _).
  destruct (Hset "v" (zkeyring_Set "app" "k" "v" thirdCallFails).2 eq_refl eq_refl)
    as (w2 & Hs & Ho).
  exists w2. split; [exact Hs|]. rewrite Ho. reflexivity.
Defined.

Lemma list_filters_index_witness :
  closed plainProvider = false ∧
  (Provider_List plainProvider "database/" threeSecrets).1
    = Ok ["database/prod"; "database/staging"].
Proof.
  split; [reflexivity|].
  destruct (list_filters_index plainProvider "database/" threeSecrets eq_refl)
    as (index & w1 & Hload & Hlist & _).
  rewrite Hlist. vm_compute in Hload. injection Hload as <- _. reflexivity.
Defined.

Lemma delete_idempotent_witness :
  closed plainProvider = false ∧
  ∃ w1 w2, Provider_Delete plainProvider "ghost" emptyWorld = (None, w1) ∧
           Provider_Delete plainProvider "ghost" w1 = (None, w2).
Proof.
  split; [reflexivity|].
  destruct (delete_idempotent plainProvider "ghost" emptyWorld eq_refl) as (_ & Htwice & _).
  apply Htwice; reflexivity.
Defined.

Lemma delete_absent_keeps_index_witness :
  let w1 := (zkeyring_Delete "app" "stale" staleIndex).2 in
  closed plainProvider = false ∧
  zkeyring_Delete "app" "stale" staleIndex = (Some ErrNotFound, w1) ∧
  Provider_Delete plainProvider "stale" staleIndex = (None, w1) ∧
  ∃ keys w2, Provider_List plainProvider "" w1 = (Ok keys, w2) ∧ "stale" ∈ keys.
Proof.
  intros w1. split_and!; [reflexivity..| |].
  - apply (delete_absent_keeps_index plainProvider "stale" staleIndex ErrNotFound w1);
      reflexivity.
  - destruct (delete_absent_keeps_index plainProvider "stale" staleIndex ErrNotFound w1
                eq_refl eq_refl eq_refl) as (_ & _ & _ & _ & Hlist).
    eapply (Hlist _ ["stale"] "");
      [reflexivity|reflexivity|reflexivity|apply list_elem_of_here|reflexivity].
Defined.

Lemma plain_fallback_witness :
  closed plainProvider = false ∧ JSONFormat (config plainProvider) = false ∧
  closed structuredProvider = false ∧ JSONFormat (config structuredProvider) = true ∧
  ServiceName (config structuredProvider) = ServiceName (config plainProvider) ∧
  fallsBack "hunter2" = true ∧ undisturbed 1 emptyWorld = true ∧
  ∃ w1, Provider_Set plainProvider "login" (plainSecret "hunter2") emptyWorld = (None, w1) ∧
    (undisturbed 1 w1 = true →
     ∃ got w2, Provider_Get structuredProvider "login" w1 = (Ok got, w2) ∧
       vault.Value got = "hunter2" ∧ vault.Fields got = ∅).
Proof.
  split_and!; [reflexivity..|].
  apply (plain_fallback plainProvider structuredProvider "login" (plainSecret "hunter2")
           emptyWorld); reflexivity.
Defined.

Lemma structured_round_trip_witness :
  let secret := vault.mkSecret "pw" {[ "user" := "admin" ]} (vault.mkMetadata "" "" ∅) in
  closed structuredProvider = false ∧ JSONFormat (config structuredProvider) = true ∧
  validSecret secret ∧ undisturbed 1 emptyWorld = true ∧
  ∃ w1, Provider_Set structuredProvider "db" secret emptyWorld = (None, w1) ∧
    (undisturbed 1 w1 = true →
     ∃ got w2, Provider_Get structuredProvider "db" w1 = (Ok got, w2) ∧
       vault.Value got = "pw" ∧ vault.Fields got = {[ "user" := "admin" ]}).
Proof.
  intros secret.
  assert (Hvalid : validSecret secret).
  { split; [reflexivity|]. intros k v Hkv. cbn [secret vault.Fields] in Hkv.
    apply lookup_singleton_Some in Hkv as [<- <-]. split; reflexivity. }
  split_and!; [reflexivity|reflexivity|exact Hvalid|reflexivity|].
  destruct (structured_round_trip structuredProvider "db" secret emptyWorld
              eq_refl eq_refl eq_refl) as (w1 & Hset & Hget).
  exists w1. split; [exact Hset|]. intros Hq.
  destruct (Hget Hq) as (got & w2 & Hgot & Hsame & _).
  exists got, w2. split; [exact Hgot|]. exact (Hsame Hvalid).
Defined.

Lemma reserved_key_never_indexed_witness :
  let ops := [OpSet "a" (plainSecret "1"); OpDelete indexKey;
              OpSet "b" (plainSecret "2"); OpList ""] in
  let result := run ops (plainProvider, emptyWorld) in
  store emptyWorld !! (ServiceName (config plainProvider), indexKey) = None ∧
  Forall (λ op, ¬ setsReserved op) ops ∧
  result.1 = [OutSet None; OutDelete None; OutSet None; OutList (Ok ["b"])] ∧
  Forall (λ out, ∀ keys, out = OutList (Ok keys) → indexKey ∉ keys) result.1 ∧
  ∀ data index,
    store result.2.2 !! (ServiceName (config plainProvider), indexKey) = Some data →
    json_Unmarshal_index data = Ok index → indexKey ∉ index.
Proof.
  intros ops result.
  assert (Hops : Forall (λ op, ¬ setsReserved op) ops).
  { repeat (apply List.Forall_cons; [simpl; try tauto; discriminate|]). constructor. }
  split_and!; [reflexivity|exact Hops|reflexivity|..];
    apply (reserved_key_never_indexed plainProvider result.2.1 emptyWorld result.2.2
             ops result.1 eq_refl Hops eq_refl).
Defined.

Lemma index_add_remove_witness :
  let w1 := Provider_addToIndex plainProvider "api-key" emptyWorld in
  utf8.ValidString "api-key" = true ∧ undisturbed 3 emptyWorld = true ∧
  ∃ index2 w2,
    Provider_loadIndex plainProvider w1 = (index2, w2) ∧ "api-key" ∈ index2 ∧
    Provider_addToIndex plainProvider "api-key" w1 = w2 ∧ store w2 = store w1.
Proof.
  intros w1. split_and!; [reflexivity..|].
  destruct (index_add_remove plainProvider "api-key" emptyWorld)
    as (index & w0 & _ & _ & _ & _ & _ & _ & _ & _ & Htwice).
  apply Htwice; reflexivity.
Defined.

Lemma get_stamps_plain_witness :
  let w1 := (Provider_Set plainProvider "key1"
               (vault.mkSecret "v" ∅ (vault.mkMetadata "aws" "prod/db" ∅)) emptyWorld).2 in
  JSONFormat (config plainProvider) = false ∧
  ∃ got w2, Provider_Get plainProvider "key1" w1 = (Ok got, w2) ∧
    vault.Provider (vault.Meta got) = "keyring" ∧ vault.Path (vault.Meta got) = "key1".
Proof.
  intros w1. split; [reflexivity|]. eexists _, _. split; [reflexivity|].
  eapply (get_stamps_plain plainProvider "key1" w1); reflexivity.
Defined.

Lemma set_twice_indexed_once_witness :
  closed plainProvider = false ∧ "api-key" ≠ indexKey ∧
  utf8.ValidString "api-key" = true ∧ undisturbed 5 emptyWorld = true ∧
  ∃ w1 w2,
    Provider_Set plainProvider "api-key" (plainSecret "one") emptyWorld = (None, w1) ∧
    Provider_Set plainProvider "api-key" (plainSecret "two") w1 = (None, w2) ∧
    "api-key" ∈ storedIndex plainProvider w1 ∧
    store w2 !! (ServiceName (config plainProvider), indexKey)
      = store w1 !! (ServiceName (config plainProvider), indexKey).
Proof.
  split_and!; [reflexivity|discriminate|reflexivity|reflexivity|].
  apply (set_twice_indexed_once plainProvider "api-key" (plainSecret "one")
           (plainSecret "two") emptyWorld); [reflexivity|discriminate|reflexivity..].
Defined.

Lemma not_found_mapping_witness :
  closed plainProvider = false ∧
  store emptyWorld !! (ServiceName (config plainProvider), "nonexistent") = None ∧
  undisturbed 1 emptyWorld = true ∧
  ∃ w1, Provider_Get plainProvider "nonexistent" emptyWorld
          = (Err (VaultError "Get" "nonexistent" "keyring" ErrSecretNotFound), w1) ∧
        Provider_Exists plainProvider "nonexistent" emptyWorld = ((false, None), w1).
Proof.
  split_and!; [reflexivity..|].
  destruct (not_found_mapping plainProvider "nonexistent" emptyWorld eq_refl eq_refl eq_refl)
    as (w1 & Hget & Hexists & _).
  by exists w1.
Defined.

Lemma index_membership_witness :
  closed plainProvider = false ∧ "api/github" ≠ indexKey ∧
  utf8.ValidString "api/github" = true ∧ undisturbed 6 threeSecrets = true ∧
  ∃ w1 w2,
    Provider_Set plainProvider "api/github" (plainSecret "token") threeSecrets = (None, w1) ∧
    storedIndex plainProvider w1 = ["database/prod"; "database/staging"; "api/github"] ∧
    Provider_Delete plainProvider "api/github" w1 = (None, w2) ∧
    storedIndex plainProvider w2 = ["database/prod"; "database/staging"].
Proof.
  split_and!; [reflexivity|discriminate|reflexivity|reflexivity|].
  destruct (index_membership plainProvider "api/github" (plainSecret "token") threeSecrets
              eq_refl ltac:(discriminate) eq_refl eq_refl)
    as (w1 & w2 & Hset & _ & Hdel & _).
  exists w1, w2. vm_compute in Hset. injection Hset as <-.
  vm_compute in Hdel. injection Hdel as <-.
  split_and!; reflexivity.
Defined.

(** * The further theorems at concrete inputs *)

Lemma operations_touch_only_their_path_witness :
  let op := OpSet "a" (plainSecret "1") in
  let st := step op (plainProvider, emptyWorld) in
  store st.2.2 !! ("app", indexKey) ≠ store emptyWorld !! ("app", indexKey) ∧
  "app" = ServiceName (config plainProvider) ∧
  (indexKey = opPath op ∨ indexKey = indexKey) ∧
  writes op = true ∧ closed plainProvider = false.
Proof.
  intros op st.
  assert (Hne : store st.2.2 !! ("app", indexKey) ≠ store emptyWorld !! ("app", indexKey))
    by (vm_compute; intros H; discriminate H).
  split; [exact Hne|].
  exact (operations_touch_only_their_path op plainProvider emptyWorld st.1 st.2.1 st.2.2
           "app" indexKey eq_refl Hne).
Defined.

Lemma errors_wrapped_witness :
  let op := OpDelete "k" in
  let st := step op (closedProvider, emptyWorld) in
  outcomeError st.1 = Some (VaultError "Delete" "k" "keyring" ErrClosed) ∧
  op ≠ OpClose ∧
  ∃ cause, VaultError "Delete" "k" "keyring" ErrClosed
             = VaultError (opName op) (opPath op) "keyring" cause ∧
           (closed closedProvider = true → cause = ErrClosed).
Proof.
  intros op st. split; [reflexivity|].
  exact (errors_wrapped op closedProvider emptyWorld st.1 st.2
           (VaultError "Delete" "k" "keyring" ErrClosed) eq_refl eq_refl).
Defined.

Lemma exists_agrees_with_get_witness :
  closed plainProvider = false ∧
  ∃ w1, (Provider_Get plainProvider "database/prod" threeSecrets).2 = w1 ∧
        (Provider_Exists plainProvider "database/prod" threeSecrets).2 = w1 ∧
        store w1 = store threeSecrets ∧
        (Provider_Exists plainProvider "database/prod" threeSecrets).1 = (true, None).
Proof.
  split; [reflexivity|].
  destruct (exists_agrees_with_get plainProvider "database/prod" threeSecrets eq_refl)
    as (w1 & Hget & Hexists & Hstore & _ & _ & Hsame).
  exists w1. split_and!; [exact Hget|exact Hexists|exact Hstore|exact Hsame].
Defined.

Lemma failed_write_changes_nothing_witness :
  let r := Provider_Set plainProvider "k" (plainSecret "v") firstCallFails in
  r.1 = Some (VaultError "Set" "k" "keyring" (ErrNative "locked")) ∧
  store r.2 = store firstCallFails ∧ observer r.2 = observer firstCallFails.
Proof.
  intros r. split; [reflexivity|].
  destruct (failed_write_changes_nothing plainProvider "k" (plainSecret "v") firstCallFails
              (VaultError "Set" "k" "keyring" (ErrNative "locked")) r.2) as [Hset _].
  destruct (Hset eq_refl) as (Hstore & Hobserver & _). split; [exact Hstore|exact Hobserver].
Defined.

Lemma delete_removes_entry_witness :
  closed plainProvider = false ∧ undisturbed 1 threeSecrets = true ∧
  ∃ w1, Provider_Delete plainProvider "api/github" threeSecrets = (None, w1) ∧
        store w1 !! ("app", "api/github") = None.
Proof.
  split_and!; [reflexivity..|].
  destruct (delete_removes_entry plainProvider "api/github" threeSecrets eq_refl eq_refl)
    as (w1 & Hdel & Habsent & _).
  exists w1. split; [exact Hdel|exact Habsent].
Defined.

Lemma plain_round_trip_witness :
  let secret := vault.mkSecret (String "255"%char "") {[ "user" := "admin" ]}
                  (vault.mkMetadata "aws" "prod/db" ∅) in
  closed plainProvider = false ∧ JSONFormat (config plainProvider) = false ∧
  undisturbed 1 emptyWorld = true ∧
  ∃ w1, Provider_Set plainProvider "k" secret emptyWorld = (None, w1) ∧
    (undisturbed 1 w1 = true →
     (Provider_Get plainProvider "k" w1).1
       = Ok (vault.mkSecret (String "255"%char "") ∅ (vault.mkMetadata "keyring" "k" ∅))).
Proof.
  intros secret. split_and!; [reflexivity..|].
  exact (plain_round_trip plainProvider "k" secret emptyWorld eq_refl eq_refl eq_refl).
Defined.

Lemma index_never_duplicates_witness :
  let ops := [OpSet "a" (plainSecret "1"); OpSet "a" (plainSecret "2");
              OpSet "b" (plainSecret "3"); OpDelete "a"; OpSet "a" (plainSecret "4");
              OpList ""] in
  let result := run ops (plainProvider, thirdCallFails) in
  NoDup (storedIndex plainProvider thirdCallFails) ∧ Forall setsValid ops ∧
  NoDup (storedIndex plainProvider result.2.2) ∧
  Forall (λ out, ∀ keys, out = OutList (Ok keys) → NoDup keys) result.1.
Proof.
  intros ops result.
  assert (Hnd : NoDup (storedIndex plainProvider thirdCallFails)) by apply NoDup_nil_2.
  assert (Hops : Forall setsValid ops).
  { repeat (apply List.Forall_cons;
            [first [exact I | split; [discriminate|reflexivity]]|]).
    apply List.Forall_nil. }
  assert (Hrun : run ops (plainProvider, thirdCallFails)
                 = (result.1, (result.2.1, result.2.2))) by (vm_compute; reflexivity).
  split_and!; [exact Hnd|exact Hops|..];
    apply (index_never_duplicates plainProvider result.2.1 thirdCallFails result.2.2
             ops result.1 Hnd Hops Hrun).
Defined.

Lemma quiet_run_no_callback_witness :
  let ops := [OpSet "normal-key" (plainSecret "value"); OpGet "missing";
              OpDelete "normal-key"; OpClose; OpList ""] in
  let result := run ops (plainProvider, emptyWorld) in
  faults emptyWorld = [] ∧ indexReadable plainProvider emptyWorld ∧
  Forall (λ op, ¬ setsReserved op) ops ∧
  observer result.2.2 = observer emptyWorld ∧
  Forall (λ out, ∀ e, outcomeError out = Some e →
            errors_Is is_ErrClosed e = true ∨ errors_Is is_ErrSecretNotFound e = true)
         result.1.
Proof.
  intros ops result.
  assert (Hr : indexReadable plainProvider emptyWorld).
  { intros text H. vm_compute in H. discriminate H. }
  assert (Hops : Forall (λ op, ¬ setsReserved op) ops).
  { repeat (apply List.Forall_cons; [simpl; first [tauto | discriminate]|]).
    apply List.Forall_nil. }
  assert (Hrun : run ops (plainProvider, emptyWorld)
                 = (result.1, (result.2.1, result.2.2))) by (vm_compute; reflexivity).
  split_and!; [reflexivity|exact Hr|exact Hops|..];
    apply (quiet_run_no_callback plainProvider result.2.1 emptyWorld result.2.2 ops
             result.1 eq_refl Hr Hops Hrun).
Defined.

Lemma list_matches_store_witness :
  let ops := [OpSet "database/prod" (plainSecret "a"); OpSet "api/github" (plainSecret "b");
              OpDelete "database/prod"; OpSet "standalone" (plainSecret "c")] in
  let result := run ops (plainProvider, emptyWorld) in
  faults emptyWorld = [] ∧ indexReadable plainProvider emptyWorld ∧
  listsStored plainProvider emptyWorld ∧ NoDup (storedIndex plainProvider emptyWorld) ∧
  Forall validOp ops ∧
  listsStored plainProvider result.2.2 ∧
  (Provider_List result.2.1 "" result.2.2).1 = Ok ["api/github"; "standalone"].
Proof.
  intros ops result.
  assert (Hr : indexReadable plainProvider emptyWorld).
  { intros text H. vm_compute in H. discriminate H. }
  assert (Hl : listsStored plainProvider emptyWorld).
  { intros key. split; [intros H; inversion H|].
    intros [_ [value H]]. vm_compute in H. discriminate H. }
  assert (Hnd : NoDup (storedIndex plainProvider emptyWorld)) by apply NoDup_nil_2.
  assert (Hops : Forall validOp ops).
  { repeat (apply List.Forall_cons;
            [first [discriminate | split; [discriminate|reflexivity]]|]).
    apply List.Forall_nil. }
  assert (Hrun : run ops (plainProvider, emptyWorld)
                 = (result.1, (result.2.1, result.2.2))) by (vm_compute; reflexivity).
  assert (Hopen : closed result.2.1 = false) by (vm_compute; reflexivity).
  destruct (list_matches_store plainProvider result.2.1 emptyWorld result.2.2 ops result.1
              eq_refl Hr Hl Hnd Hops Hrun) as (Hl1 & _ & Hlist).
  split_and!; [reflexivity|exact Hr|exact Hl|exact Hnd|exact Hops|exact Hl1|].
  rewrite (Hlist Hopen). vm_compute. reflexivity.
Defined.

Lemma unreadable_index_replaced_witness :
  let read := zkeyring_Get "app" indexKey corruptIndex in
  read.1 = Ok "not json" ∧ loadFailures read.1 ≠ [] ∧ undisturbed 1 read.2 = true ∧
  storedIndex plainProvider (Provider_addToIndex plainProvider "key1" corruptIndex)
    = [coerced "key1"] ∧
  observer (Provider_addToIndex plainProvider "key1" corruptIndex)
    = [("unmarshal", SyntaxError)].
Proof.
  intros read.
  assert (Hfail : loadFailures read.1 ≠ []) by (vm_compute; intros H; discriminate H).
  destruct (unreadable_index_replaced plainProvider "key1" corruptIndex read.2 read.1
              eq_refl Hfail eq_refl) as (Hadd & _ & Hobserver & _).
  split_and!; [reflexivity|exact Hfail|reflexivity|exact Hadd|].
  rewrite Hobserver. reflexivity.
Defined.

Lemma multi_field_capability_witness :
  closed structuredProvider = false ∧ validSecret loginSecret ∧
  vault.Fields loginSecret ≠ ∅ ∧ undisturbed 1 emptyWorld = true ∧
  vault.MultiField (Provider_Capabilities structuredProvider) = true ∧
  ∃ w1, Provider_Set structuredProvider "db" loginSecret emptyWorld = (None, w1) ∧
    (undisturbed 1 w1 = true →
     ∃ got, (Provider_Get structuredProvider "db" w1).1 = Ok got ∧
       vault.Value got = "pw" ∧ vault.Fields got = {[ "user" := "admin" ]}).
Proof.
  assert (Hvalid : validSecret loginSecret).
  { split; [reflexivity|]. intros k v Hkv. cbn [loginSecret vault.Fields] in Hkv.
    apply lookup_singleton_Some in Hkv as [<- <-]. split; reflexivity. }
  assert (Hfields : vault.Fields loginSecret ≠ ∅).
  { cbn [loginSecret vault.Fields]. apply insert_non_empty. }
  split_and!; [reflexivity|exact Hvalid|exact Hfields|reflexivity|reflexivity|].
  destruct (multi_field_capability structuredProvider "db" loginSecret emptyWorld
              eq_refl Hvalid Hfields eq_refl) as (_ & _ & _ & _ & w1 & Hset & Hget).
  exists w1. split; [exact Hset|]. intros Hq.
  destruct (Hget Hq) as (got & Hgot & Hvalue & Hsame).
  exists got. split_and!; [exact Hgot|exact Hvalue|exact (proj2 Hsame eq_refl)].
Defined.

Lemma structured_metadata_round_trip_witness :
  closed structuredProvider = false ∧ JSONFormat (config structuredProvider) = true ∧
  undisturbed 1 emptyWorld = true ∧ validMap (vault.Tags (vault.Meta loginSecret)) ∧
  ∃ w1, Provider_Set structuredProvider "db" loginSecret emptyWorld = (None, w1) ∧
    (undisturbed 1 w1 = true →
     ∃ got, (Provider_Get structuredProvider "db" w1).1 = Ok got ∧
       vault.Meta got = vault.mkMetadata "keyring" "db" {[ "env" := "prod" ]}).
Proof.
  assert (Hvalid : validMap (vault.Tags (vault.Meta loginSecret))).
  { intros k v Hkv. cbn [loginSecret vault.Meta vault.Tags] in Hkv.
    apply lookup_singleton_Some in Hkv as [<- <-]. split; reflexivity. }
  split_and!; [reflexivity..|exact Hvalid|].
  destruct (structured_metadata_round_trip structuredProvider "db" loginSecret emptyWorld
              eq_refl eq_refl eq_refl) as (w1 & Hset & Hget).
  exists w1. split; [exact Hset|]. intros Hq.
  destruct (Hget Hq) as (got & Hgot & Htags & Hprovider & Hpath).
  exists got. split; [exact Hgot|]. destruct got as [value fields [provider path tags]].
  cbn [vault.Meta vault.Tags vault.Provider vault.Path] in *.
  rewrite (Htags Hvalid), (Hprovider eq_refl), (Hpath eq_refl). reflexivity.
Defined.

Lemma set_makes_visible_witness :
  let w1 := (Provider_Set plainProvider "k" (plainSecret "v") thirdCallFails).2 in
  closed plainProvider = false ∧
  Provider_Set plainProvider "k" (plainSecret "v") thirdCallFails = (None, w1) ∧
  undisturbed 1 w1 = true ∧ storedIndex plainProvider w1 = [] ∧
  (Provider_Exists plainProvider "k" w1).1 = (true, None).
Proof.
  intros w1. split_and!; [reflexivity..|].
  apply (set_makes_visible plainProvider "k" (plainSecret "v") thirdCallFails w1);
    reflexivity.
Defined.

Lemma delete_reserved_key_empties_index_witness :
  closed plainProvider = false ∧ undisturbed 1 threeSecrets = true ∧
  storedIndex plainProvider threeSecrets
    = ["database/prod"; "database/staging"; "api/github"] ∧
  ∃ w1, Provider_Delete plainProvider indexKey threeSecrets = (None, w1) ∧
        storedIndex plainProvider w1 = [] ∧
        store w1 !! ("app", "api/github") = Some "c".
Proof.
  split_and!; [reflexivity..|].
  destruct (delete_reserved_key_empties_index plainProvider threeSecrets eq_refl eq_refl)
    as (w1 & Hdel & Hempty & Hkeep & _).
  exists w1. split_and!; [exact Hdel|exact Hempty|].
  etrans; [apply Hkeep; discriminate|]. vm_compute. reflexivity.
Defined.

Lemma list_prefix_refines_witness :
  closed plainProvider = false ∧
  ∃ keys, (Provider_List plainProvider "database/" threeSecrets).1 = Ok keys ∧
    (Provider_List plainProvider "database/prod" threeSecrets).1
      = Ok (List.filter (λ key, strings_HasPrefix key "database/prod") keys).
Proof.
  split; [reflexivity|].
  exact (list_prefix_refines plainProvider "database/" "prod" threeSecrets eq_refl).
Defined.

Lemma NewWithServiceName_silent_witness :
  let ops := [OpSet "k" (plainSecret "v"); OpDelete "k"] in
  let result := run ops (NewWithServiceName "", thirdCallFails) in
  ServiceName (config result.2.1) = "omnivault" ∧
  JSONFormat (config result.2.1) = false ∧
  observer result.2.2 = observer thirdCallFails.
Proof.
  intros ops result.
  assert (Hrun : run ops (NewWithServiceName "", thirdCallFails)
                 = (result.1, (result.2.1, result.2.2))) by (vm_compute; reflexivity).
  exact (NewWithServiceName_silent "" ops thirdCallFails result.2.2 result.1 result.2.1
           Hrun).
Defined.
